(** * Resumable SSE task broker ([backend/utils/sse], [backend/utils/safego])

    A shallow embedding of the Go package [sse] and of [safego.Go]:
    the manager, its task records and channels are an explicit world
    state; the exported methods ([ExecuteWithSSE], [UpdateProgress],
    [CompleteTask], [GetTaskInfo]) are functions on that state; the
    goroutines the package starts (task runner, data listener,
    per-subscriber forwarder) are processes with an explicit program
    point, advanced one step at a time.

    Modelling conventions.
    - [*TaskInfo] pointers are locations in a store, [chan interface{}]
      values are locations in a channel heap, so aliasing through
      closures and maps is kept.
    - [time.Now()] is a parameter of each operation.
    - A [select] with several ready cases is resolved by a [pick]
      parameter ([true]: the [ctx.Done()] case).
    - Each exported method runs as one step (its lock regions are not
      interleaved with other goroutines); the listener goroutine is
      split where the source releases the record lock. *)

From stdpp Require Import gmap strings list pretty.
From Stdlib Require Import ZArith Lia.

Local Open Scope Z_scope.

(** ** Data model *)

(** [type TaskStatus string] with its four constants. *)
Inductive TaskStatus :=
| TaskStatusRunning
| TaskStatusCompleted
| TaskStatusFailed
| TaskStatusCancelled.

#[global] Instance TaskStatus_eq_dec : EqDecision TaskStatus.
Proof. solve_decision. Defined.

(** The two values [ctx.Err()] can return once [ctx.Done()] is closed. *)
Inductive CtxErr := Canceled | DeadlineExceeded.

#[global] Instance CtxErr_eq_dec : EqDecision CtxErr.
Proof. solve_decision. Defined.

(** Errors: the three package-level sentinels, a context error, and any
    other error a work function may return. *)
Inductive error :=
| ErrTaskNotFound
| ErrTaskNotRunning
| ErrTaskExpired
| ErrContext (e : CtxErr)
| ErrOther (msg : string).

#[global] Instance error_eq_dec : EqDecision error.
Proof. solve_decision. Defined.

(** Contexts. A caller context comes from outside the package; an async
    context is one the package derives from [context.Background()]. *)
Inductive ctxid :=
| CallerCtx (n : nat)
| AsyncCtx (n : nat).

#[global] Instance ctxid_eq_dec : EqDecision ctxid.
Proof. solve_decision. Defined.

(** Locations of records and of channels in their heaps. *)
Abbreviation loc := nat (only parsing).
Abbreviation chanid := nat (only parsing).

(** Outcome of a call that may panic. *)
Inductive Ret (A : Type) :=
| Returns (a : A)
| Panics.
Arguments Returns {A} a.
Arguments Panics {A}.

Section Broker.

Context {payload : Type}.

(** A buffered channel: queued values, capacity, closed flag. *)
Record Chan := mkChan {
  buf : list payload;
  cap : nat;
  closed : bool
}.

(** [make(chan interface{}, n)] *)
Definition make_chan (n : nat) : Chan := mkChan [] n false.

Record TaskInfo := mkTaskInfo {
  TaskID : string;
  ResumeKey : string;
  Status : TaskStatus;
  Progress : option payload;
  CachedData : list payload;
  CreatedAt : Z;
  UpdatedAt : Z;
  ExpiresAt : Z;
  DataChannel : option chanid;
  Subscribers : gmap string chanid;
  listenerStarted : bool
}.

Definition set_Status (s : TaskStatus) (t : TaskInfo) : TaskInfo :=
  mkTaskInfo (TaskID t) (ResumeKey t) s (Progress t) (CachedData t)
    (CreatedAt t) (UpdatedAt t) (ExpiresAt t) (DataChannel t)
    (Subscribers t) (listenerStarted t).

Definition set_Progress (p : option payload) (t : TaskInfo) : TaskInfo :=
  mkTaskInfo (TaskID t) (ResumeKey t) (Status t) p (CachedData t)
    (CreatedAt t) (UpdatedAt t) (ExpiresAt t) (DataChannel t)
    (Subscribers t) (listenerStarted t).

Definition set_CachedData (c : list payload) (t : TaskInfo) : TaskInfo :=
  mkTaskInfo (TaskID t) (ResumeKey t) (Status t) (Progress t) c
    (CreatedAt t) (UpdatedAt t) (ExpiresAt t) (DataChannel t)
    (Subscribers t) (listenerStarted t).

Definition set_UpdatedAt (u : Z) (t : TaskInfo) : TaskInfo :=
  mkTaskInfo (TaskID t) (ResumeKey t) (Status t) (Progress t) (CachedData t)
    (CreatedAt t) u (ExpiresAt t) (DataChannel t)
    (Subscribers t) (listenerStarted t).

Definition set_DataChannel (d : option chanid) (t : TaskInfo) : TaskInfo :=
  mkTaskInfo (TaskID t) (ResumeKey t) (Status t) (Progress t) (CachedData t)
    (CreatedAt t) (UpdatedAt t) (ExpiresAt t) d
    (Subscribers t) (listenerStarted t).

Definition set_Subscribers (s : gmap string chanid) (t : TaskInfo) : TaskInfo :=
  mkTaskInfo (TaskID t) (ResumeKey t) (Status t) (Progress t) (CachedData t)
    (CreatedAt t) (UpdatedAt t) (ExpiresAt t) (DataChannel t)
    s (listenerStarted t).

Definition set_listenerStarted (b : bool) (t : TaskInfo) : TaskInfo :=
  mkTaskInfo (TaskID t) (ResumeKey t) (Status t) (Progress t) (CachedData t)
    (CreatedAt t) (UpdatedAt t) (ExpiresAt t) (DataChannel t)
    (Subscribers t) b.

(** [AsyncTaskFunc]: what a work function does, seen from the broker.
    It may call [updateProgress] and continue with the returned error,
    poll its own context, return, or panic. *)
Inductive Work :=
| WUpdate (data : payload) (k : option error → Work)
| WPoll (k : option CtxErr → Work)
| WReturn (e : option error)
| WPanic.

(** An async context: its deadline, if made by [context.WithTimeout],
    and its error once done. *)
Record AsyncCtxState := mkAsync {
  deadline : option Z;
  async_err : option CtxErr
}.

(** Program points of the goroutines started by [ExecuteWithSSE]. *)
Inductive Proc :=
(* the task runner: [asyncFunc] is at [w] *)
| PRunner (ctx : ctxid) (actx : nat) (taskID : string) (w : Work)
(* the data listener, at the top of its loop *)
| PListen (task : loc) (actx : nat)
(* ... holding a received value, before the read-locked snapshot *)
| PListenRecv (task : loc) (actx : nat) (data : payload)
(* ... holding the snapshot, before the sends or the append *)
| PListenGot (task : loc) (actx : nat) (data : payload)
    (hasSubscribers : bool) (subscribers : gmap string chanid)
(* the forwarder, before it copies [CachedData] *)
| PForwardStart (ctx : ctxid) (task : loc) (subscriberID : string)
    (subChan outputChan : chanid)
(* ... replaying the copied [cachedData] *)
| PForwardReplay (ctx : ctxid) (task : loc) (subscriberID : string)
    (subChan outputChan : chanid) (cachedData : list payload)
(* ... at the top of the live loop *)
| PForward (ctx : ctxid) (task : loc) (subscriberID : string)
    (subChan outputChan : chanid)
(* ... holding a value received from [subChan] *)
| PForwardHold (ctx : ctxid) (task : loc) (subscriberID : string)
    (subChan outputChan : chanid) (data : payload)
(* a goroutine that returned, or whose panic [safego.Recovery] caught *)
| PDone.

(** The manager together with everything it points to. *)
Record World := mkWorld {
  tasks : gmap string loc;            (* m.tasks *)
  defaultTTL : Z;                     (* m.defaultTTL *)
  store : list TaskInfo;              (* the TaskInfo objects *)
  chans : list Chan;                  (* the channel objects *)
  caller_done : gmap nat CtxErr;      (* caller contexts that are done *)
  actxs : list AsyncCtxState;         (* async contexts *)
  procs : list Proc;                  (* goroutines *)
  received : gmap chanid (list payload) (* values read off output channels *)
}.

Definition set_tasks (x : gmap string loc) (w : World) : World :=
  mkWorld x (defaultTTL w) (store w) (chans w) (caller_done w) (actxs w)
    (procs w) (received w).
Definition set_store (x : list TaskInfo) (w : World) : World :=
  mkWorld (tasks w) (defaultTTL w) x (chans w) (caller_done w) (actxs w)
    (procs w) (received w).
Definition set_chans (x : list Chan) (w : World) : World :=
  mkWorld (tasks w) (defaultTTL w) (store w) x (caller_done w) (actxs w)
    (procs w) (received w).
Definition set_caller_done (x : gmap nat CtxErr) (w : World) : World :=
  mkWorld (tasks w) (defaultTTL w) (store w) (chans w) x (actxs w)
    (procs w) (received w).
Definition set_actxs (x : list AsyncCtxState) (w : World) : World :=
  mkWorld (tasks w) (defaultTTL w) (store w) (chans w) (caller_done w) x
    (procs w) (received w).
Definition set_procs (x : list Proc) (w : World) : World :=
  mkWorld (tasks w) (defaultTTL w) (store w) (chans w) (caller_done w)
    (actxs w) x (received w).
Definition set_received (x : gmap chanid (list payload)) (w : World) : World :=
  mkWorld (tasks w) (defaultTTL w) (store w) (chans w) (caller_done w)
    (actxs w) (procs w) x.

(** ** Contexts *)

(** [ctx.Err()]: [None] while the context is live. *)
Definition ctx_err (w : World) (c : ctxid) : option CtxErr :=
  match c with
  | CallerCtx n => caller_done w !! n
  | AsyncCtx n => a ← actxs w !! n; async_err a
  end.

(** The caller cancels its context (client disconnect). *)
Definition cancel_caller (n : nat) (w : World) : World :=
  match caller_done w !! n with
  | Some _ => w
  | None => set_caller_done (<[n := Canceled]> (caller_done w)) w
  end.

(** [cancel()] of an async context; the first error sticks. *)
Definition cancel_async (n : nat) (w : World) : World :=
  match actxs w !! n with
  | Some (mkAsync d None) => set_actxs (<[n := mkAsync d (Some Canceled)]> (actxs w)) w
  | _ => w
  end.

(** The timer of an async context fires at [now]. *)
Definition expire_async (now : Z) (n : nat) (w : World) : World :=
  match actxs w !! n with
  | Some (mkAsync (Some d) None) =>
      if d <=? now
      then set_actxs (<[n := mkAsync (Some d) (Some DeadlineExceeded)]> (actxs w)) w
      else w
  | _ => w
  end.

(** ** Channels *)

Definition new_chan (n : nat) (w : World) : chanid * World :=
  (length (chans w), set_chans (chans w ++ [make_chan n]) w).

Definition upd_chan (c : chanid) (f : Chan → Chan) (w : World) : World :=
  set_chans (alter f c (chans w)) w.

(** What a send on [c] would do right now. A nil channel blocks;
    a closed channel panics; a full channel blocks. *)
Inductive SendStatus := SendReady | SendPanics | SendBlocked.

Definition send_status (w : World) (c : option chanid) : SendStatus :=
  match c with
  | None => SendBlocked
  | Some c =>
      match chans w !! c with
      | None => SendBlocked
      | Some ch =>
          if closed ch then SendPanics
          else if bool_decide (length (buf ch) < cap ch)%nat then SendReady
          else SendBlocked
      end
  end.

Definition enqueue (v : payload) (ch : Chan) : Chan :=
  mkChan (buf ch ++ [v]) (cap ch) (closed ch).

Definition do_send (c : chanid) (v : payload) (w : World) : World :=
  upd_chan c (enqueue v) w.

(** [close(c)] inside a [func() { defer func() { recover() }(); ... }()]:
    closing a closed channel panics and the panic is swallowed. *)
Definition safe_close (c : chanid) (w : World) : World :=
  upd_chan c (λ ch, mkChan (buf ch) (cap ch) true) w.

(** The branch a [select { case c <- v: ; case <-ctx.Done(): ; ... }]
    takes. [SelNone] is the [default] branch where there is one, and
    blocking where there is none. *)
Inductive Sel :=
| SelSend
| SelPanic
| SelDone (e : CtxErr)
| SelNone.

Definition select_send (pick : bool) (st : SendStatus) (d : option CtxErr) : Sel :=
  match st, d with
  | SendBlocked, None => SelNone
  | SendBlocked, Some e => SelDone e
  | SendReady, None => SelSend
  | SendPanics, None => SelPanic
  | SendReady, Some e => if pick then SelDone e else SelSend
  | SendPanics, Some e => if pick then SelDone e else SelPanic
  end.

(** ** Task records *)

Definition upd_task (l : loc) (f : TaskInfo → TaskInfo) (w : World) : World :=
  set_store (alter f l (store w)) w.

(** [task, exists := m.tasks[taskID]] *)
Definition lookup_task (w : World) (taskID : string) : option (loc * TaskInfo) :=
  l ← tasks w !! taskID; t ← store w !! l; Some (l, t).

(** ** [UpdateProgress] (sse.go 385-418) *)
Definition UpdateProgress (now : Z) (pick : bool) (ctx : ctxid)
    (taskID : string) (data : payload) (w : World) : World * Ret (option error) :=
  match lookup_task w taskID with
  | None => (w, Returns (Some ErrTaskNotFound))
  | Some (l, t) =>
      if bool_decide (Status t ≠ TaskStatusRunning)
      then (w, Returns (Some ErrTaskNotRunning))
      else
        let w1 := upd_task l (λ t, set_UpdatedAt now (set_Progress (Some data) t)) w in
        match select_send pick (send_status w1 (DataChannel t)) (ctx_err w1 ctx) with
        | SelSend =>
            match DataChannel t with
            | Some c => (do_send c data w1, Returns None)
            | None => (w1, Returns None)
            end
        | SelPanic => (w1, Panics)
        | SelDone e => (w1, Returns (Some (ErrContext e)))
        | SelNone => (w1, Returns None)
        end
  end.

(** ** [CompleteTask] (sse.go 426-475) *)
Definition close_all (subs : gmap string chanid) (w : World) : World :=
  map_fold (λ _ c w, safe_close c w) w subs.

Definition CompleteTask (now : Z) (ctx : ctxid) (taskID : string)
    (status : TaskStatus) (w : World) : World :=
  match lookup_task w taskID with
  | None => w
  | Some (l, t) =>
      let w1 := upd_task l (λ t, set_CachedData [] (set_UpdatedAt now (set_Status status t))) w in
      let w2 :=
        match DataChannel t with
        | Some c => upd_task l (set_DataChannel None) (safe_close c w1)
        | None => w1
        end in
      let subscribers := Subscribers t in
      let w3 := upd_task l (set_Subscribers ∅) w2 in
      close_all subscribers w3
  end.

(** ** [GetTaskInfo] (sse.go 478-502): a copy of the metadata fields. *)
Definition GetTaskInfo (taskID : string) (w : World) : TaskInfo + error :=
  match lookup_task w taskID with
  | None => inr ErrTaskNotFound
  | Some (_, task) =>
      inl (mkTaskInfo (TaskID task) (ResumeKey task) (Status task)
             (Progress task) [] (CreatedAt task) (UpdatedAt task)
             (ExpiresAt task) None ∅ false)
  end.

(** ** [cleanupExpiredTasks], one tick of the ticker (sse.go 94-132) *)
Definition sweep_one (now : Z) (taskID : string) (l : loc) (w : World) : World :=
  match store w !! l with
  | None => w
  | Some task =>
      let expired := ExpiresAt task <? now in
      if expired || bool_decide (Status task ≠ TaskStatusRunning)
      then
        let w1 := set_tasks (delete taskID (tasks w)) w in
        let w2 := match DataChannel task with
                  | Some c => safe_close c w1
                  | None => w1
                  end in
        close_all (Subscribers task) w2
      else w
  end.

Definition cleanupExpiredTasks (now : Z) (w : World) : World :=
  map_fold (sweep_one now) w (tasks w).

(** ** [NewSSEManager] (sse.go 70-88) *)
Definition hour : Z := 3600 * 1000000000.

Definition NewSSEManager (ttl : Z) : World :=
  let ttl := if ttl <=? 0 then 1 * hour else ttl in
  mkWorld ∅ ttl [] [] ∅ [] [] ∅.

(** ** [ExecuteWithSSE] (sse.go 160-375) *)

(** The lookup loop over [m.tasks] (172-185). Go leaves the iteration
    order open; this is the order of [map_to_list]. *)
Fixpoint scan (st : list TaskInfo) (resumeKey : string)
    (es : list (string * loc)) : option (string * loc * TaskInfo) :=
  match es with
  | [] => None
  | (id, l) :: es =>
      match st !! l with
      | Some t =>
          if bool_decide (ResumeKey t = resumeKey) then Some (id, l, t)
          else scan st resumeKey es
      | None => scan st resumeKey es
      end
  end.

Definition findTask (w : World) (resumeKey : string)
    : option (string * loc * TaskInfo) :=
  if bool_decide (resumeKey ≠ "")
  then scan (store w) resumeKey (map_to_list (tasks w))
  else None.

(** Step 2 (203-223): a new record. [now k] is the k-th clock reading
    of the call. *)
Definition new_task (now : nat → Z) (w : World) : string * loc * World :=
  let taskID := "task_" +:+ pretty (now 0%nat) in
  let resumeKey := "resume_" +:+ pretty (now 1%nat) in
  let '(dc, w1) := new_chan 100 w in
  let task :=
    mkTaskInfo taskID resumeKey TaskStatusRunning None []
      (now 2%nat) (now 3%nat) (now 4%nat + defaultTTL w)
      (Some dc) ∅ false in
  let l := length (store w1) in
  (taskID, l, set_tasks (<[taskID := l]> (tasks w1)) (set_store (store w1 ++ [task]) w1)).

(** The loop over [task.CachedData] (234-242); [i] counts iterations. *)
Fixpoint flush_cached (pick : nat → bool) (ctx : ctxid) (subChan : chanid)
    (cs : list payload) (i : nat) (w : World) : World * Ret (option CtxErr) :=
  match cs with
  | [] => (w, Returns None)
  | cached :: cs =>
      match select_send (pick i) (send_status w (Some subChan)) (ctx_err w ctx) with
      | SelSend => flush_cached pick ctx subChan cs (S i) (do_send subChan cached w)
      | SelDone e => (w, Returns (Some e))
      | SelNone => flush_cached pick ctx subChan cs (S i) w
      | SelPanic => (w, Panics)
      end
  end.

(** [safego.Go] (safego.go 25-30): a new goroutine; [Recovery] is
    deferred around its body (see [step_proc]). *)
Definition Go (p : Proc) (w : World) : World :=
  set_procs (procs w ++ [p]) w.

Definition new_actx (d : option Z) (w : World) : nat * World :=
  (length (actxs w), set_actxs (actxs w ++ [mkAsync d None]) w).

(** Step 5 (249-318): runner and listener of a new task. *)
Definition start_task (now : nat → Z) (ctx : ctxid) (task : loc)
    (taskID : string) (asyncFunc : string → Work) (asyncTimeout : Z)
    (w : World) : World :=
  let d := if asyncTimeout <=? 0 then None else Some (now 5%nat + asyncTimeout) in
  let '(actx, w1) := new_actx d w in
  let w2 := Go (PRunner ctx actx taskID (asyncFunc taskID)) w1 in
  match store w2 !! task with
  | Some t =>
      if listenerStarted t then w2
      else Go (PListen task actx) (upd_task task (set_listenerStarted true) w2)
  | None => w2
  end.

(** Steps 3-6 (226-374) on the record at [task]. *)
Definition attach (now : nat → Z) (pick : nat → bool) (ctx : ctxid)
    (isNewTask : bool) (task : loc) (taskID subscriberID : string)
    (asyncFunc : string → Work) (asyncTimeout : Z) (w : World)
    : World * Ret (option chanid * string * option error) :=
  let '(subChan, w1) := new_chan 100 w in
  let w2 := upd_task task
              (λ t, set_Subscribers (<[subscriberID := subChan]> (Subscribers t)) t) w1 in
  let '(outputChan, w3) := new_chan 100 w2 in
  let cached := default [] (CachedData <$> store w3 !! task) in
  let '(w4, r) :=
    if bool_decide (0 < length cached)%nat
    then
      match flush_cached pick ctx subChan cached 0 w3 with
      | (w', Returns None) => (upd_task task (set_CachedData []) w', Returns None)
      | other => other
      end
    else (w3, Returns None) in
  match r with
  | Panics => (w4, Panics)
  | Returns (Some e) => (w4, Returns (None, "", Some (ErrContext e)))
  | Returns None =>
      let w5 := if isNewTask
                then start_task now ctx task taskID asyncFunc asyncTimeout w4
                else w4 in
      let w6 := Go (PForwardStart ctx task subscriberID subChan outputChan) w5 in
      (w6, Returns (Some outputChan, taskID, None))
  end.

Definition ExecuteWithSSE (now : nat → Z) (pick : nat → bool) (ctx : ctxid)
    (resumeKey subscriberID : string) (asyncFunc : string → Work)
    (asyncTimeout : Z) (w : World)
    : World * Ret (option chanid * string * option error) :=
  match findTask w resumeKey with
  | Some (taskID, task, t) =>
      if ExpiresAt t <? now 0%nat
      then (w, Returns (None, "", Some ErrTaskExpired))
      else if bool_decide (Status t ≠ TaskStatusRunning)
      then (w, Returns (None, "", Some ErrTaskNotRunning))
      else attach now pick ctx false task taskID subscriberID asyncFunc asyncTimeout w
  | None =>
      let '(taskID, task, w1) := new_task now w in
      attach now pick ctx true task taskID subscriberID asyncFunc asyncTimeout w1
  end.

(** ** Goroutines *)

Definition set_proc (i : nat) (p : Proc) (w : World) : World :=
  set_procs (<[i := p]> (procs w)) w.

(** What a receive on [c] would do right now. *)
Inductive RecvStatus :=
| RecvValue (v : payload)
| RecvClosed
| RecvBlocked.

Definition recv_status (w : World) (c : option chanid) : RecvStatus :=
  match c with
  | None => RecvBlocked
  | Some c =>
      match chans w !! c with
      | None => RecvBlocked
      | Some ch =>
          match buf ch with
          | v :: _ => RecvValue v
          | [] => if closed ch then RecvClosed else RecvBlocked
          end
      end
  end.

Definition dequeue (ch : Chan) : Chan :=
  mkChan (tail (buf ch)) (cap ch) (closed ch).

(** The branch a [select { case v, ok := <-c: ; case <-ctx.Done(): }]
    takes; [RSelNone] is blocking. *)
Inductive RSel :=
| RSelValue (v : payload)
| RSelClosed
| RSelDone
| RSelNone.

Definition select_recv (pick : bool) (st : RecvStatus) (d : option CtxErr) : RSel :=
  match st, d with
  | RecvBlocked, None => RSelNone
  | RecvBlocked, Some _ => RSelDone
  | RecvValue v, None => RSelValue v
  | RecvClosed, None => RSelClosed
  | RecvValue v, Some _ => if pick then RSelDone else RSelValue v
  | RecvClosed, Some _ => if pick then RSelDone else RSelClosed
  end.

(** How a step of a goroutine's body ends. *)
Inductive Ending :=
| Continues (p : Proc)
| Returned
| Panicked.

(** [safego.Recovery] (safego.go 11-23), deferred by [safego.Go]: a
    panic is recovered and logged, and the goroutine is over as it is
    after a return. *)
Definition Recovery (e : Ending) : Proc :=
  match e with
  | Continues p => p
  | Returned => PDone
  | Panicked => PDone
  end.

(** The body of the task runner (sse.go 262-270). [defer cancel()]
    runs when the body returns and when it panics; a panic of
    [asyncFunc] skips both calls of [CompleteTask]. *)
Definition runner_body (now : Z) (pick : bool) (ctx : ctxid) (actx : nat)
    (taskID : string) (wk : Work) (w : World) : World * Ending :=
  match wk with
  | WUpdate data k =>
      match UpdateProgress now pick ctx taskID data w with
      | (w', Returns e) => (w', Continues (PRunner ctx actx taskID (k e)))
      | (w', Panics) => (cancel_async actx w', Panicked)
      end
  | WPoll k =>
      (w, Continues (PRunner ctx actx taskID (k (ctx_err w (AsyncCtx actx)))))
  | WReturn (Some _) =>
      (cancel_async actx (CompleteTask now ctx taskID TaskStatusFailed w),
       Returned)
  | WReturn None =>
      (cancel_async actx (CompleteTask now ctx taskID TaskStatusCompleted w),
       Returned)
  | WPanic =>
      (cancel_async actx w, Panicked)
  end.

Definition step_runner (now : Z) (pick : bool) (i : nat) (ctx : ctxid)
    (actx : nat) (taskID : string) (wk : Work) (w : World) : World :=
  let '(w', e) := runner_body now pick ctx actx taskID wk w in
  set_proc i (Recovery e) w'.

(** The sends of the listener to its snapshot (297-303). A send on a
    closed channel panics and ends the goroutine. *)
Fixpoint broadcast (data : payload) (subs : list (string * chanid))
    (w : World) : World * bool :=
  match subs with
  | [] => (w, true)
  | (_, subChan) :: subs =>
      match select_send false (send_status w (Some subChan)) None with
      | SelSend => broadcast data subs (do_send subChan data w)
      | SelPanic => (w, false)
      | _ => broadcast data subs w
      end
  end.

(** The data listener (279-314). *)
Definition step_listen (pick : bool) (i : nat) (task : loc) (actx : nat)
    (w : World) : option World :=
  let dc := t ← store w !! task; DataChannel t in
  match select_recv pick (recv_status w dc) (ctx_err w (AsyncCtx actx)) with
  | RSelValue data =>
      match dc with
      | Some c => Some (set_proc i (PListenRecv task actx data) (upd_chan c dequeue w))
      | None => None
      end
  | RSelClosed => Some (set_proc i (Recovery Returned) w)
  | RSelDone => Some (set_proc i (Recovery Returned) w)
  | RSelNone => None
  end.

Definition step_listen_snapshot (i : nat) (task : loc) (actx : nat)
    (data : payload) (w : World) : option World :=
  t ← store w !! task;
  Some (set_proc i
          (PListenGot task actx data
             (bool_decide (0 < size (Subscribers t))%nat) (Subscribers t)) w).

Definition step_listen_dispatch (i : nat) (task : loc) (actx : nat)
    (data : payload) (hasSubscribers : bool)
    (subscribers : gmap string chanid) (w : World) : World :=
  if hasSubscribers
  then
    match broadcast data (map_to_list subscribers) w with
    | (w', true) => set_proc i (Recovery (Continues (PListen task actx))) w'
    | (w', false) => set_proc i (Recovery Panicked) w'
    end
  else
    set_proc i (PListen task actx)
      (upd_task task (λ t, set_CachedData (CachedData t ++ [data]) t) w).

(** The deferred functions of the forwarder (322-340); they run when
    it returns and when it panics. *)
Definition forward_exit (i : nat) (task : loc) (subscriberID : string)
    (subChan outputChan : chanid) (w : World) : World :=
  let w1 :=
    match store w !! task with
    | Some t =>
        match Subscribers t !! subscriberID with
        | Some _ =>
            safe_close subChan
              (upd_task task
                 (λ t, set_Subscribers (delete subscriberID (Subscribers t)) t) w)
        | None => w
        end
    | None => w
    end in
  set_proc i (Recovery Returned) (safe_close outputChan w1).

(** [select { case outputChan <- data: ; case <-ctx.Done(): return }] *)
Definition forward_send (pick : bool) (i : nat) (ctx : ctxid) (task : loc)
    (subscriberID : string) (subChan outputChan : chanid) (data : payload)
    (next : Proc) (w : World) : option World :=
  match select_send pick (send_status w (Some outputChan)) (ctx_err w ctx) with
  | SelSend => Some (set_proc i next (do_send outputChan data w))
  | SelDone _ => Some (forward_exit i task subscriberID subChan outputChan w)
  | SelPanic => Some (forward_exit i task subscriberID subChan outputChan w)
  | SelNone => None
  end.

(** One step of goroutine [i]; [None] when it is blocked or finished. *)
Definition step_proc (now : Z) (pick : bool) (i : nat) (w : World) : option World :=
  p ← procs w !! i;
  match p with
  | PRunner ctx actx taskID wk => Some (step_runner now pick i ctx actx taskID wk w)
  | PListen task actx => step_listen pick i task actx w
  | PListenRecv task actx data => step_listen_snapshot i task actx data w
  | PListenGot task actx data has subs =>
      Some (step_listen_dispatch i task actx data has subs w)
  | PForwardStart ctx task sid subChan outputChan =>
      t ← store w !! task;
      Some (set_proc i (PForwardReplay ctx task sid subChan outputChan (CachedData t)) w)
  | PForwardReplay ctx task sid subChan outputChan [] =>
      Some (set_proc i (PForward ctx task sid subChan outputChan) w)
  | PForwardReplay ctx task sid subChan outputChan (data :: rest) =>
      forward_send pick i ctx task sid subChan outputChan data
        (PForwardReplay ctx task sid subChan outputChan rest) w
  | PForward ctx task sid subChan outputChan =>
      match select_recv pick (recv_status w (Some subChan)) (ctx_err w ctx) with
      | RSelValue data =>
          Some (set_proc i (PForwardHold ctx task sid subChan outputChan data)
                  (upd_chan subChan dequeue w))
      | RSelClosed => Some (forward_exit i task sid subChan outputChan w)
      | RSelDone => Some (forward_exit i task sid subChan outputChan w)
      | RSelNone => None
      end
  | PForwardHold ctx task sid subChan outputChan data =>
      forward_send pick i ctx task sid subChan outputChan data
        (PForward ctx task sid subChan outputChan) w
  | PDone => None
  end.

(** The caller reads one value off an output channel. *)
Definition read_output (c : chanid) (w : World) : option World :=
  match recv_status w (Some c) with
  | RecvValue v =>
      Some (set_received
              (<[c := default [] (received w !! c) ++ [v]]> (received w))
              (upd_chan c dequeue w))
  | _ => None
  end.

(** Everything that can happen to a manager. *)
Inductive Action :=
| AExecute (now : nat → Z) (pick : nat → bool) (ctx : ctxid)
    (resumeKey subscriberID : string) (asyncFunc : string → Work)
    (asyncTimeout : Z)
| AUpdate (now : Z) (pick : bool) (ctx : ctxid) (taskID : string) (data : payload)
| AComplete (now : Z) (ctx : ctxid) (taskID : string) (status : TaskStatus)
| ATick (now : Z)
| AProc (now : Z) (pick : bool) (i : nat)
| ACancel (n : nat)
| ATimeout (now : Z) (n : nat)
| ARead (c : chanid).

(** A step that is not enabled leaves the world as it is. *)
Definition step (a : Action) (w : World) : World :=
  match a with
  | AExecute now pick ctx key sid f d => (ExecuteWithSSE now pick ctx key sid f d w).1
  | AUpdate now pick ctx id data => (UpdateProgress now pick ctx id data w).1
  | AComplete now ctx id st => CompleteTask now ctx id st w
  | ATick now => cleanupExpiredTasks now w
  | AProc now pick i => default w (step_proc now pick i w)
  | ACancel n => cancel_caller n w
  | ATimeout now n => expire_async now n w
  | ARead c => default w (read_output c w)
  end.

Definition run (acts : list Action) (w : World) : World :=
  foldl (λ w a, step a w) w acts.

End Broker.

Arguments Chan : clear implicits.
Arguments TaskInfo : clear implicits.
Arguments Work : clear implicits.
Arguments Proc : clear implicits.
Arguments World : clear implicits.
Arguments Action : clear implicits.

(** * The default manager (sse.go 505-582)

    The package-level variables [defaultManager] and
    [defaultManagerOnce], and the package-level functions, which run
    the method of the same name on the default manager. *)

Module sse.

Section Package.

Context {payload : Type}.

Record Package := mkPackage {
  defaultManager : option (World payload);
  defaultManagerOnce : bool            (* the [sync.Once] has run *)
}.

(** The package before any of its functions is called. *)
Definition initial : Package := mkPackage None false.

(** [defaultManagerOnce.Do(func() { defaultManager = NewSSEManager(ttl) })] *)
Definition once_Do (ttl : Z) (p : Package) : Package :=
  if defaultManagerOnce p then p
  else mkPackage (Some (NewSSEManager ttl)) true.

Definition getDefaultManager (p : Package) : option (World payload) * Package :=
  let p := once_Do (1 * hour) p in
  (defaultManager p, p).

Definition Init (defaultTTL : Z) (p : Package) : Package :=
  once_Do defaultTTL p.

(** A method call on the pointer [getDefaultManager()] returns; a nil
    pointer panics. *)
Definition on_default {A} (f : World payload → World payload * A)
    (p : Package) : Package * Ret A :=
  match getDefaultManager p with
  | (Some m, p) =>
      let '(m, r) := f m in
      (mkPackage (Some m) (defaultManagerOnce p), Returns r)
  | (None, p) => (p, Panics)
  end.

Definition ExecuteWithSSE (now : nat → Z) (pick : nat → bool) (ctx : ctxid)
    (resumeKey subscriberID : string) (asyncFunc : string → Work payload)
    (asyncTimeout : Z) :=
  on_default (ExecuteWithSSE now pick ctx resumeKey subscriberID asyncFunc
                asyncTimeout).

Definition UpdateProgress (now : Z) (pick : bool) (ctx : ctxid)
    (taskID : string) (data : payload) :=
  on_default (UpdateProgress now pick ctx taskID data).

Definition CompleteTask (now : Z) (ctx : ctxid) (taskID : string)
    (status : TaskStatus) :=
  on_default (λ m, (CompleteTask now ctx taskID status m, ())).

Definition GetTaskInfo (taskID : string) :=
  on_default (λ m, (m, GetTaskInfo taskID m)).

End Package.

Arguments Package : clear implicits.

End sse.

(** * Derived notions

    Predicates, closed forms and schedules the properties below are
    stated with. *)

Section Notions.

Context {payload : Type}.
Implicit Types (w : World payload) (t : TaskInfo payload) (ch : Chan payload).
Implicit Types (p : Proc payload) (ps : list (Proc payload)).
Implicit Types (xs ys q : list payload).

(** Representation invariant: [m.tasks] holds pointers to records. *)
Definition registry_ok w : Prop :=
  map_Forall (λ _ l, (l < length (store w))%nat) (tasks w).

(** [w'] keeps the registry of [w] and has as many records. *)
Definition same_registry w w' : Prop :=
  tasks w' = tasks w ∧ length (store w') = length (store w).

(** What the caller of an output channel has read so far. *)
Definition delivered w (c : chanid) : list payload :=
  default [] (received w !! c).

(** The manager right after a call that created a task: the record,
    its raw queue, the subscriber queue and the output channel, the
    async context, and the three goroutines. *)
Definition created (now : nat → Z) (ctx : ctxid) (sid : string)
    (f : string → Work payload) (d : Z) w : World payload :=
  let taskID := "task_" +:+ pretty (now 0%nat) in
  let c := length (chans w) in
  let l := length (store w) in
  let a := length (actxs w) in
  mkWorld (<[taskID := l]> (tasks w)) (defaultTTL w)
    (store w ++
       [mkTaskInfo taskID ("resume_" +:+ pretty (now 1%nat)) TaskStatusRunning
          None [] (now 2%nat) (now 3%nat) (now 4%nat + defaultTTL w)
          (Some c) {[sid := S c]} true])
    (chans w ++ [make_chan 100; make_chan 100; make_chan 100])
    (caller_done w)
    (actxs w ++ [mkAsync (if d <=? 0 then None else Some (now 5%nat + d)) None])
    (procs w ++
       [PRunner ctx a taskID (f taskID); PListen l a;
        PForwardStart ctx l sid (S c) (S (S c))])
    (received w).

(** The record a known task has after [CompleteTask]. *)
Definition completed (now : Z) (status : TaskStatus) t : TaskInfo payload :=
  set_Subscribers ∅
    (set_DataChannel None
       (set_CachedData [] (set_UpdatedAt now (set_Status status t)))).

(** A sequence of [CompleteTask] calls on one task id. *)
Definition complete_all (taskID : string)
    (calls : list (Z * ctxid * TaskStatus)) w : World payload :=
  foldl (λ w c, CompleteTask c.1.1 c.1.2 taskID c.2 w) w calls.

(** Goroutine [p] is the forwarder of one attachment. *)
Inductive forwarder (ctx : ctxid) (task : loc) (sid : string)
    (sub out : chanid) : Proc payload → Prop :=
| fw_start : forwarder ctx task sid sub out (PForwardStart ctx task sid sub out)
| fw_replay cd :
    forwarder ctx task sid sub out (PForwardReplay ctx task sid sub out cd)
| fw_loop : forwarder ctx task sid sub out (PForward ctx task sid sub out)
| fw_hold data :
    forwarder ctx task sid sub out (PForwardHold ctx task sid sub out data).

(** Removing one subscriber id from a record. *)
Definition unsubscribe (sid : string) t : TaskInfo payload :=
  set_Subscribers (delete sid (Subscribers t)) t.

(** The steps of goroutine [i] alone, one per entry of [picks]. *)
Definition proc_steps (now : Z) (i : nat) (picks : list bool)
    : list (Action payload) :=
  (λ pick, AProc now pick i) <$> picks.

(** The spec's invariant on one record. *)
Definition not_both t : Prop := CachedData t = [] ∨ Subscribers t = ∅.

(** A listener that holds an empty snapshot of [task]'s subscribers
    and has not yet appended. *)
Definition holds_empty_snapshot p (task : loc) : Prop :=
  ∃ actx data subs, p = PListenGot task actx data false subs.

(** The invariant of the manager: no record has both, and a listener's
    empty snapshot is still accurate. *)
Definition buffer_inv w : Prop :=
  (∀ l t, store w !! l = Some t → not_both t) ∧
  (∀ i p task, procs w !! i = Some p → holds_empty_snapshot p task →
     ∃ t, store w !! task = Some t ∧ Subscribers t = ∅).

(** [t'] has an empty buffer, resp. no subscribers, if [t] has. *)
Definition rec_le t t' : Prop :=
  (CachedData t = [] → CachedData t' = []) ∧
  (Subscribers t = ∅ → Subscribers t' = ∅).

Definition got_stable ps ps' : Prop :=
  ∀ i p task, ps' !! i = Some p → holds_empty_snapshot p task → ps !! i = Some p.

(** The two ways an [ExecuteWithSSE] call can leave a record with both
    a buffer and a subscriber: it returns the caller context's error out
    of the flush loop, or it attaches while the listener of that record
    stands between its snapshot and its append. *)
Definition attaches_cleanly (a : Action payload) w : Prop :=
  match a with
  | AExecute now pick ctx key sid f d =>
      (∀ e, (ExecuteWithSSE now pick ctx key sid f d w).2
            ≠ Returns (None, "", Some (ErrContext e))) ∧
      (∀ id l t i p, findTask w key = Some (id, l, t) →
                     procs w !! i = Some p → ¬ holds_empty_snapshot p l)
  | _ => True
  end.

Fixpoint runs_cleanly (acts : list (Action payload)) w : Prop :=
  match acts with
  | [] => True
  | a :: acts => attaches_cleanly a w ∧ runs_cleanly acts (step a w)
  end.

Definition push_all xs ch : Chan payload :=
  mkChan (buf ch ++ xs) (cap ch) (closed ch).

(** One live update: the call of [UpdateProgress] and the listener's
    receive, snapshot and dispatch. *)
Definition live_round (now : Z) (uctx : ctxid) (taskID : string) (j : nat)
    (y : payload) : list (Action payload) :=
  [AUpdate now false uctx taskID y;
   AProc now false j; AProc now false j; AProc now false j].

Definition live_rounds (now : Z) (uctx : ctxid) (taskID : string) (j : nat)
    ys : list (Action payload) :=
  ys ≫= live_round now uctx taskID j.

(** [n] rounds of: two steps of forwarder [i], one read of [out]. *)
Definition drain (now : Z) (i : nat) (out : chanid) (n : nat)
    : list (Action payload) :=
  mjoin (replicate n [AProc now false i; AProc now false i; ARead out]).

(** One attachment in the middle of a running task: the record has
    this subscriber only and an empty buffer, the raw queue is drained,
    the subscriber queue holds [q], nothing has been forwarded yet. *)
Definition attached w (taskID : string) (l : loc) (sid : string)
    (sub out dc : chanid) (j i actx : nat) (ctx : ctxid) q : Prop :=
  tasks w !! taskID = Some l ∧
  (∃ t, store w !! l = Some t ∧ Status t = TaskStatusRunning ∧
        DataChannel t = Some dc ∧ Subscribers t = {[sid := sub]} ∧
        CachedData t = []) ∧
  (∃ n, chans w !! dc = Some (mkChan [] n false) ∧ (0 < n)%nat) ∧
  chans w !! sub = Some (mkChan q 100 false) ∧
  chans w !! out = Some (mkChan [] 100 false) ∧
  procs w !! j = Some (PListen l actx) ∧
  procs w !! i = Some (PForwardStart ctx l sid sub out) ∧
  ctx_err w ctx = None ∧
  dc ≠ sub ∧ dc ≠ out ∧ sub ≠ out ∧ i ≠ j.

(** The forwarder in its live loop, with [rest] still queued for it
    and [d] already read by the caller. *)
Definition draining w (i : nat) (ctx : ctxid) (l : loc) (sid : string)
    (sub out : chanid) (rest d : list payload) : Prop :=
  procs w !! i = Some (PForward ctx l sid sub out) ∧
  chans w !! sub = Some (mkChan rest 100 false) ∧
  chans w !! out = Some (mkChan [] 100 false) ∧
  ctx_err w ctx = None ∧
  delivered w out = d ∧
  sub ≠ out.

(** The value a goroutine holds between its receive and the send that
    passes the value on. *)
Definition held p : list payload :=
  match p with
  | PListenRecv _ _ x => [x]
  | PListenGot _ _ x _ _ => [x]
  | PForwardHold _ _ _ _ _ x => [x]
  | _ => []
  end.

(** The payloads of the [UpdateProgress] calls of a run. *)
Definition sent (acts : list (Action payload)) : list payload :=
  acts ≫= λ a, match a with AUpdate _ _ _ _ y => [y] | _ => [] end.

(** What one attachment at work consists of: [UpdateProgress] calls for
    the task, steps of its listener [j], steps of the forwarder [i],
    and reads of the output channel. *)
Definition streams (taskID : string) (j i : nat) (out : chanid)
    (a : Action payload) : Prop :=
  match a with
  | AUpdate _ _ _ id _ => id = taskID
  | AProc _ _ k => k = j ∨ k = i
  | ARead c => c = out
  | _ => False
  end.

(** The listener of the record at [l] holds no snapshot of the
    subscribers: it is at the top of its loop, or has received a value
    and not yet taken the snapshot, or it is over. *)
Definition before_snapshot (l : loc) p : Prop :=
  match p with
  | PListen l' _ => l' = l
  | PListenRecv l' _ _ => l' = l
  | PDone => True
  | _ => False
  end.

(** ... or the snapshot it holds is the one subscriber [sid]. *)
Definition listening (l : loc) (sid : string) (sub : chanid) p : Prop :=
  match p with
  | PListenGot l' _ _ has subs => l' = l ∧ has = true ∧ subs = {[sid := sub]}
  | _ => before_snapshot l p
  end.

(** The forwarder of an attachment that found the buffer empty. *)
Definition forwarding (ctx : ctxid) (l : loc) (sid : string)
    (sub out : chanid) p : Prop :=
  p = PForwardStart ctx l sid sub out ∨
  p = PForwardReplay ctx l sid sub out [] ∨
  p = PForward ctx l sid sub out ∨
  ∃ x, p = PForwardHold ctx l sid sub out x.

(** How many of its own steps a forwarder needs at most before it is
    back at its receive. *)
Definition rank p : nat :=
  match p with
  | PForwardStart _ _ _ _ _ => 2
  | PForwardReplay _ _ _ _ _ _ => 1
  | PForwardHold _ _ _ _ _ _ => 2
  | _ => 0
  end.

(** One attachment at work on the record at [l]: the record has this
    subscriber only and an empty buffer; the subscriber queue holds
    [bs], the output channel [bo], both open; [chr] is the raw queue;
    [pf] is the forwarder and [pl] the listener; the caller's context
    is live. *)
Definition streaming (taskID : string) (l : loc) (sid : string)
    (sub out dc : chanid) (j i : nat) (ctx : ctxid) w
    (pf pl : Proc payload) (bs bo : list payload) (chr : Chan payload) : Prop :=
  tasks w !! taskID = Some l ∧
  (∃ t, store w !! l = Some t ∧ Subscribers t = {[sid := sub]} ∧
        CachedData t = [] ∧ DataChannel t = Some dc) ∧
  chans w !! sub = Some (mkChan bs 100 false) ∧
  chans w !! out = Some (mkChan bo 100 false) ∧
  chans w !! dc = Some chr ∧
  procs w !! i = Some pf ∧ forwarding ctx l sid sub out pf ∧
  procs w !! j = Some pl ∧ listening l sid sub pl ∧
  ctx_err w ctx = None ∧
  sub ≠ out ∧ dc ≠ sub ∧ dc ≠ out ∧ i ≠ j.

(** ... seen from outside: [pre] is what the caller has read followed
    by what is on its way to it behind the listener, [rest] is what is
    still before the listener. *)
Definition streamed (taskID : string) (l : loc) (sid : string)
    (sub out dc : chanid) (j i : nat) (ctx : ctxid) w
    (pre rest : list payload) : Prop :=
  ∃ pf pl bs bo chr,
    streaming taskID l sid sub out dc j i ctx w pf pl bs bo chr ∧
    pre = delivered w out ++ bo ++ held pf ++ bs ∧
    rest = held pl ++ buf chr.

(** The test of the ticker loop on the record at [l]. *)
Definition swept_at (now : Z) (st : list (TaskInfo payload)) (l : loc) : bool :=
  match st !! l with
  | Some t => (ExpiresAt t <? now) || bool_decide (Status t ≠ TaskStatusRunning)
  | None => false
  end.

(** [ch'] is [ch], possibly closed since. *)
Definition closes ch ch' : Prop :=
  buf ch' = buf ch ∧ cap ch' = cap ch ∧ (closed ch = true → closed ch' = true).

(** What [GetTaskInfo] copies out of a record. *)
Definition info_of t : TaskInfo payload :=
  mkTaskInfo (TaskID t) (ResumeKey t) (Status t) (Progress t) []
    (CreatedAt t) (UpdatedAt t) (ExpiresAt t) None ∅ false.

(** The fields of a record that are written when it is made. *)
Definition ident t : string * string * Z * Z :=
  (TaskID t, ResumeKey t, CreatedAt t, ExpiresAt t).

(** [w'] has the registry and the records of [w], with the same
    identity fields. *)
Definition same_records w w' : Prop :=
  tasks w' = tasks w ∧ ident <$> store w' = ident <$> store w.

(** Every registry entry points to the record that carries its key as
    task id. *)
Definition keyed w : Prop :=
  ∀ id l, tasks w !! id = Some l → TaskID <$> store w !! l = Some id.

(** A channel as [ExecuteWithSSE] makes them, holding no more than its
    capacity. *)
Definition chan_ok ch : Prop :=
  (length (buf ch) ≤ cap ch)%nat ∧ cap ch = 100%nat.

Definition chans_ok w : Prop := Forall chan_ok (chans w).

End Notions.

(** * Concrete runs

    One manager, one task [task_1000] with resume key [resume_1001],
    a first client [client_001] and a second client [client_002]. *)

(** The clock of the creating call. *)
Definition clock (k : nat) : Z := 1000 + Z.of_nat k.

(** Every [select] takes its channel case. *)
Definition no_pick : nat → bool := λ _, false.

Definition second : Z := 1000000000.

(** [NewSSEManager(1 * time.Hour)] *)
Definition fresh_manager : World nat := NewSSEManager hour.

(** A work function that panics at once. *)
Definition panicking_work : string → Work nat := λ _, WPanic.

(** The call that creates its task. *)
Definition panic_start :=
  ExecuteWithSSE clock no_pick (CallerCtx 0) "" "client_001" panicking_work
    (10 * second) fresh_manager.

(** The runner, the listener and the forwarder, as far as they go. *)
Definition panic_run : World nat :=
  run [AProc 2000 false 0; AProc 2000 false 1;
       AProc 2000 false 2; AProc 2000 false 2] panic_start.1.

(** Every [select] takes its [Done] case. *)
Definition always_pick : nat → bool := λ _, true.

(** The clock of a later call, before the record expires. *)
Definition clock2 (k : nat) : Z := 5000 + Z.of_nat k.

(** A work function that is waiting on its context. *)
Definition idle_work : string → Work nat := λ _, WPoll (λ _, WReturn None).

(** The call that creates [task_1000]. *)
Definition start_idle : list (Action nat) :=
  [AExecute clock no_pick (CallerCtx 0) "" "client_001" idle_work (10 * second)].

(** The manager with one running task and its first client attached. *)
Definition w_created : World nat := run start_idle fresh_manager.

(** The first client disconnects and its forwarder leaves. *)
Definition detach_first : list (Action nat) :=
  [ACancel 0; AProc 2000 true 2; AProc 2000 true 2; AProc 2000 true 2].

(** ... and then the updates [ys] arrive, with nobody attached. *)
Definition w_backlog (ys : list nat) : World nat :=
  run (start_idle ++ detach_first
       ++ live_rounds 2000 (AsyncCtx 0) "task_1000" 1 ys) fresh_manager.

(** ... and a second client whose context is already done resumes. *)
Definition failed_resume : list (Action nat) :=
  start_idle ++ detach_first
  ++ live_rounds 2000 (AsyncCtx 0) "task_1000" 1 [5%nat]
  ++ [ACancel 1;
      AExecute clock2 always_pick (CallerCtx 1) "resume_1001" "client_002"
        idle_work 0].

(** ... or a second client attaches while the listener holds its
    empty snapshot of the subscribers. *)
Definition snapshot_race : list (Action nat) :=
  start_idle ++ detach_first
  ++ [AUpdate 2000 false (AsyncCtx 0) "task_1000" 5%nat;
      AProc 2000 false 1; AProc 2000 false 1;
      AExecute clock2 no_pick (CallerCtx 1) "resume_1001" "client_002"
        idle_work 0;
      AProc 2000 false 1].

(** A run in which a second client resumes under a live context. *)
Definition clean_resume : list (Action nat) :=
  [AExecute clock no_pick (CallerCtx 0) "" "client_001" idle_work (10 * second);
   ACancel 0; AProc 2000 true 2; AProc 2000 true 2; AProc 2000 true 2;
   AUpdate 2000 false (AsyncCtx 0) "task_1000" 5%nat;
   AProc 2000 false 1; AProc 2000 false 1; AProc 2000 false 1;
   AExecute clock2 no_pick (CallerCtx 1) "resume_1001" "client_002" idle_work 0].

(** The clock of a call after the record has expired. *)
Definition clock_late (k : nat) : Z := 4000000000000 + Z.of_nat k.

(** The record of [task_1000] right after its creation. *)
Definition created_record : TaskInfo nat :=
  mkTaskInfo "task_1000" "resume_1001" TaskStatusRunning None []
    1002 1003 3600000001004 (Some 0%nat) {["client_001" := 1%nat]} true.

(** ... and after the first client left and [ys] were buffered. *)
Definition backlog_record (ys : list nat) : TaskInfo nat :=
  mkTaskInfo "task_1000" "resume_1001" TaskStatusRunning (last ys) ys
    1002 2000 3600000001004 (Some 0%nat) ∅ true.

(** The first update has been received by the listener, which holds
    its snapshot of the subscribers. *)
Definition w_snapshot : World nat :=
  run (start_idle
       ++ [AUpdate 2000 false (AsyncCtx 0) "task_1000" 5%nat;
           AProc 2000 false 1; AProc 2000 false 1]) fresh_manager.

(** ... and the first client has left since. *)
Definition w_snapshot_stale : World nat := run detach_first w_snapshot.

(** One payload is buffered and the listener has received a second
    one: it holds its empty snapshot of the subscribers and has not yet
    appended. *)
Definition w_stale_backlog : World nat :=
  run (start_idle ++ detach_first
       ++ live_rounds 2000 (AsyncCtx 0) "task_1000" 1 [5%nat]
       ++ [AUpdate 2000 false (AsyncCtx 0) "task_1000" 6%nat;
           AProc 2000 false 1; AProc 2000 false 1]) fresh_manager.

(** After a resume: an update is sent while the new forwarder starts,
    the listener passes it on, and the caller reads once. *)
Definition interleaved_update : list (Action nat) :=
  [AProc 3000 false 3;
   AUpdate 3000 false (AsyncCtx 0) "task_1000" 7%nat;
   AProc 3000 false 1; AProc 3000 false 3; AProc 3000 false 1;
   AProc 3000 false 3; AProc 3000 false 1; AProc 3000 false 3; ARead 4].

(** The task is created and 101 updates are sent that no goroutine
    receives. *)
Definition flood : list (Action nat) :=
  start_idle
  ++ ((λ y, AUpdate 2000 false (AsyncCtx 0) "task_1000" y) <$> seq 1 101).

(** The forwarder of the first client has reached its live loop. *)
Definition w_forwarding : World nat :=
  run (start_idle ++ [AProc 2000 false 2; AProc 2000 false 2]) fresh_manager.


(** A work function that reports one payload, gives up with the error
    of [updateProgress] if there is one, and waits on its context
    otherwise. *)
Definition reporting_work : string → Work nat :=
  λ _, WUpdate 5%nat
         (λ e, match e with
               | Some err => WReturn (Some err)
               | None => WPoll (λ _, WReturn None)
               end).

(** The call that creates [task_1000] with that work function. *)
Definition start_reporting : list (Action nat) :=
  [AExecute clock no_pick (CallerCtx 0) "" "client_001" reporting_work
     (10 * second)].

(** The work function reports while its creating caller is attached. *)
Definition undisturbed_report : World nat :=
  run (start_reporting ++ [AProc 2000 true 0; AProc 2000 true 0])
    fresh_manager.

(** The creating caller disconnects first; the [select] of
    [UpdateProgress] takes the [ctx.Done()] case. *)
Definition cancelled_report : World nat :=
  run (start_reporting ++ [ACancel 0; AProc 2000 true 0; AProc 2000 true 0])
    fresh_manager.

(** A second client attaches under the subscriber id of the first,
    and then the first client disconnects and its forwarder leaves. *)
Definition shared_id_teardown : World nat :=
  run (start_idle
       ++ [AExecute clock2 no_pick (CallerCtx 1) "resume_1001" "client_001"
             idle_work 0;
           ACancel 0; AProc 2000 true 2; AProc 2000 true 2; AProc 2000 true 2])
    fresh_manager.

(** * Properties *)

Section Properties.

Context {payload : Type}.
Implicit Types (w : World payload) (t : TaskInfo payload) (ch : Chan payload).

(** ** Basic facts about the store and the channel heap *)

Lemma lookup_task_Some w taskID l t :
  lookup_task w taskID = Some (l, t) ↔
  tasks w !! taskID = Some l ∧ store w !! l = Some t.
Proof.
  unfold lookup_task. split.
  - intros H. destruct (tasks w !! taskID) as [l'|]; simpl in H; [|done].
    destruct (store w !! l') as [t'|] eqn:Ht; simpl in H; [|done].
    by simplify_eq.
  - intros [-> H]. simpl. by rewrite H.
Qed.


Lemma store_upd_task_eq w l f t :
  store w !! l = Some t → store (upd_task l f w) !! l = Some (f t).
Proof. intros H. simpl. by rewrite list_lookup_alter_eq, H. Qed.

Lemma store_upd_task_ne w l l' f :
  l ≠ l' → store (upd_task l f w) !! l' = store w !! l'.
Proof. intros H. simpl. by rewrite list_lookup_alter_ne. Qed.

Lemma chans_upd_chan_eq w c f ch :
  chans w !! c = Some ch → chans (upd_chan c f w) !! c = Some (f ch).
Proof. intros H. simpl. by rewrite list_lookup_alter_eq, H. Qed.

Lemma chans_upd_chan_ne w c c' f :
  c ≠ c' → chans (upd_chan c f w) !! c' = chans w !! c'.
Proof. intros H. simpl. by rewrite list_lookup_alter_ne. Qed.


Lemma ctx_err_upd_chan w k f c : ctx_err (upd_chan k f w) c = ctx_err w c.
Proof. by destruct c. Qed.

Lemma send_status_upd_task w l f c :
  send_status (upd_task l f w) c = send_status w c.
Proof. done. Qed.

Lemma send_status_Some w c ch :
  chans w !! c = Some ch →
  send_status w (Some c) =
    if closed ch then SendPanics
    else if bool_decide (length (buf ch) < cap ch)%nat then SendReady
    else SendBlocked.
Proof. intros H. unfold send_status. by rewrite H. Qed.

(** With [pick = true] a done context always wins the [select]. *)
Lemma select_send_done st e : select_send true st (Some e) = SelDone e.
Proof. by destruct st. Qed.

Lemma select_send_live pick st :
  select_send pick st None =
  match st with SendReady => SelSend | SendPanics => SelPanic | SendBlocked => SelNone end.
Proof. by destruct st. Qed.

(** ** UpdateProgress *)



(** ** The lookup by resume key *)

Lemma scan_Some st key es id l t :
  scan st key es = Some (id, l, t) →
  (id, l) ∈ es ∧ st !! l = Some t ∧ ResumeKey t = key.
Proof.
  induction es as [|[id' l'] es IH]; simpl; [done|].
  destruct (st !! l') as [t'|] eqn:Ht'.
  - case_bool_decide as Hk.
    + intros [= -> -> ->]. split_and!; [left|done..].
    + intros H. destruct (IH H) as (? & ? & ?). split_and!; [by right|done..].
  - intros H. destruct (IH H) as (? & ? & ?). split_and!; [by right|done..].
Qed.

Lemma scan_None st key es :
  scan st key es = None →
  ∀ id l t, (id, l) ∈ es → st !! l = Some t → ResumeKey t ≠ key.
Proof.
  induction es as [|[id' l'] es IH]; simpl; intros H id l t Hin Ht.
  - by apply elem_of_nil in Hin.
  - apply elem_of_cons in Hin as [[= -> ->]|Hin].
    + rewrite Ht in H. by case_bool_decide.
    + destruct (st !! l'); [case_bool_decide; [done|]|]; by eapply IH.
Qed.

Lemma findTask_Some w key id l t :
  findTask w key = Some (id, l, t) →
  key ≠ "" ∧ tasks w !! id = Some l ∧ store w !! l = Some t ∧ ResumeKey t = key.
Proof.
  unfold findTask. case_bool_decide; [|done].
  intros Hs. apply scan_Some in Hs as (Hin & ? & ?).
  by apply elem_of_map_to_list in Hin.
Qed.

Lemma findTask_None w key :
  findTask w key = None →
  key = "" ∨
  ∀ id l t, tasks w !! id = Some l → store w !! l = Some t → ResumeKey t ≠ key.
Proof.
  unfold findTask. case_bool_decide as Hk.
  - intros Hs. right. intros id l t Hl. eapply scan_None; [done|].
    by apply elem_of_map_to_list.
  - intros _. left. by destruct (decide (key = "")).
Qed.

(** A key that no record carries is not found, whatever the order. *)
Lemma findTask_unmatched w key :
  (∀ id l t, tasks w !! id = Some l → store w !! l = Some t → ResumeKey t ≠ key) →
  findTask w key = None.
Proof.
  intros H. destruct (findTask w key) as [[[id l] t]|] eqn:Hf; [|done].
  apply findTask_Some in Hf as (_ & Hl & Ht & Hk). by destruct (H id l t).
Qed.

(** A non-empty key that some record carries is found. *)
Lemma findTask_matched w key id l t :
  key ≠ "" → tasks w !! id = Some l → store w !! l = Some t →
  ResumeKey t = key →
  ∃ id' l' t', findTask w key = Some (id', l', t').
Proof.
  intros Hk Hl Ht Hr. destruct (findTask w key) as [[[id' l'] t']|] eqn:Hf; [eauto|].
  apply findTask_None in Hf as [?|Hf]; [done|]. by destruct (Hf id l t).
Qed.

(** ** ExecuteWithSSE: the resume checks *)

(** C6. A call whose non-empty resume key matches records of the
    registry, each of them past its [ExpiresAt], returns
    [ErrTaskExpired] and leaves the manager as it was: no sweep is
    needed, and the status of the record plays no part. *)
Theorem C6_expiry_hard_cutoff now pick ctx key sid f d w :
  key ≠ "" →
  (∃ id l t, tasks w !! id = Some l ∧ store w !! l = Some t ∧ ResumeKey t = key) →
  (∀ id l t, tasks w !! id = Some l → store w !! l = Some t →
             ResumeKey t = key → ExpiresAt t < now 0%nat) →
  ExecuteWithSSE now pick ctx key sid f d w
  = (w, Returns (None, "", Some ErrTaskExpired)).
Proof.
  intros Hk (id & l & t & Hl & Ht & Hr) Hexp.
  destruct (findTask_matched w key id l t) as (id' & l' & t' & Hf); [done..|].
  unfold ExecuteWithSSE. rewrite Hf.
  apply findTask_Some in Hf as (_ & Hl' & Ht' & Hr').
  specialize (Hexp _ _ _ Hl' Ht' Hr').
  by rewrite (proj2 (Z.ltb_lt _ _) Hexp).
Qed.

Lemma alter_snoc {A} (f : A → A) (l : list A) (x : A) :
  alter f (length l) (l ++ [x]) = l ++ [f x].
Proof.
  replace (length l) with (length l + 0)%nat by lia.
  by rewrite alter_app_r.
Qed.

Lemma lookup_snoc {A} (l : list A) (x : A) : (l ++ [x]) !! length l = Some x.
Proof. by rewrite lookup_app_r, Nat.sub_diag by lia. Qed.

Lemma ExecuteWithSSE_new now pick ctx key sid f d w :
  findTask w key = None →
  ExecuteWithSSE now pick ctx key sid f d w
  = (created now ctx sid f d w,
     Returns (Some (S (S (length (chans w)))), "task_" +:+ pretty (now 0%nat), None)).
Proof.
  intros Hf. unfold ExecuteWithSSE. rewrite Hf.
  unfold new_task, attach, start_task, new_chan, new_actx, Go, upd_task,
    created. simpl.
  rewrite !alter_snoc. simpl. rewrite lookup_snoc. simpl.
  rewrite !length_app. simpl. rewrite !Nat.add_1_r.
  rewrite lookup_snoc. simpl. rewrite alter_snoc. simpl.
  rewrite insert_empty, <- !app_assoc. done.
Qed.


(** C2 as amended. For a non-empty resume key: the record found, if
    expired, gives [ErrTaskExpired]; if not expired and not running,
    [ErrTaskNotRunning]; both leave the manager unchanged. A key that
    no record of the registry carries gives no error: a new record is
    made whose task id and resume key are built from the clock readings
    of the call ([task_<now 0>], [resume_<now 1>]), it is registered as
    running under that id, in place of the entry the registry may
    already have for that id, and its runner, listener and forwarder
    are started. *)
Theorem C2_resume_key_outcomes now pick ctx key sid f d w :
  key ≠ "" →
  let r := ExecuteWithSSE now pick ctx key sid f d w in
  (∀ id l t, findTask w key = Some (id, l, t) → ExpiresAt t < now 0%nat →
     r = (w, Returns (None, "", Some ErrTaskExpired))) ∧
  (∀ id l t, findTask w key = Some (id, l, t) → ¬ ExpiresAt t < now 0%nat →
     Status t ≠ TaskStatusRunning →
     r = (w, Returns (None, "", Some ErrTaskNotRunning))) ∧
  ((∀ id l t, tasks w !! id = Some l → store w !! l = Some t → ResumeKey t ≠ key) →
     r = (created now ctx sid f d w,
          Returns (Some (S (S (length (chans w)))),
                   "task_" +:+ pretty (now 0%nat), None)) ∧
     tasks r.1 = <["task_" +:+ pretty (now 0%nat) := length (store w)]> (tasks w) ∧
     store r.1
     = store w ++
       [mkTaskInfo ("task_" +:+ pretty (now 0%nat))
          ("resume_" +:+ pretty (now 1%nat)) TaskStatusRunning None []
          (now 2%nat) (now 3%nat) (now 4%nat + defaultTTL w)
          (Some (length (chans w))) {[sid := S (length (chans w))]} true] ∧
     GetTaskInfo ("task_" +:+ pretty (now 0%nat)) r.1
     = inl (mkTaskInfo ("task_" +:+ pretty (now 0%nat))
              ("resume_" +:+ pretty (now 1%nat)) TaskStatusRunning None []
              (now 2%nat) (now 3%nat) (now 4%nat + defaultTTL w) None ∅ false)).
Proof.
  intros Hk r. subst r. split_and!.
  - intros id l t Hf Hexp. unfold ExecuteWithSSE. rewrite Hf.
    by rewrite (proj2 (Z.ltb_lt _ _) Hexp).
  - intros id l t Hf Hexp Hst. unfold ExecuteWithSSE. rewrite Hf.
    rewrite (proj2 (Z.ltb_ge _ _)) by lia.
    by rewrite bool_decide_eq_true_2.
  - intros Hno. rewrite ExecuteWithSSE_new by by apply findTask_unmatched.
    split_and!; [done..|]. unfold GetTaskInfo, lookup_task, created. simpl.
    rewrite lookup_insert_eq. simpl. by rewrite lookup_snoc.
Qed.

(** ** CompleteTask *)

(** [close_all] touches the channel heap only. *)
Lemma close_all_chans_only subs w :
  close_all subs w = set_chans (chans (close_all subs w)) w.
Proof.
  unfold close_all.
  apply (map_fold_weak_ind (λ r _, r = set_chans (chans r) w)).
  - by destruct w.
  - intros i x m r _ ->. done.
Qed.

Lemma close_all_store subs w : store (close_all subs w) = store w.
Proof. by rewrite close_all_chans_only. Qed.

Lemma close_all_tasks subs w : tasks (close_all subs w) = tasks w.
Proof. by rewrite close_all_chans_only. Qed.

Lemma close_all_procs subs w : procs (close_all subs w) = procs w.
Proof. by rewrite close_all_chans_only. Qed.


Lemma close_all_caller_done subs w :
  caller_done (close_all subs w) = caller_done w.
Proof. by rewrite close_all_chans_only. Qed.

Lemma close_all_received subs w : received (close_all subs w) = received w.
Proof. by rewrite close_all_chans_only. Qed.

Lemma CompleteTask_tasks now ctx taskID status w :
  tasks (CompleteTask now ctx taskID status w) = tasks w.
Proof.
  unfold CompleteTask. destruct (lookup_task w taskID) as [[l t]|]; [|done].
  rewrite close_all_tasks. by destruct (DataChannel t).
Qed.

Lemma CompleteTask_store now ctx taskID status w l t :
  tasks w !! taskID = Some l → store w !! l = Some t →
  store (CompleteTask now ctx taskID status w)
  = <[l := completed now status t]> (store w).
Proof.
  intros Hl Ht. unfold CompleteTask.
  rewrite (proj2 (lookup_task_Some w taskID l t)) by done.
  rewrite close_all_store.
  apply list_eq. intros k. destruct (decide (k = l)) as [->|Hne].
  - rewrite list_lookup_insert_eq by by eapply lookup_lt_Some.
    destruct (DataChannel t) eqn:Hdc; simpl;
      rewrite !list_lookup_alter_eq, Ht; simpl;
      unfold completed, set_Subscribers, set_DataChannel; simpl;
      by rewrite ?Hdc.
  - rewrite list_lookup_insert_ne by done.
    destruct (DataChannel t); simpl; by rewrite !list_lookup_alter_ne.
Qed.

Lemma CompleteTask_unknown now ctx taskID status w :
  tasks w !! taskID = None → CompleteTask now ctx taskID status w = w.
Proof. intros H. unfold CompleteTask, lookup_task. by rewrite H. Qed.

(** C3 as amended. [CompleteTask] writes the status it is given
    whatever the status was: after any sequence of calls on a known
    task that ends with a call for [status], the record's status is
    [status], also when an earlier call had already made it terminal;
    the registry keeps the record. *)
Theorem C3_CompleteTask_last_call_wins taskID calls now ctx status w l t :
  tasks w !! taskID = Some l →
  store w !! l = Some t →
  let w' := complete_all taskID (calls ++ [(now, ctx, status)]) w in
  tasks w' !! taskID = Some l ∧
  (∃ t', store w' !! l = Some t' ∧ Status t' = status ∧ UpdatedAt t' = now ∧
         CachedData t' = [] ∧ DataChannel t' = None ∧ Subscribers t' = ∅) ∧
  (∃ info, GetTaskInfo taskID w' = inl info ∧ Status info = status).
Proof.
  intros Hl Ht. simpl. unfold complete_all. rewrite foldl_app. simpl.
  set (w1 := foldl _ w calls).
  assert (tasks w1 !! taskID = Some l ∧ ∃ t1, store w1 !! l = Some t1)
    as [Hl1 [t1 Ht1]].
  { subst w1. revert w t Hl Ht.
    induction calls as [|[[n c] s] calls IH]; intros w t Hl Ht; simpl; [eauto|].
    eapply IH.
    - by rewrite CompleteTask_tasks.
    - erewrite CompleteTask_store by done.
      apply list_lookup_insert_eq. by eapply lookup_lt_Some. }
  assert (store (CompleteTask now ctx taskID status w1) !! l
          = Some (completed now status t1)) as Ht'.
  { erewrite CompleteTask_store by done.
    apply list_lookup_insert_eq. by eapply lookup_lt_Some. }
  split_and!.
  - by rewrite CompleteTask_tasks.
  - eexists. split; [exact Ht'|done].
  - unfold GetTaskInfo.
    rewrite (proj2 (lookup_task_Some _ taskID l (completed now status t1)))
      by (by rewrite CompleteTask_tasks).
    eexists. split; [done|done].
Qed.

(** ** The forwarder and the caller's context *)

Lemma forward_exit_store i task sid sub out w :
  store (forward_exit i task sid sub out w)
  = alter (unsubscribe sid) task (store w).
Proof.
  unfold forward_exit. simpl.
  destruct (store w !! task) as [t|] eqn:Ht.
  - destruct (Subscribers t !! sid) eqn:Hs; simpl; [done|].
    apply list_eq. intros k. destruct (decide (k = task)) as [->|].
    + rewrite list_lookup_alter_eq, Ht. simpl. f_equal.
      unfold unsubscribe. rewrite delete_id by done. by destruct t.
    + by rewrite list_lookup_alter_ne.
  - simpl. apply list_eq. intros k. destruct (decide (k = task)) as [->|].
    + by rewrite list_lookup_alter_eq, Ht.
    + by rewrite list_lookup_alter_ne.
Qed.

Lemma forward_exit_frame i task sid sub out w :
  let w' := forward_exit i task sid sub out w in
  tasks w' = tasks w ∧ actxs w' = actxs w ∧ caller_done w' = caller_done w ∧
  received w' = received w ∧ procs w' = <[i := PDone]> (procs w).
Proof.
  unfold forward_exit. simpl.
  destruct (store w !! task) as [t|]; [destruct (Subscribers t !! sid)|]; done.
Qed.

Lemma forward_exit_out_closed i task sid sub out w :
  is_Some (chans w !! out) →
  closed <$> chans (forward_exit i task sid sub out w) !! out = Some true.
Proof.
  intros [ch Hch]. unfold forward_exit. simpl.
  rewrite list_lookup_alter_eq.
  destruct (store w !! task) as [t|]; [destruct (Subscribers t !! sid)|]; simpl.
  - destruct (decide (sub = out)) as [->|].
    + by rewrite list_lookup_alter_eq, Hch.
    + by rewrite list_lookup_alter_ne, Hch.
  - by rewrite Hch.
  - by rewrite Hch.
Qed.

(** One step of a forwarder: it stays a forwarder of the same
    attachment or is done; the records change at most by the removal
    of its subscriber id; nothing else of the manager moves but the
    two channels. *)
Lemma forwarder_step now pick i ctx task sid sub out p w w' :
  procs w !! i = Some p →
  forwarder ctx task sid sub out p →
  step_proc now pick i w = Some w' →
  tasks w' = tasks w ∧ actxs w' = actxs w ∧ caller_done w' = caller_done w ∧
  (store w' = store w ∨ store w' = alter (unsubscribe sid) task (store w)) ∧
  (∃ p', procs w' = <[i := p']> (procs w) ∧
         (forwarder ctx task sid sub out p' ∨ p' = PDone)).
Proof.
  intros Hp Hfw. unfold step_proc. rewrite Hp. simpl.
  pose proof (forward_exit_frame i task sid sub out w) as (E1 & E2 & E3 & _ & E5).
  pose proof (forward_exit_store i task sid sub out w) as E4.
  destruct Hfw as [|cd| |data].
  - destruct (store w !! task) as [t|]; simpl; [|done].
    intros [= <-]. simpl. split_and!; eauto using forwarder.
  - destruct cd as [|x cd].
    + intros [= <-]. simpl. split_and!; eauto using forwarder.
    + unfold forward_send. destruct (select_send _ _ _); intros [= <-];
        simpl; split_and!; eauto using forwarder.
  - destruct (select_recv _ _ _); intros [= <-];
      simpl; split_and!; eauto using forwarder.
  - unfold forward_send. destruct (select_send _ _ _); intros [= <-];
      simpl; split_and!; eauto using forwarder.
Qed.

Lemma lookup_task_unsubscribe sid task taskID w :
  (prod_map id (λ t : TaskInfo payload,
      (TaskID t, ResumeKey t, Status t, Progress t,
       CreatedAt t, UpdatedAt t, ExpiresAt t)))
    <$> lookup_task (set_store (alter (unsubscribe sid) task (store w)) w) taskID
  = (prod_map id (λ t : TaskInfo payload,
      (TaskID t, ResumeKey t, Status t, Progress t,
       CreatedAt t, UpdatedAt t, ExpiresAt t)))
    <$> lookup_task w taskID.
Proof.
  unfold lookup_task. simpl.
  destruct (tasks w !! taskID) as [l|]; simpl; [|done].
  destruct (decide (l = task)) as [->|].
  - rewrite list_lookup_alter_eq. by destruct (store w !! task).
  - by rewrite list_lookup_alter_ne.
Qed.

(** [GetTaskInfo] does not see subscriber changes. *)
Lemma GetTaskInfo_frame sid task taskID w w' :
  tasks w' = tasks w →
  (store w' = store w ∨ store w' = alter (unsubscribe sid) task (store w)) →
  GetTaskInfo taskID w' = GetTaskInfo taskID w.
Proof.
  intros Ht Hs.
  assert (lookup_task w' taskID = lookup_task w taskID
          ∨ lookup_task w' taskID
            = lookup_task (set_store (alter (unsubscribe sid) task (store w)) w) taskID)
    as [E|E].
  { unfold lookup_task. simpl. rewrite Ht. destruct Hs as [->| ->]; eauto. }
  - unfold GetTaskInfo. by rewrite E.
  - pose proof (lookup_task_unsubscribe sid task taskID w) as Hu.
    unfold GetTaskInfo. rewrite E.
    destruct (lookup_task (set_store _ w) taskID) as [[l1 t1]|],
      (lookup_task w taskID) as [[l2 t2]|]; simpl in Hu; try done.
    injection Hu as _ H1 H2 H3 H4 H5 H6 H7. congruence.
Qed.

Lemma select_recv_done st e : select_recv (payload:=payload) true st (Some e) = RSelDone.
Proof. by destruct st. Qed.

Lemma ctx_err_set_proc i p w c : ctx_err (set_proc i p w) c = ctx_err w c.
Proof. by destruct c. Qed.

Lemma ctx_err_cancel_caller n w :
  ∃ e, ctx_err (cancel_caller n w) (CallerCtx n) = Some e.
Proof.
  unfold cancel_caller. destruct (caller_done w !! n) as [e|] eqn:H; simpl.
  - eauto.
  - exists Canceled. simpl. by rewrite lookup_insert_eq.
Qed.

Lemma unsubscribe_idemp sid task (st : list (TaskInfo payload)) :
  alter (unsubscribe sid) task (alter (unsubscribe sid) task st)
  = alter (unsubscribe sid) task st.
Proof.
  rewrite list_alter_alter_eq. apply list_alter_ext; [|done].
  intros t _. unfold unsubscribe. simpl. by rewrite delete_delete_eq.
Qed.

Lemma run_cons (a : Action payload) acts w : run (a :: acts) w = run acts (step a w).
Proof. done. Qed.

Lemma run_app (acts1 acts2 : list (Action payload)) w :
  run (acts1 ++ acts2) w = run acts2 (run acts1 w).
Proof. unfold run. by rewrite foldl_app. Qed.

(** Any number of steps of one forwarder: the registry, the async
    contexts, the other goroutines and what [GetTaskInfo] reports stay
    as they are; the records change at most by the removal of its
    subscriber id. *)
Lemma forwarder_steps_frame now i ctx task sid sub out picks w0 w p :
  procs w !! i = Some p →
  (forwarder ctx task sid sub out p ∨ p = PDone) →
  tasks w = tasks w0 → actxs w = actxs w0 →
  (store w = store w0 ∨ store w = alter (unsubscribe sid) task (store w0)) →
  (∀ j, j ≠ i → procs w !! j = procs w0 !! j) →
  let w2 := run (proc_steps now i picks) w in
  tasks w2 = tasks w0 ∧ actxs w2 = actxs w0 ∧
  (store w2 = store w0 ∨ store w2 = alter (unsubscribe sid) task (store w0)) ∧
  (∀ j, j ≠ i → procs w2 !! j = procs w0 !! j).
Proof.
  revert w p. induction picks as [|pick picks IH]; intros w p Hp Hfw Ht Ha Hs Hj.
  { simpl. done. }
  cbn [proc_steps fmap list_fmap]. rewrite run_cons. cbn [step].
  destruct (step_proc now pick i w) as [w'|] eqn:Hstep; cbn [default].
  2:{ by eapply IH. }
  destruct Hfw as [Hfw| ->].
  2:{ unfold step_proc in Hstep. by rewrite Hp in Hstep. }
  destruct (forwarder_step _ _ _ _ _ _ _ _ _ _ _ Hp Hfw Hstep)
    as (Et & Ea & _ & Es & p' & Ep & Hp').
  eapply (IH w' p').
  - rewrite Ep. apply list_lookup_insert_eq. by eapply lookup_lt_Some.
  - done.
  - congruence.
  - congruence.
  - destruct Es as [->| ->]; [done|]. right.
    destruct Hs as [->| ->]; [done|]. apply unsubscribe_idemp.
  - intros j Hne. rewrite Ep, list_lookup_insert_ne by done. by apply Hj.
Qed.

Lemma step_proc_exit now i ctx task sid sub out p w e :
  procs w !! i = Some p →
  ctx_err w ctx = Some e →
  p = PForward ctx task sid sub out ∨
  (∃ data, p = PForwardHold ctx task sid sub out data) ∨
  (∃ x cd, p = PForwardReplay ctx task sid sub out (x :: cd)) →
  step_proc now true i w = Some (forward_exit i task sid sub out w).
Proof.
  intros Hp Hctx Hcase. unfold step_proc. rewrite Hp. simpl.
  destruct Hcase as [->|[[data ->]|(x & cd & ->)]]; unfold forward_send;
    by rewrite Hctx, ?select_send_done, ?select_recv_done.
Qed.

Lemma forward_exit_result i task sid sub out p w :
  procs w !! i = Some p →
  is_Some (chans w !! out) →
  is_Some (store w !! task) →
  let w' := forward_exit i task sid sub out w in
  procs w' !! i = Some PDone ∧
  closed <$> chans w' !! out = Some true ∧
  ∃ t', store w' !! task = Some t' ∧ Subscribers t' !! sid = None.
Proof.
  intros Hp Hout [t Ht] w'. subst w'. split_and!.
  - destruct (forward_exit_frame i task sid sub out w) as (_ & _ & _ & _ & ->).
    apply list_lookup_insert_eq. by eapply lookup_lt_Some.
  - by apply forward_exit_out_closed.
  - rewrite forward_exit_store, list_lookup_alter_eq, Ht. simpl.
    eexists. split; [done|]. simpl. apply lookup_delete_eq.
Qed.

Lemma step_done now pick i w :
  procs w !! i = Some PDone → step (AProc now pick i) w = w.
Proof. intros H. simpl. unfold step_proc. by rewrite H. Qed.

Lemma step_forward_start now pick i ctx task sid sub out w t :
  procs w !! i = Some (PForwardStart ctx task sid sub out) →
  store w !! task = Some t →
  step (AProc now pick i) w
  = set_proc i (PForwardReplay ctx task sid sub out (CachedData t)) w.
Proof. intros Hp Ht. simpl. unfold step_proc. rewrite Hp. simpl. by rewrite Ht. Qed.

Lemma step_forward_replay_nil now pick i ctx task sid sub out w :
  procs w !! i = Some (PForwardReplay ctx task sid sub out []) →
  step (AProc now pick i) w = set_proc i (PForward ctx task sid sub out) w.
Proof. intros Hp. simpl. unfold step_proc. by rewrite Hp. Qed.

(** A forwarder whose context is done is gone after at most three of
    its steps that take the [Done] branch. *)
Lemma forwarder_exits now i ctx task sid sub out p w e :
  procs w !! i = Some p →
  forwarder ctx task sid sub out p →
  ctx_err w ctx = Some e →
  is_Some (chans w !! out) →
  is_Some (store w !! task) →
  let w' := run (proc_steps now i [true; true; true]) w in
  procs w' !! i = Some PDone ∧
  closed <$> chans w' !! out = Some true ∧
  ∃ t', store w' !! task = Some t' ∧ Subscribers t' !! sid = None.
Proof.
  intros Hp Hfw Hctx Hout Hst.
  assert (i < length (procs w))%nat as Hi by by eapply lookup_lt_Some.
  assert (∀ q w1, procs w1 !! i = Some q →
            ctx_err w1 ctx = Some e →
            is_Some (chans w1 !! out) → is_Some (store w1 !! task) →
            q = PForward ctx task sid sub out ∨
            (∃ data, q = PForwardHold ctx task sid sub out data) ∨
            (∃ x cd, q = PForwardReplay ctx task sid sub out (x :: cd)) →
            ∀ picks,
            procs (run (AProc now true i :: proc_steps now i picks) w1) !! i
              = Some PDone ∧
            closed <$> chans (run (AProc now true i :: proc_steps now i picks) w1) !! out
              = Some true ∧
            ∃ t', store (run (AProc now true i :: proc_steps now i picks) w1) !! task
                    = Some t' ∧ Subscribers t' !! sid = None)
    as Hexit.
  { intros q w1 Hq Hc1 Ho1 Hs1 Hcase picks.
    rewrite run_cons. cbn [step].
    rewrite (step_proc_exit _ _ _ _ _ _ _ _ _ _ Hq Hc1 Hcase). cbn [default].
    destruct (forward_exit_result i task sid sub out q w1 Hq Ho1 Hs1)
      as (Hd & Hcl & Hsub).
    induction picks as [|pk picks IH]; [done|].
    cbn [proc_steps fmap list_fmap]. rewrite run_cons, step_done by done. apply IH. }
  assert (∀ c w1 q, ctx_err w1 c = Some e → ctx_err (set_proc i q w1) c = Some e)
    as Hc' by (intros c w1 q; by rewrite ctx_err_set_proc).
  intros w'. subst w'.
  destruct Hfw as [|cd| |data].
  - destruct Hst as [t Ht].
    cbn [proc_steps fmap list_fmap].
    rewrite run_cons, (step_forward_start _ _ _ _ _ _ _ _ _ _ Hp Ht).
    destruct (CachedData t) as [|x cd] eqn:Hcd.
    + rewrite run_cons, (step_forward_replay_nil now true i ctx task sid sub out)
        by (by apply list_lookup_insert_eq).
      apply Hexit with (q := PForward ctx task sid sub out) (picks := []); eauto.
      simpl. rewrite list_insert_insert_eq. by apply list_lookup_insert_eq.
    + apply Hexit with (q := PForwardReplay ctx task sid sub out (x :: cd))
                       (picks := [true]);
        [by apply list_lookup_insert_eq|eauto..].
  - destruct cd as [|x cd].
    + cbn [proc_steps fmap list_fmap].
      rewrite run_cons, (step_forward_replay_nil now true i ctx task sid sub out)
        by done.
      apply Hexit with (q := PForward ctx task sid sub out) (picks := [true]); eauto.
      by apply list_lookup_insert_eq.
    + apply Hexit with (q := PForwardReplay ctx task sid sub out (x :: cd))
                       (picks := [true; true]); eauto.
  - apply Hexit with (q := PForward ctx task sid sub out) (picks := [true; true]);
      eauto.
  - apply Hexit with (q := PForwardHold ctx task sid sub out data)
                     (picks := [true; true]); eauto.
Qed.

(** The forwarder's side of a caller's cancellation. Cancelling the
    caller's context of an attachment changes that context only.
    Whatever its forwarder then does, the registry, every async
    context, every other goroutine and the answer of [GetTaskInfo] for
    every task id stay as they were, and the records change at most by
    losing that subscriber id. When the forwarder takes the [Done]
    branch, it is over: its output channel is closed and its
    subscriber id is out of the record. What the runner does with the
    same context is not covered here. *)
Lemma caller_cancel_forwarder_frame now i n task sid sub out p w :
  procs w !! i = Some p →
  forwarder (CallerCtx n) task sid sub out p →
  is_Some (store w !! task) →
  is_Some (chans w !! out) →
  let w1 := cancel_caller n w in
  (tasks w1 = tasks w ∧ store w1 = store w ∧ chans w1 = chans w ∧
   actxs w1 = actxs w ∧ procs w1 = procs w) ∧
  (∀ picks,
     let w2 := run (proc_steps now i picks) w1 in
     tasks w2 = tasks w ∧ actxs w2 = actxs w ∧
     (∀ a, ctx_err w2 (AsyncCtx a) = ctx_err w (AsyncCtx a)) ∧
     (∀ taskID, GetTaskInfo taskID w2 = GetTaskInfo taskID w) ∧
     (store w2 = store w ∨ store w2 = alter (unsubscribe sid) task (store w)) ∧
     (∀ j, j ≠ i → procs w2 !! j = procs w !! j)) ∧
  (let w3 := run (proc_steps now i [true; true; true]) w1 in
   procs w3 !! i = Some PDone ∧
   closed <$> chans w3 !! out = Some true ∧
   ∃ t', store w3 !! task = Some t' ∧ Subscribers t' !! sid = None).
Proof.
  intros Hp Hfw Hst Hout w1.
  assert (tasks w1 = tasks w ∧ store w1 = store w ∧ chans w1 = chans w ∧
          actxs w1 = actxs w ∧ procs w1 = procs w) as (E1 & E2 & E3 & E4 & E5).
  { subst w1. unfold cancel_caller. by destruct (caller_done w !! n). }
  split; [done|]. split.
  - intros picks.
    destruct (forwarder_steps_frame now i (CallerCtx n) task sid sub out picks w w1 p)
      as (F1 & F2 & F3 & F4); try done.
    + by rewrite E5.
    + by left.
    + by left.
    + intros j _. by rewrite E5.
    + split_and!; try done.
      * intros a. simpl. by rewrite F2.
      * intros taskID. by eapply GetTaskInfo_frame.
  - destruct (ctx_err_cancel_caller n w) as [e He].
    eapply forwarder_exits; eauto.
    + by rewrite E5.
    + by rewrite E3.
    + by rewrite E2.
Qed.

End Properties.

(** * The buffer and the subscribers *)

Section Buffer.

Context {payload : Type}.
Implicit Types (w : World payload) (t : TaskInfo payload) (ch : Chan payload).
Implicit Types (p : Proc payload) (ps : list (Proc payload)).
Implicit Types (st : list (TaskInfo payload)).

Lemma rec_le_refl t : rec_le t t.
Proof. by split. Qed.

Lemma store_le_refl st : Forall2 rec_le st st.
Proof. apply Forall2_same_length_lookup_2; [done|]. intros i x y ? ?. simplify_eq. apply rec_le_refl. Qed.

Lemma store_le_alter (f : TaskInfo payload → TaskInfo payload) l st :
  (∀ t, rec_le t (f t)) → Forall2 rec_le st (alter f l st).
Proof.
  intros Hf. apply Forall2_same_length_lookup_2.
  - by rewrite length_alter.
  - intros i x y Hx Hy. destruct (decide (i = l)) as [->|Hne].
    + rewrite list_lookup_alter_eq, Hx in Hy. simpl in Hy. by simplify_eq.
    + rewrite list_lookup_alter_ne in Hy by done. simplify_eq. apply rec_le_refl.
Qed.

Lemma store_le_trans st1 st2 st3 :
  Forall2 rec_le st1 st2 → Forall2 rec_le st2 st3 → Forall2 rec_le st1 st3.
Proof.
  intros H12 H23. apply Forall2_same_length_lookup_2.
  - by rewrite (Forall2_length _ _ _ H12), (Forall2_length _ _ _ H23).
  - intros i x z Hx Hz.
    destruct (Forall2_lookup_l _ _ _ _ _ H12 Hx) as (y & Hy & [A B]).
    destruct (Forall2_lookup_lr _ _ _ _ _ _ H23 Hy Hz) as [C D].
    split; auto.
Qed.

Lemma got_stable_refl ps : got_stable ps ps.
Proof. by intros i p task. Qed.

Lemma got_stable_insert ps i p :
  (∀ task, ¬ holds_empty_snapshot p task) → got_stable ps (<[i := p]> ps).
Proof.
  intros Hp j q task Hq Hg. destruct (decide (j = i)) as [->|Hne].
  - apply list_lookup_insert_Some in Hq as [(_ & -> & _)|[? _]]; [|done].
    by destruct (Hp task).
  - by rewrite list_lookup_insert_ne in Hq.
Qed.

Lemma got_stable_trans ps1 ps2 ps3 :
  got_stable ps1 ps2 → got_stable ps2 ps3 → got_stable ps1 ps3.
Proof. intros H12 H23 i p task Hp Hg. eauto. Qed.

Lemma got_stable_app ps qs :
  (∀ q task, q ∈ qs → ¬ holds_empty_snapshot q task) → got_stable ps (ps ++ qs).
Proof.
  intros Hqs i p task Hp Hg.
  apply lookup_app_Some in Hp as [Hp|[_ Hp]]; [done|].
  apply list_elem_of_lookup_2 in Hp. by destruct (Hqs p task).
Qed.

(** The invariant survives any change that leaves no record with a
    larger buffer or subscriber map and no new empty snapshot. *)
Lemma buffer_inv_frame w w' :
  buffer_inv w →
  Forall2 rec_le (store w) (store w') →
  got_stable (procs w) (procs w') →
  buffer_inv w'.
Proof.
  intros [Hrec Hsnap] Hle Hgot. split.
  - intros l t' Ht'.
    destruct (Forall2_lookup_r _ _ _ _ _ Hle Ht') as (t & Ht & [A B]).
    destruct (Hrec l t Ht) as [?|?]; [left|right]; auto.
  - intros i p task Hp Hg.
    destruct (Hsnap i p task (Hgot _ _ _ Hp Hg) Hg) as (t & Ht & Hs).
    destruct (Forall2_lookup_l _ _ _ _ _ Hle Ht) as (t' & Ht' & [A B]).
    eauto.
Qed.

(** ** What each operation does to records and goroutines *)

Ltac le_alter :=
  repeat first
    [ apply store_le_refl
    | apply store_le_alter; intros ?; by split
    | eapply store_le_trans; [|apply store_le_alter; intros ?; by split] ].

Lemma UpdateProgress_frame now pick ctx taskID data w :
  let w' := (UpdateProgress now pick ctx taskID data w).1 in
  procs w' = procs w ∧ Forall2 rec_le (store w) (store w').
Proof.
  unfold UpdateProgress.
  destruct (lookup_task w taskID) as [[l t]|]; simpl;
    [|split; [done|apply store_le_refl]].
  case_bool_decide; simpl; [split; [done|apply store_le_refl]|].
  destruct (select_send _ _ _); [destruct (DataChannel t)|..]; simpl;
    (split; [done|le_alter]).
Qed.

Lemma CompleteTask_frame now ctx taskID status w :
  let w' := CompleteTask now ctx taskID status w in
  procs w' = procs w ∧ Forall2 rec_le (store w) (store w').
Proof.
  unfold CompleteTask.
  destruct (lookup_task w taskID) as [[l t]|]; simpl;
    [|split; [done|apply store_le_refl]].
  rewrite close_all_procs, close_all_store.
  destruct (DataChannel t); simpl; (split; [done|le_alter]).
Qed.

Lemma sweep_one_frame now taskID l w :
  store (sweep_one now taskID l w) = store w ∧
  procs (sweep_one now taskID l w) = procs w.
Proof.
  unfold sweep_one. destruct (store w !! l) as [t|]; [|done].
  destruct (_ || _); [|done].
  rewrite close_all_store, close_all_procs. by destruct (DataChannel t).
Qed.

Lemma cleanupTick_frame now w :
  store (cleanupExpiredTasks now w) = store w ∧ procs (cleanupExpiredTasks now w) = procs w.
Proof.
  unfold cleanupExpiredTasks.
  apply (map_fold_weak_ind (λ r _, store r = store w ∧ procs r = procs w)); [done|].
  intros i x m r _ [<- <-]. apply sweep_one_frame.
Qed.

Lemma cancel_async_frame n w :
  store (cancel_async n w) = store w ∧ procs (cancel_async n w) = procs w ∧
  tasks (cancel_async n w) = tasks w ∧ chans (cancel_async n w) = chans w.
Proof. unfold cancel_async. by destruct (actxs w !! n) as [[d [e|]]|]. Qed.

Lemma expire_async_frame now n w :
  store (expire_async now n w) = store w ∧ procs (expire_async now n w) = procs w.
Proof.
  unfold expire_async.
  destruct (actxs w !! n) as [[[d|] [e|]]|]; try done. by destruct (d <=? now).
Qed.

Lemma cancel_caller_frame n w :
  store (cancel_caller n w) = store w ∧ procs (cancel_caller n w) = procs w.
Proof. unfold cancel_caller. by destruct (caller_done w !! n). Qed.

Lemma read_output_frame c w w' :
  read_output c w = Some w' → store w' = store w ∧ procs w' = procs w.
Proof.
  unfold read_output. destruct (recv_status w (Some c)); [|done..].
  by intros [= <-].
Qed.

Lemma not_snapshot_runner ctx actx taskID (wk : Work payload) task :
  ¬ holds_empty_snapshot (PRunner ctx actx taskID wk) task.
Proof. by intros (? & ? & ? & ?). Qed.

Lemma not_snapshot_done task : ¬ holds_empty_snapshot (PDone (payload:=payload)) task.
Proof. by intros (? & ? & ? & ?). Qed.

Lemma step_runner_frame now pick i ctx actx taskID wk w :
  let w' := step_runner now pick i ctx actx taskID wk w in
  Forall2 rec_le (store w) (store w') ∧ got_stable (procs w) (procs w').
Proof.
  unfold step_runner, runner_body. destruct wk as [data k|k|[e|]|]; simpl.
  - pose proof (UpdateProgress_frame now pick ctx taskID data w) as [Hp Hs].
    destruct (UpdateProgress now pick ctx taskID data w) as [w' [e|]];
      simpl in *.
    + rewrite Hp. split; [done|].
      apply got_stable_insert, not_snapshot_runner.
    + destruct (cancel_async_frame actx w') as (-> & -> & _). rewrite Hp.
      split; [done|]. apply got_stable_insert, not_snapshot_done.
  - split; [apply store_le_refl|].
    apply got_stable_insert, not_snapshot_runner.
  - destruct (cancel_async_frame actx (CompleteTask now ctx taskID TaskStatusFailed w))
      as (-> & -> & _).
    destruct (CompleteTask_frame now ctx taskID TaskStatusFailed w) as [-> Hs].
    split; [done|]. apply got_stable_insert, not_snapshot_done.
  - destruct (cancel_async_frame actx (CompleteTask now ctx taskID TaskStatusCompleted w))
      as (-> & -> & _).
    destruct (CompleteTask_frame now ctx taskID TaskStatusCompleted w) as [-> Hs].
    split; [done|]. apply got_stable_insert, not_snapshot_done.
  - destruct (cancel_async_frame actx w) as (-> & -> & _).
    split; [apply store_le_refl|]. apply got_stable_insert, not_snapshot_done.
Qed.

Lemma broadcast_chans_only data subs w :
  (broadcast data subs w).1 = set_chans (chans (broadcast data subs w).1) w.
Proof.
  revert w. induction subs as [|[k c] subs IH]; intros w; simpl.
  - by destruct w.
  - destruct (select_send _ _ _); try (by destruct w); try apply IH.
    rewrite IH. done.
Qed.

Lemma flush_cached_chans_only pick ctx c cs i w :
  (flush_cached pick ctx c cs i w).1
  = set_chans (chans (flush_cached pick ctx c cs i w).1) w.
Proof.
  revert i w. induction cs as [|x cs IH]; intros i w; simpl.
  - by destruct w.
  - destruct (select_send _ _ _); try (by destruct w); try apply IH.
    rewrite IH. done.
Qed.

(** The flush loop sends to a queue nobody else has: it cannot panic. *)
Lemma flush_cached_no_panic pick ctx c cs i w ch :
  chans w !! c = Some ch → closed ch = false →
  (flush_cached pick ctx c cs i w).2 ≠ Panics.
Proof.
  revert i w ch. induction cs as [|x cs IH]; intros i w ch Hch Hcl; [done|].
  cbn [flush_cached]. rewrite (send_status_Some _ _ _ Hch), Hcl.
  case_bool_decide; destruct (ctx_err w ctx); simpl;
    try destruct (pick i); simpl; try done; try by eapply IH.
  all: eapply (IH _ _ (enqueue x ch)); [|done];
    by apply chans_upd_chan_eq.
Qed.

(** An attachment to an existing record either fails with the caller
    context's error or registers the new queue, leaves the buffer empty
    and starts the forwarder. *)
Lemma attach_resume now pick ctx task taskID sid f d w t :
  store w !! task = Some t →
  let r := attach now pick ctx false task taskID sid f d w in
  (∃ e, r.2 = Returns (None, "", Some (ErrContext e))) ∨
  (r.2 = Returns (Some (S (length (chans w))), taskID, None) ∧
   tasks r.1 = tasks w ∧
   store r.1
   = alter (λ t, set_CachedData []
                   (set_Subscribers (<[sid := length (chans w)]> (Subscribers t)) t))
       task (store w) ∧
   procs r.1
   = procs w ++ [PForwardStart ctx task sid (length (chans w)) (S (length (chans w)))]).
Proof.
  intros Ht. unfold attach, new_chan, upd_task, Go. simpl.
  rewrite list_lookup_alter_eq, Ht. simpl.
  case_bool_decide as Hlen.
  - set (w3 := set_chans _ (set_store _ (set_chans _ w))).
    pose proof (flush_cached_chans_only pick ctx (length (chans w)) (CachedData t) 0 w3) as Hco.
    pose proof (flush_cached_no_panic pick ctx (length (chans w)) (CachedData t) 0 w3
                  (make_chan 100)) as Hnp.
    destruct (flush_cached pick ctx (length (chans w)) (CachedData t) 0 w3)
      as [w' [[e|]|]]; simpl in *.
    + left. eauto.
    + right. rewrite Hco. simpl. rewrite length_app. simpl.
      rewrite Nat.add_1_r. split_and!; try done.
      by rewrite list_alter_alter_eq.
    + exfalso. apply Hnp; [|done..]. subst w3. simpl.
      rewrite lookup_app_l by (rewrite length_app; simpl; lia).
      apply lookup_snoc.
  - right. simpl. rewrite length_app. simpl. rewrite Nat.add_1_r.
    split_and!; try done.
    apply list_alter_ext; [|done]. intros t' Ht'. simplify_eq.
    destruct (CachedData t) eqn:Hc; [|simpl in Hlen; lia].
    destruct t; simpl in *; by subst.
Qed.

Lemma ExecuteWithSSE_buffer_inv now pick ctx key sid f d w :
  buffer_inv w →
  (∀ e, (ExecuteWithSSE now pick ctx key sid f d w).2
        ≠ Returns (None, "", Some (ErrContext e))) →
  (∀ id l t i p, findTask w key = Some (id, l, t) →
                 procs w !! i = Some p → ¬ holds_empty_snapshot p l) →
  buffer_inv (ExecuteWithSSE now pick ctx key sid f d w).1.
Proof.
  intros Hinv Hne Hsnap.
  destruct (findTask w key) as [[[id l] t]|] eqn:Hf.
  - unfold ExecuteWithSSE in *. rewrite Hf in *.
    destruct (ExpiresAt t <? now 0%nat); [done|].
    case_bool_decide; [done|].
    apply findTask_Some in Hf as (_ & _ & Ht & _).
    destruct (attach_resume now pick ctx l id sid f d w t Ht)
      as [[e He]|(_ & _ & Hs & Hp)]; [by destruct (Hne e)|].
    destruct Hinv as [Hrec Hsn]. split.
    + intros l' t' Ht'. rewrite Hs in Ht'.
      destruct (decide (l' = l)) as [->|Hl].
      * rewrite list_lookup_alter_eq, Ht in Ht'. simpl in Ht'. simplify_eq.
        by left.
      * rewrite list_lookup_alter_ne in Ht' by done. eauto.
    + intros i p task Hpi Hg. rewrite Hp in Hpi.
      apply lookup_app_Some in Hpi as [Hpi|[_ Hpi]].
      * destruct (Hsn i p task Hpi Hg) as (t' & Ht' & Hsub).
        assert (task ≠ l) as Hl by (intros ->; by eapply Hsnap).
        exists t'. by rewrite Hs, list_lookup_alter_ne.
      * destruct Hg as (? & ? & ? & ->).
        destruct (i - length (procs w))%nat as [|[|]]; simpl in Hpi; done.
  - rewrite ExecuteWithSSE_new by done. destruct Hinv as [Hrec Hsn]. split.
    + intros l t. unfold created. simpl. intros Ht.
      apply lookup_app_Some in Ht as [Ht|[_ Ht]]; [eauto|].
      destruct (l - length (store w))%nat as [|[|]]; simpl in Ht; [|done..].
      injection Ht as <-. by left.
    + intros i p task. unfold created. simpl. intros Hpi Hg.
      apply lookup_app_Some in Hpi as [Hpi|[_ Hpi]].
      * destruct (Hsn i p task Hpi Hg) as (t' & Ht' & Hsub).
        exists t'. by rewrite lookup_app_l by by eapply lookup_lt_Some.
      * destruct Hg as (? & ? & ? & ->).
        destruct (i - length (procs w))%nat as [|[|[|[|]]]]; simpl in Hpi; done.
Qed.

Lemma forwarder_not_snapshot ctx task sid sub out p task' :
  forwarder ctx task sid sub out p ∨ p = PDone → ¬ holds_empty_snapshot p task'.
Proof. intros [[]| ->] (? & ? & ? & ?); done. Qed.

Lemma forwarder_step_buffer_inv now pick i ctx task sid sub out p w w' :
  buffer_inv w →
  procs w !! i = Some p →
  forwarder ctx task sid sub out p →
  step_proc now pick i w = Some w' →
  buffer_inv w'.
Proof.
  intros Hinv Hp Hfw Hstep.
  destruct (forwarder_step _ _ _ _ _ _ _ _ _ _ _ Hp Hfw Hstep)
    as (_ & _ & _ & Hs & p' & Hp' & Hfw').
  eapply buffer_inv_frame; [done|..].
  - destruct Hs as [->| ->]; [apply store_le_refl|].
    apply store_le_alter. intros t. split; [done|].
    simpl. intros ->. apply delete_empty.
  - rewrite Hp'. apply got_stable_insert. intros task'.
    by eapply forwarder_not_snapshot.
Qed.

(** Every step of a goroutine keeps the invariant. *)
Lemma step_proc_buffer_inv now pick i w w' :
  buffer_inv w → step_proc now pick i w = Some w' → buffer_inv w'.
Proof.
  intros Hinv Hstep.
  destruct (procs w !! i) as [p|] eqn:Hp;
    [|unfold step_proc in Hstep; by rewrite Hp in Hstep].
  destruct p as [ctx actx taskID wk|task actx|task actx data
                |task actx data has subs|ctx task sid sub out
                |ctx task sid sub out cd|ctx task sid sub out
                |ctx task sid sub out data|].
  - unfold step_proc in Hstep. rewrite Hp in Hstep. simpl in Hstep.
    injection Hstep as <-.
    destruct (step_runner_frame now pick i ctx actx taskID wk w).
    by eapply buffer_inv_frame.
  - unfold step_proc in Hstep. rewrite Hp in Hstep. simpl in Hstep.
    unfold step_listen in Hstep.
    destruct (select_recv _ _ _); [destruct (_ ≫= _)|..]; simplify_eq;
      (eapply buffer_inv_frame; [done|apply store_le_refl|]);
      apply got_stable_insert; by intros ? (? & ? & ? & ?).
  - unfold step_proc in Hstep. rewrite Hp in Hstep. simpl in Hstep.
    unfold step_listen_snapshot in Hstep.
    destruct (store w !! task) as [t|] eqn:Ht; simpl in Hstep; [|done].
    injection Hstep as <-. destruct Hinv as [Hrec Hsn]. split; [done|].
    simpl. intros j q task' Hq Hg.
    destruct (decide (j = i)) as [->|Hne].
    + apply list_lookup_insert_Some in Hq as [(_ & <- & _)|[? _]]; [|done].
      destruct Hg as (? & ? & ? & [= <- _ _ Hhas _]).
      exists t. split; [done|].
      apply map_size_empty_inv. case_bool_decide; [done|lia].
    + rewrite list_lookup_insert_ne in Hq by done. eauto.
  - unfold step_proc in Hstep. rewrite Hp in Hstep. simpl in Hstep.
    injection Hstep as <-. unfold step_listen_dispatch.
    destruct has.
    + pose proof (broadcast_chans_only data (map_to_list subs) w) as Hb.
      destruct (broadcast data (map_to_list subs) w) as [w1 [|]]; simpl in Hb;
        rewrite Hb;
        (eapply buffer_inv_frame; [done|apply store_le_refl|]);
        apply got_stable_insert; by intros ? (? & ? & ? & ?).
    + destruct Hinv as [Hrec Hsn].
      destruct (Hsn i _ task Hp) as (t & Ht & Hsub); [by repeat eexists|].
      split.
      * simpl. intros l t' Ht'. destruct (decide (l = task)) as [->|Hl].
        -- rewrite list_lookup_alter_eq, Ht in Ht'. simpl in Ht'.
           simplify_eq. by right.
        -- rewrite list_lookup_alter_ne in Ht' by done. eauto.
      * simpl. intros j q task' Hq Hg.
        destruct (decide (j = i)) as [->|Hne].
        { apply list_lookup_insert_Some in Hq as [(_ & <- & _)|[? _]]; [|done].
          by destruct Hg as (? & ? & ? & ?). }
        rewrite list_lookup_insert_ne in Hq by done.
        destruct (Hsn j q task' Hq Hg) as (t' & Ht' & Hsub').
        destruct (decide (task' = task)) as [->|Hl].
        -- rewrite list_lookup_alter_eq, Ht'. simpl. eauto.
        -- rewrite list_lookup_alter_ne by done. eauto.
  - eapply forwarder_step_buffer_inv; eauto using forwarder.
  - eapply forwarder_step_buffer_inv; eauto using forwarder.
  - eapply forwarder_step_buffer_inv; eauto using forwarder.
  - eapply forwarder_step_buffer_inv; eauto using forwarder.
  - unfold step_proc in Hstep. by rewrite Hp in Hstep.
Qed.

Lemma step_buffer_inv a w :
  buffer_inv w → attaches_cleanly a w → buffer_inv (step a w).
Proof.
  intros Hinv Hok. destruct a; simpl.
  - destruct Hok. by apply ExecuteWithSSE_buffer_inv.
  - destruct (UpdateProgress_frame now pick ctx taskID data w) as [Hp Hs].
    eapply buffer_inv_frame; [done..|]. rewrite Hp. apply got_stable_refl.
  - destruct (CompleteTask_frame now ctx taskID status w) as [Hp Hs].
    eapply buffer_inv_frame; [done..|]. rewrite Hp. apply got_stable_refl.
  - destruct (cleanupTick_frame now w) as [Hs Hp].
    eapply buffer_inv_frame; [done|rewrite Hs; apply store_le_refl|].
    rewrite Hp. apply got_stable_refl.
  - destruct (step_proc now pick i w) as [w'|] eqn:Hstep; [|done].
    by eapply step_proc_buffer_inv.
  - destruct (cancel_caller_frame n w) as [Hs Hp].
    eapply buffer_inv_frame; [done|rewrite Hs; apply store_le_refl|].
    rewrite Hp. apply got_stable_refl.
  - destruct (expire_async_frame now n w) as [Hs Hp].
    eapply buffer_inv_frame; [done|rewrite Hs; apply store_le_refl|].
    rewrite Hp. apply got_stable_refl.
  - destruct (read_output c w) as [w'|] eqn:Hr; [|done].
    destruct (read_output_frame _ _ _ Hr) as [Hs Hp]. simpl.
    eapply buffer_inv_frame; [done|rewrite Hs; apply store_le_refl|].
    rewrite Hp. apply got_stable_refl.
Qed.

Lemma buffer_inv_new ttl : buffer_inv (NewSSEManager (payload:=payload) ttl).
Proof. split; [by intros l t|by intros i p task]. Qed.

(** From a new manager, along every sequence of operations and
    goroutine steps in which no [ExecuteWithSSE] call returns the
    caller context's error and none attaches to a record whose listener
    stands between its empty snapshot and its append, no record ever
    has a non-empty buffer together with a non-empty subscriber map. *)
Lemma buffer_inv_clean_runs ttl acts :
  runs_cleanly acts (NewSSEManager ttl) →
  ∀ l t, store (run acts (NewSSEManager ttl)) !! l = Some t →
         CachedData t = [] ∨ Subscribers t = ∅.
Proof.
  intros Hok.
  assert (buffer_inv (run acts (NewSSEManager ttl))) as [H _]; [|exact H].
  generalize (buffer_inv_new ttl). revert Hok.
  generalize (NewSSEManager (payload:=payload) ttl).
  induction acts as [|a acts IH]; intros w Hok Hinv; [done|].
  destruct Hok as [Ha Hok]. rewrite run_cons.
  apply IH; [done|]. by apply step_buffer_inv.
Qed.

End Buffer.

(** * The registry points into the store *)

Section Registry.

Context {payload : Type}.
Implicit Types (w : World payload) (t : TaskInfo payload).

Lemma same_registry_ok w w' : registry_ok w → same_registry w w' → registry_ok w'.
Proof. intros Hok [Ht Hl]. unfold registry_ok. by rewrite Ht, Hl. Qed.

Lemma same_registry_trans w1 w2 w3 :
  same_registry w1 w2 → same_registry w2 w3 → same_registry w1 w3.
Proof. intros [? ?] [? ?]. split; congruence. Qed.

Lemma UpdateProgress_registry now pick ctx taskID data w :
  same_registry w (UpdateProgress now pick ctx taskID data w).1.
Proof.
  destruct (UpdateProgress_frame now pick ctx taskID data w) as [_ Hs].
  split; [|symmetry; by eapply Forall2_length].
  unfold UpdateProgress. destruct (lookup_task w taskID) as [[l t]|]; [|done].
  case_bool_decide; [done|].
  by destruct (select_send _ _ _); [destruct (DataChannel t)|..].
Qed.

Lemma CompleteTask_registry now ctx taskID status w :
  same_registry w (CompleteTask now ctx taskID status w).
Proof.
  destruct (CompleteTask_frame now ctx taskID status w) as [_ Hs].
  split; [apply CompleteTask_tasks|symmetry; by eapply Forall2_length].
Qed.

Lemma cancel_async_registry n w : same_registry w (cancel_async n w).
Proof.
  destruct (cancel_async_frame n w) as (Hs & _ & Ht & _).
  split; [done|by rewrite Hs].
Qed.

Lemma step_proc_registry now pick i w w' :
  step_proc now pick i w = Some w' → same_registry w w'.
Proof.
  unfold step_proc. destruct (procs w !! i) as [p|] eqn:Hp; simpl; [|done].
  destruct p as [ctx actx taskID wk|task actx|task actx data
                |task actx data has subs|ctx task sid sub out
                |ctx task sid sub out cd|ctx task sid sub out
                |ctx task sid sub out data|]; try done.
  - intros [= <-]. unfold step_runner, runner_body.
    destruct wk as [data k|k|[e|]|].
    + pose proof (UpdateProgress_registry now pick ctx taskID data w) as Hr.
      destruct (UpdateProgress now pick ctx taskID data w) as [w1 [e|]];
        simpl in Hr; [done|].
      eapply same_registry_trans; [done|]. apply (cancel_async_registry actx w1).
    + by split.
    + eapply same_registry_trans; [apply CompleteTask_registry|].
      apply (cancel_async_registry actx (CompleteTask _ _ _ _ w)).
    + eapply same_registry_trans; [apply CompleteTask_registry|].
      apply (cancel_async_registry actx (CompleteTask _ _ _ _ w)).
    + apply (cancel_async_registry actx w).
  - unfold step_listen.
    destruct (select_recv _ _ _); [destruct (_ ≫= _)|..]; intros [= <-]; by split.
  - unfold step_listen_snapshot. destruct (store w !! task); simpl; [|done].
    intros [= <-]. by split.
  - intros [= <-]. unfold step_listen_dispatch. destruct has.
    + pose proof (broadcast_chans_only data (map_to_list subs) w) as Hb.
      destruct (broadcast data (map_to_list subs) w) as [w1 [|]]; simpl in Hb;
        rewrite Hb; by split.
    + split; [done|]. simpl. by rewrite length_alter.
  - destruct (store w !! task); simpl; [|done]. intros [= <-]. by split.
  - intros Hstep.
    destruct (forwarder_step now pick i ctx task sid sub out _ w w' Hp
                (fw_replay _ _ _ _ _ cd))
      as (Ht & _ & _ & Hs & _).
    { unfold step_proc. by rewrite Hp. }
    split; [done|]. destruct Hs as [->| ->]; [done|]. by rewrite length_alter.
  - intros Hstep.
    destruct (forwarder_step now pick i ctx task sid sub out _ w w' Hp
                (fw_loop _ _ _ _ _))
      as (Ht & _ & _ & Hs & _).
    { unfold step_proc. by rewrite Hp. }
    split; [done|]. destruct Hs as [->| ->]; [done|]. by rewrite length_alter.
  - intros Hstep.
    destruct (forwarder_step now pick i ctx task sid sub out _ w w' Hp
                (fw_hold _ _ _ _ _ data))
      as (Ht & _ & _ & Hs & _).
    { unfold step_proc. by rewrite Hp. }
    split; [done|]. destruct Hs as [->| ->]; [done|]. by rewrite length_alter.
Qed.

Lemma start_task_registry now ctx task taskID f d w :
  same_registry w (start_task now ctx task taskID f d w).
Proof.
  unfold start_task, new_actx, Go. simpl.
  destruct (store w !! task) as [t|]; [destruct (listenerStarted t)|];
    simpl; try done.
  split; [done|]. simpl. by rewrite length_alter.
Qed.

Lemma attach_registry now pick ctx isNew task taskID sid f d w :
  same_registry w (attach now pick ctx isNew task taskID sid f d w).1.
Proof.
  unfold attach, new_chan. cbv beta iota zeta.
  set (w3 := set_chans _ (upd_task _ _ _)).
  assert (same_registry w w3) as H3.
  { subst w3. split; [done|]. simpl. by rewrite length_alter. }
  assert (∀ w5, same_registry w w5 →
            same_registry w (if isNew
                             then start_task now ctx task taskID f d w5
                             else w5)) as Hstart.
  { intros w5 H5. destruct isNew; [|done].
    eapply same_registry_trans; [done|apply start_task_registry]. }
  cbn [fst snd].
  set (cached := default [] _).
  case_bool_decide.
  - pose proof (flush_cached_chans_only pick ctx (length (chans w)) cached 0 w3) as Hco.
    destruct (flush_cached pick ctx (length (chans w)) cached 0 w3)
      as [w4 [[e|]|]]; simpl in Hco; cbn [fst snd].
    + by rewrite Hco.
    + unfold Go. cbn [fst snd].
      set (w5 := upd_task task (set_CachedData []) w4).
      assert (same_registry w w5) as H5.
      { subst w5. rewrite Hco. destruct H3 as [? Hl]. split; [done|].
        simpl in *. by rewrite length_alter. }
      destruct (Hstart w5 H5). by split.
    + by rewrite Hco.
  - unfold Go. cbn [fst snd]. destruct (Hstart w3 H3). by split.
Qed.

Lemma cleanupTick_tasks now w id l :
  tasks (cleanupExpiredTasks now w) !! id = Some l → tasks w !! id = Some l.
Proof.
  unfold cleanupExpiredTasks. revert id l.
  apply (map_fold_weak_ind
           (λ r _, ∀ id l, tasks r !! id = Some l → tasks w !! id = Some l));
    [done|].
  intros i x m r _ IH id l. unfold sweep_one.
  destruct (store r !! x) as [t|]; [|by apply IH].
  destruct (_ || _); [|by apply IH].
  rewrite close_all_tasks.
  destruct (DataChannel t); simpl; intros H;
    apply lookup_delete_Some in H as [_ H]; by apply IH.
Qed.

(** Every operation and every goroutine step keeps the registry
    pointing at records of the store. *)
Lemma step_registry_ok a w : registry_ok w → registry_ok (step a w).
Proof.
  intros Hok. destruct a; simpl.
  - unfold ExecuteWithSSE. destruct (findTask w resumeKey) as [[[id l] t]|].
    + destruct (ExpiresAt t <? now 0%nat); [done|].
      case_bool_decide; [done|].
      eapply same_registry_ok; [done|apply attach_registry].
    + unfold new_task, new_chan. simpl.
      set (w1 := set_tasks _ _).
      eapply (same_registry_ok w1); [|apply attach_registry].
      subst w1. unfold registry_ok. simpl. rewrite length_app. simpl.
      apply map_Forall_insert_2; [lia|].
      eapply map_Forall_impl; [exact Hok|]. simpl. intros; lia.
  - eapply same_registry_ok; [done|apply UpdateProgress_registry].
  - eapply same_registry_ok; [done|apply CompleteTask_registry].
  - intros id l Hl. destruct (cleanupTick_frame now w) as [-> _].
    apply cleanupTick_tasks in Hl. by apply Hok in Hl.
  - destruct (step_proc now pick i w) as [w'|] eqn:Hs; [|done].
    eapply same_registry_ok; [done|by eapply step_proc_registry].
  - unfold cancel_caller. by destruct (caller_done w !! n).
  - unfold expire_async.
    destruct (actxs w !! n) as [[[dl|] [e|]]|]; try done.
    by destruct (dl <=? now).
  - unfold read_output. by destruct (recv_status w (Some c)).
Qed.

(** The hypothesis of the [UpdateProgress] contract holds in every
    manager that operations and goroutine steps can reach. *)
Lemma reachable_registry_ok ttl (acts : list (Action payload)) :
  registry_ok (run acts (NewSSEManager ttl)).
Proof.
  assert (registry_ok (NewSSEManager (payload:=payload) ttl)) as H0
    by apply map_Forall_empty.
  revert H0. generalize (NewSSEManager (payload:=payload) ttl).
  induction acts as [|a acts IH]; intros w Hok; [done|].
  rewrite run_cons. apply IH. by apply step_registry_ok.
Qed.

End Registry.

(** * Resuming: the backlog and the live updates *)

Section Resume.

Context {payload : Type}.
Implicit Types (w : World payload) (t : TaskInfo payload) (ch : Chan payload).
Implicit Types (xs ys q : list payload).

(** Under a live context the flush loop queues the buffer up to the
    room the queue has, in order, and skips the rest. *)
Lemma flush_cached_live pick ctx c xs i w b n :
  ctx_err w ctx = None →
  chans w !! c = Some (mkChan b n false) →
  flush_cached pick ctx c xs i w
  = (upd_chan c (push_all (take (n - length b) xs)) w, Returns None).
Proof.
  revert i w b. induction xs as [|x xs IH]; intros i w b Hctx Hch.
  - rewrite take_nil. simpl. f_equal.
    destruct w as [? ? ? cs ? ? ? ?]. unfold upd_chan, set_chans. simpl.
    f_equal. symmetry. apply list_eq. intros k.
    destruct (decide (k = c)) as [->|].
    + simpl in Hch. rewrite list_lookup_alter_eq, Hch. simpl.
      unfold push_all. simpl. by rewrite app_nil_r.
    + by rewrite list_lookup_alter_ne.
  - cbn [flush_cached]. rewrite (send_status_Some _ _ _ Hch), Hctx. simpl in *.
    case_bool_decide as Hroom; simpl.
    + rewrite (IH (S i) _ (b ++ [x])).
      * f_equal. unfold do_send, upd_chan, set_chans. simpl. f_equal.
        rewrite list_alter_alter_eq. apply list_alter_ext; [|done].
        intros ch _. unfold push_all, enqueue. simpl.
        rewrite <- app_assoc, length_app. simpl.
        replace (n - length b)%nat with (S (n - (length b + 1)))%nat by lia.
        done.
      * by destruct ctx.
      * simpl. by rewrite list_lookup_alter_eq, Hch.
    + rewrite (IH (S i) w b) by done.
      by replace (n - length b)%nat with 0%nat by lia.
Qed.

(** The manager right after a successful attachment to the running
    record at [l], under a live caller context. *)
Lemma attach_live now pick ctx l taskID sid f d w t :
  store w !! l = Some t →
  ctx_err w ctx = None →
  let r := attach now pick ctx false l taskID sid f d w in
  let sub := length (chans w) in
  r.2 = Returns (Some (S sub), taskID, None) ∧
  tasks r.1 = tasks w ∧ caller_done r.1 = caller_done w ∧
  actxs r.1 = actxs w ∧ received r.1 = received w ∧
  store r.1
  = alter (λ t, set_CachedData [] (set_Subscribers (<[sid := sub]> (Subscribers t)) t))
      l (store w) ∧
  procs r.1 = procs w ++ [PForwardStart ctx l sid sub (S sub)] ∧
  chans r.1
  = chans w ++ [mkChan (take 100 (CachedData t)) 100 false; make_chan 100].
Proof.
  intros Ht Hctx. unfold attach, new_chan, upd_task, Go. simpl.
  rewrite list_lookup_alter_eq, Ht. simpl.
  rewrite length_app. simpl. rewrite Nat.add_1_r.
  case_bool_decide as Hne.
  - erewrite (flush_cached_live _ _ _ _ _ _ [] 100).
    + simpl. split_and!; try done.
      * by rewrite list_alter_alter_eq.
      * rewrite <- app_assoc. simpl.
        replace (length (chans w)) with (length (chans w) + 0)%nat at 1 by lia.
        by rewrite alter_app_r.
    + by destruct ctx.
    + simpl. rewrite lookup_app_l by (rewrite length_app; simpl; lia).
      apply lookup_snoc.
  - destruct (CachedData t) eqn:Hc; [|simpl in Hne; lia].
    simpl. split_and!; try done.
    + apply list_alter_ext; [|done]. intros t' Ht'. simplify_eq.
      destruct t; simpl in *; by subst.
    + by rewrite <- app_assoc.
Qed.

(** ** Single steps of a live update *)

Lemma step_update_send now uctx taskID y w l t dc ch :
  tasks w !! taskID = Some l → store w !! l = Some t →
  Status t = TaskStatusRunning → DataChannel t = Some dc →
  chans w !! dc = Some ch → closed ch = false →
  (length (buf ch) < cap ch)%nat →
  step (AUpdate now false uctx taskID y) w
  = do_send dc y (upd_task l (λ t, set_UpdatedAt now (set_Progress (Some y) t)) w).
Proof.
  intros Hl Ht Hrun Hdc Hch Hcl Hroom. cbn [step]. unfold UpdateProgress.
  rewrite (proj2 (lookup_task_Some w taskID l t)) by done.
  rewrite bool_decide_eq_false_2 by (rewrite Hrun; naive_solver).
  rewrite Hdc.
  change (send_status (upd_task l _ w) (Some dc)) with (send_status w (Some dc)).
  rewrite (send_status_Some _ _ _ Hch), Hcl, bool_decide_eq_true_2 by done.
  by destruct (ctx_err _ uctx).
Qed.

Lemma step_listen_recv now j l actx w t dc ch y rest :
  procs w !! j = Some (PListen l actx) →
  store w !! l = Some t → DataChannel t = Some dc →
  chans w !! dc = Some ch → buf ch = y :: rest →
  step (AProc now false j) w
  = set_proc j (PListenRecv l actx y) (upd_chan dc dequeue w).
Proof.
  intros Hp Ht Hdc Hch Hbuf. cbn [step]. unfold step_proc. rewrite Hp. simpl.
  unfold step_listen. rewrite Ht. simpl. rewrite Hdc. unfold recv_status.
  rewrite Hch, Hbuf. by destruct (_ ≫= _).
Qed.

Lemma step_listen_snap now pick j l actx y w t :
  procs w !! j = Some (PListenRecv l actx y) →
  store w !! l = Some t →
  step (AProc now pick j) w
  = set_proc j (PListenGot l actx y (bool_decide (0 < size (Subscribers t))%nat)
                  (Subscribers t)) w.
Proof.
  intros Hp Ht. cbn [step]. unfold step_proc. rewrite Hp. simpl.
  unfold step_listen_snapshot. by rewrite Ht.
Qed.

Lemma step_listen_send now pick j l actx y w sid sub ch :
  procs w !! j = Some (PListenGot l actx y true {[sid := sub]}) →
  chans w !! sub = Some ch → closed ch = false →
  (length (buf ch) < cap ch)%nat →
  step (AProc now pick j) w = set_proc j (PListen l actx) (do_send sub y w).
Proof.
  intros Hp Hch Hcl Hroom. cbn [step]. unfold step_proc. rewrite Hp. simpl.
  unfold step_listen_dispatch. rewrite map_to_list_singleton. cbn [broadcast].
  by rewrite (send_status_Some _ _ _ Hch), Hcl, bool_decide_eq_true_2.
Qed.

(** ** Single steps of the forwarder and of the reader *)

Lemma step_forward_recv now i ctx l sid sub out w ch y rest :
  procs w !! i = Some (PForward ctx l sid sub out) →
  chans w !! sub = Some ch → buf ch = y :: rest →
  step (AProc now false i) w
  = set_proc i (PForwardHold ctx l sid sub out y) (upd_chan sub dequeue w).
Proof.
  intros Hp Hch Hbuf. cbn [step]. unfold step_proc. rewrite Hp. simpl.
  unfold recv_status. rewrite Hch, Hbuf. by destruct (ctx_err w ctx).
Qed.

Lemma step_forward_idle now i ctx l sid sub out w ch :
  procs w !! i = Some (PForward ctx l sid sub out) →
  chans w !! sub = Some ch → buf ch = [] → closed ch = false →
  ctx_err w ctx = None →
  step (AProc now false i) w = w.
Proof.
  intros Hp Hch Hbuf Hcl Hctx. cbn [step]. unfold step_proc. rewrite Hp. simpl.
  unfold recv_status. by rewrite Hch, Hbuf, Hcl, Hctx.
Qed.

Lemma step_forward_deliver now i ctx l sid sub out w ch y :
  procs w !! i = Some (PForwardHold ctx l sid sub out y) →
  chans w !! out = Some ch → closed ch = false →
  (length (buf ch) < cap ch)%nat →
  step (AProc now false i) w
  = set_proc i (PForward ctx l sid sub out) (do_send out y w).
Proof.
  intros Hp Hch Hcl Hroom. cbn [step]. unfold step_proc. rewrite Hp. simpl.
  unfold forward_send.
  rewrite (send_status_Some _ _ _ Hch), Hcl, bool_decide_eq_true_2 by done.
  by destruct (ctx_err w ctx).
Qed.

Lemma step_read_value out w ch y rest :
  chans w !! out = Some ch → buf ch = y :: rest →
  step (ARead out) w
  = set_received (<[out := delivered w out ++ [y]]> (received w))
      (upd_chan out dequeue w).
Proof.
  intros Hch Hbuf. cbn [step]. unfold read_output, recv_status.
  by rewrite Hch, Hbuf.
Qed.

Lemma step_read_empty out w ch :
  chans w !! out = Some ch → buf ch = [] → step (ARead out) w = w.
Proof.
  intros Hch Hbuf. cbn [step]. unfold read_output, recv_status.
  rewrite Hch, Hbuf. by destruct (closed ch).
Qed.

(** ** Live updates after an attachment *)

Ltac lk :=
  simpl;
  repeat first
    [ rewrite list_lookup_insert_eq
        by (rewrite ?length_insert; eauto using lookup_lt_Some)
    | rewrite list_lookup_insert_ne by done
    | rewrite list_lookup_alter_ne by done
    | rewrite list_lookup_alter_eq ].

(** A live update that finds room lands at the tail of the subscriber
    queue and changes nothing else of the attachment. *)
Lemma live_round_attached now uctx taskID l sid sub out dc j i actx ctx q y w :
  attached w taskID l sid sub out dc j i actx ctx q →
  (length q < 100)%nat →
  let w' := run (live_round now uctx taskID j y) w in
  attached w' taskID l sid sub out dc j i actx ctx (q ++ [y]) ∧
  received w' = received w.
Proof.
  intros (Hl & (t & Ht & Hrun & Hdc & Hsubs & Hcd) & (n & Hq & Hn) & Hsub & Hout
          & Hj & Hi & Hctx & Hne1 & Hne2 & Hne3 & Hne4) Hroom.
  assert (j < length (procs w))%nat as Hjlt by by eapply lookup_lt_Some.
  unfold live_round. cbv zeta.
  rewrite run_cons,
    (step_update_send now uctx taskID y w l t dc _ Hl Ht Hrun Hdc Hq) by done.
  set (f := λ t, set_UpdatedAt now (set_Progress (Some y) t)).
  rewrite run_cons,
    (step_listen_recv now j l actx _ (f t) dc (enqueue y (mkChan [] n false)) y []);
    [|done|by lk; rewrite Ht|done|by lk; rewrite Hq|done].
  rewrite run_cons, (step_listen_snap now false j l actx y _ (f t));
    [|by lk|by lk; rewrite Ht].
  replace (Subscribers (f t)) with ({[sid := sub]} : gmap string nat) by done.
  rewrite map_size_singleton, bool_decide_eq_true_2 by lia.
  rewrite run_cons, (step_listen_send now false j l actx y _ sid sub (mkChan q 100 false));
    [|by lk|by lk; rewrite Hsub|done|done].
  cbn [run foldl]. split; [|done].
  split_and!; try done.
  - exists (f t). split_and!; try done. by lk; rewrite Ht.
  - exists n. split; [|done]. by lk; rewrite Hq.
  - by lk; rewrite Hsub.
  - by lk.
  - by lk.
  - by lk.
Qed.

Lemma live_rounds_attached now uctx taskID l sid sub out dc j i actx ctx q ys w :
  attached w taskID l sid sub out dc j i actx ctx q →
  (length q + length ys ≤ 100)%nat →
  let w' := run (live_rounds now uctx taskID j ys) w in
  attached w' taskID l sid sub out dc j i actx ctx (q ++ ys) ∧
  received w' = received w.
Proof.
  revert q w. induction ys as [|y ys IH]; intros q w Hat Hlen.
  - simpl. by rewrite app_nil_r.
  - unfold live_rounds. cbn [mbind list_bind]. cbv zeta. rewrite run_app.
    destruct (live_round_attached now uctx taskID l sid sub out dc j i actx ctx q y w)
      as [Hat' Hr]; [done|simpl in Hlen; lia|].
    destruct (IH (q ++ [y]) _ Hat') as [Hat'' Hr'].
    { rewrite length_app. simpl in *. lia. }
    rewrite <- app_assoc in Hat''. simpl in Hat''.
    split; [done|]. by rewrite <- Hr.
Qed.

Lemma drain_S now i out n :
  drain (payload:=payload) now i out (S n)
  = [AProc now false i; AProc now false i; ARead out] ++ drain now i out n.
Proof. done. Qed.

Lemma drain_round now i ctx l sid sub out y rest d w :
  draining w i ctx l sid sub out (y :: rest) d →
  draining (run [AProc now false i; AProc now false i; ARead out] w)
    i ctx l sid sub out rest (d ++ [y]).
Proof.
  intros (Hp & Hsub & Hout & Hctx & Hd & Hne).
  rewrite run_cons,
    (step_forward_recv now i ctx l sid sub out w _ y rest Hp Hsub) by done.
  rewrite run_cons,
    (step_forward_deliver now i ctx l sid sub out _ (mkChan [] 100 false) y);
    [|by lk|by lk; rewrite Hout|done|simpl; lia].
  rewrite run_cons,
    (step_read_value out _ (enqueue y (mkChan [] 100 false)) y []);
    [|by lk; rewrite Hout|done].
  cbn [run foldl]. split_and!; try done.
  - by lk.
  - by lk; rewrite Hsub.
  - by lk; rewrite Hout.
  - unfold delivered. simpl. rewrite lookup_insert_eq. simpl.
    unfold delivered in Hd. simpl. by rewrite Hd.
Qed.

Lemma drain_idle now i ctx l sid sub out d w :
  draining w i ctx l sid sub out [] d →
  run [AProc now false i; AProc now false i; ARead out] w = w.
Proof.
  intros (Hp & Hsub & Hout & Hctx & Hd & Hne).
  rewrite run_cons, (step_forward_idle now i ctx l sid sub out w _ Hp Hsub) by done.
  rewrite run_cons, (step_forward_idle now i ctx l sid sub out w _ Hp Hsub) by done.
  by rewrite run_cons, (step_read_empty out w _ Hout).
Qed.

Lemma drain_all now i ctx l sid sub out n rest d w :
  draining w i ctx l sid sub out rest d →
  (length rest ≤ n)%nat →
  delivered (run (drain now i out n) w) out = d ++ rest.
Proof.
  revert rest d w. induction n as [|n IH]; intros rest d w Hdr Hlen.
  - destruct rest; [|simpl in Hlen; lia].
    rewrite app_nil_r. by destruct Hdr as (_ & _ & _ & _ & ? & _).
  - rewrite drain_S, run_app. destruct rest as [|y rest].
    + rewrite (drain_idle now i ctx l sid sub out d w Hdr).
      apply IH; [done|simpl; lia].
    + rewrite (IH rest (d ++ [y])).
      * by rewrite <- app_assoc.
      * by apply drain_round.
      * simpl in Hlen. lia.
Qed.

(** The forwarder's first round: it copies the (empty) buffer and
    enters its live loop. *)
Lemma drain_start now taskID l sid sub out dc j i actx ctx q w :
  attached w taskID l sid sub out dc j i actx ctx q →
  draining (run [AProc now false i; AProc now false i; ARead out] w)
    i ctx l sid sub out q (delivered w out).
Proof.
  intros (Hl & (t & Ht & Hrun & Hdc & Hsubs & Hcd) & (n & Hq & Hn) & Hsub & Hout
          & Hj & Hi & Hctx & Hne1 & Hne2 & Hne3 & Hne4).
  rewrite run_cons, (step_forward_start _ _ _ _ _ _ _ _ _ _ Hi Ht), Hcd.
  rewrite run_cons, (step_forward_replay_nil now false i ctx l sid sub out)
    by by lk.
  rewrite run_cons, (step_read_empty out _ (mkChan [] 100 false)) by done.
  cbn [run foldl]. split_and!; try done. by lk.
Qed.

(** ** Every interleaving after an attachment *)

Section Streaming.

Context (taskID : string) (l : loc) (sid : string) (sub out dc : chanid)
  (j i : nat) (ctx : ctxid).

Lemma streaming_set_proc_j w pf pl bs bo chr pl' :
  streaming taskID l sid sub out dc j i ctx w pf pl bs bo chr → listening l sid sub pl' →
  streaming taskID l sid sub out dc j i ctx (set_proc j pl' w) pf pl' bs bo chr.
Proof.
  intros (Hl & Ht & Hsub & Hout & Hraw & Hi & Hfw & Hj & Hli & Hctx
          & Hne1 & Hne2 & Hne3 & Hne4) Hli'.
  split_and!; try done; by lk.
Qed.

Lemma streaming_set_proc_i w pf pl bs bo chr pf' :
  streaming taskID l sid sub out dc j i ctx w pf pl bs bo chr →
  forwarding ctx l sid sub out pf' →
  streaming taskID l sid sub out dc j i ctx (set_proc i pf' w) pf' pl bs bo chr.
Proof.
  intros (Hl & Ht & Hsub & Hout & Hraw & Hi & Hfw & Hj & Hli & Hctx
          & Hne1 & Hne2 & Hne3 & Hne4) Hfw'.
  split_and!; try done; by lk.
Qed.

Lemma streaming_upd_sub w pf pl bs bo chr (f : Chan payload → Chan payload) bs' :
  streaming taskID l sid sub out dc j i ctx w pf pl bs bo chr →
  f (mkChan bs 100 false) = mkChan bs' 100 false →
  streaming taskID l sid sub out dc j i ctx (upd_chan sub f w) pf pl bs' bo chr.
Proof.
  intros (Hl & Ht & Hsub & Hout & Hraw & Hi & Hfw & Hj & Hli & Hctx
          & Hne1 & Hne2 & Hne3 & Hne4) Hf.
  split_and!; try done; lk; try done. by rewrite Hsub, <- Hf.
Qed.

Lemma streaming_upd_out w pf pl bs bo chr (f : Chan payload → Chan payload) bo' :
  streaming taskID l sid sub out dc j i ctx w pf pl bs bo chr →
  f (mkChan bo 100 false) = mkChan bo' 100 false →
  streaming taskID l sid sub out dc j i ctx (upd_chan out f w) pf pl bs bo' chr.
Proof.
  intros (Hl & Ht & Hsub & Hout & Hraw & Hi & Hfw & Hj & Hli & Hctx
          & Hne1 & Hne2 & Hne3 & Hne4) Hf.
  split_and!; try done; lk; try done. by rewrite Hout, <- Hf.
Qed.

Lemma streaming_upd_raw w pf pl bs bo chr (f : Chan payload → Chan payload) :
  streaming taskID l sid sub out dc j i ctx w pf pl bs bo chr →
  streaming taskID l sid sub out dc j i ctx (upd_chan dc f w) pf pl bs bo (f chr).
Proof.
  intros (Hl & Ht & Hsub & Hout & Hraw & Hi & Hfw & Hj & Hli & Hctx
          & Hne1 & Hne2 & Hne3 & Hne4).
  split_and!; try done; lk; try done. by rewrite Hraw.
Qed.

Lemma streaming_upd_task w pf pl bs bo chr (f : TaskInfo payload → TaskInfo payload) :
  (∀ t, Subscribers (f t) = Subscribers t ∧ CachedData (f t) = CachedData t ∧
        DataChannel (f t) = DataChannel t) →
  streaming taskID l sid sub out dc j i ctx w pf pl bs bo chr →
  streaming taskID l sid sub out dc j i ctx (upd_task l f w) pf pl bs bo chr.
Proof.
  intros Hf (Hl & (t & Ht & Hsubs & Hcd & Hdc) & Hsub & Hout & Hraw & Hi & Hfw
             & Hj & Hli & Hctx & Hne1 & Hne2 & Hne3 & Hne4).
  split_and!; try done.
  exists (f t). destruct (Hf t) as (-> & -> & ->).
  split_and!; try done. by apply store_upd_task_eq.
Qed.

Lemma streaming_set_received w pf pl bs bo chr x :
  streaming taskID l sid sub out dc j i ctx w pf pl bs bo chr →
  streaming taskID l sid sub out dc j i ctx (set_received x w) pf pl bs bo chr.
Proof.
  intros (Hl & Ht & Hsub & Hout & Hraw & Hi & Hfw & Hj & Hli & Hctx
          & Hne1 & Hne2 & Hne3 & Hne4).
  split_and!; done.
Qed.

Lemma select_recv_value pick (st : RecvStatus (payload:=payload)) d v :
  select_recv pick st d = RSelValue v → st = RecvValue v.
Proof. destruct st, d, pick; simpl; congruence. Qed.

(** A call of [UpdateProgress] for the task puts its payload at the
    tail of the raw queue, or leaves the queues as they are. *)
Lemma streaming_update now pick uctx y w pf pl bs bo chr :
  streaming taskID l sid sub out dc j i ctx w pf pl bs bo chr →
  ∃ chr',
    streaming taskID l sid sub out dc j i ctx
      (step (AUpdate now pick uctx taskID y) w) pf pl bs bo chr' ∧
    received (step (AUpdate now pick uctx taskID y) w) = received w ∧
    (chr' = chr ∨ chr' = enqueue y chr).
Proof.
  intros Hinv.
  pose proof Hinv as (Hl & (t & Ht & Hsubs & Hcd & Hdc) & _).
  cbn [step]. unfold UpdateProgress.
  rewrite (proj2 (lookup_task_Some w taskID l t)) by done.
  case_bool_decide as Hrun; [exists chr; by split_and!; [| |left]|].
  set (f := λ t, set_UpdatedAt now (set_Progress (Some y) t)).
  assert (streaming taskID l sid sub out dc j i ctx (upd_task l f w) pf pl bs bo chr)
    as H1 by by apply streaming_upd_task.
  rewrite Hdc.
  destruct (select_send _ _ _); cbn [fst].
  - exists (enqueue y chr). split_and!; [|done|by right].
    by apply (streaming_upd_raw (upd_task l f w)).
  - exists chr. by split_and!; [| |left].
  - exists chr. by split_and!; [| |left].
  - exists chr. by split_and!; [| |left].
Qed.

(** A step of the listener passes the value at the head of what is
    before it on to the subscriber queue, or drops it when that queue
    is full, or moves nothing. *)
Lemma streaming_listen now pick w pf pl bs bo chr :
  streaming taskID l sid sub out dc j i ctx w pf pl bs bo chr →
  ∃ pl' bs' chr',
    streaming taskID l sid sub out dc j i ctx
      (step (AProc now pick j) w) pf pl' bs' bo chr' ∧
    received (step (AProc now pick j) w) = received w ∧
    (bs' = bs ∧ held pl' ++ buf chr' = held pl ++ buf chr ∨
     ∃ x, held pl ++ buf chr = x :: held pl' ++ buf chr' ∧
          (bs' = bs ++ [x] ∨ bs' = bs)).
Proof.
  intros Hinv.
  pose proof Hinv as (Hl & (t & Ht & Hsubs & Hcd & Hdc) & Hsub & Hout & Hraw
                      & Hi & Hfw & Hj & Hli & Hctx & Hne1 & Hne2 & Hne3 & Hne4).
  cbn [step]. unfold step_proc. rewrite Hj.
  destruct pl as [| task actx | task actx x | task actx x has subs | | | | |];
    simpl in Hli; try done.
  - subst task. simpl. unfold step_listen. rewrite Ht. simpl. rewrite Hdc.
    destruct (select_recv _ _ _) as [x| | |] eqn:Hsel; simpl.
    + apply select_recv_value in Hsel. unfold recv_status in Hsel.
      rewrite Hraw in Hsel.
      destruct (buf chr) as [|x' b] eqn:Hb; [by destruct (closed chr)|].
      injection Hsel as ->.
      exists (PListenRecv l actx x), bs, (dequeue chr).
      split_and!; [|done|left; simpl; by rewrite Hb].
      eapply streaming_set_proc_j; [by apply streaming_upd_raw|done].
    + exists PDone, bs, chr.
      split_and!; [by eapply streaming_set_proc_j|done|by left].
    + exists PDone, bs, chr.
      split_and!; [by eapply streaming_set_proc_j|done|by left].
    + exists (PListen l actx), bs, chr. by split_and!; [| |left].
  - subst task. cbn. unfold step_listen_snapshot. rewrite Ht. cbn.
    rewrite Hsubs, map_size_singleton, bool_decide_eq_true_2 by lia.
    exists (PListenGot l actx x true {[sid := sub]}), bs, chr.
    split_and!; [by eapply streaming_set_proc_j|done|by left].
  - destruct Hli as (-> & -> & ->). cbn. unfold step_listen_dispatch.
    rewrite map_to_list_singleton. cbn [broadcast].
    rewrite (send_status_Some _ _ _ Hsub). cbn [closed buf cap select_send].
    case_bool_decide as Hroom; cbn.
    + exists (PListen l actx), (bs ++ [x]), chr.
      split_and!; [|done|right; exists x; split; [done|by left]].
      eapply (streaming_set_proc_j (do_send sub x w)); [|done].
      eapply streaming_upd_sub; [exact Hinv|done].
    + exists (PListen l actx), bs, chr.
      split_and!; [|done|right; exists x; split; [done|by right]].
      by eapply streaming_set_proc_j.
  - cbn. exists PDone, bs, chr. by split_and!; [| |left].
Qed.

(** A step of the forwarder moves a value one place towards the
    caller, or does nothing because its queue is empty or the output
    channel is full. *)
Lemma streaming_forward now pick w pf pl bs bo chr :
  streaming taskID l sid sub out dc j i ctx w pf pl bs bo chr →
  ∃ pf' bs' bo',
    streaming taskID l sid sub out dc j i ctx
      (step (AProc now pick i) w) pf' pl bs' bo' chr ∧
    received (step (AProc now pick i) w) = received w ∧
    bo' ++ held pf' ++ bs' = bo ++ held pf ++ bs ∧
    ((3 * length bs' + rank pf' + length bo' < 3 * length bs + rank pf + length bo)%nat ∨
     (pf' = pf ∧ bs' = bs ∧ bo' = bo ∧ step (AProc now pick i) w = w ∧
      ((rank pf = 0%nat ∧ bs = []) ∨ (100 ≤ length bo)%nat))).
Proof.
  intros Hinv.
  pose proof Hinv as (Hl & (t & Ht & Hsubs & Hcd & Hdc) & Hsub & Hout & Hraw
                      & Hi & Hfw & Hj & Hli & Hctx & Hne1 & Hne2 & Hne3 & Hne4).
  cbn [step]. unfold step_proc. rewrite Hi.
  destruct Hfw as [->|[->|[->|[x ->]]]]; cbn.
  - rewrite Ht. cbn. rewrite Hcd.
    exists (PForwardReplay ctx l sid sub out []), bs, bo.
    split_and!; [eapply streaming_set_proc_i; [exact Hinv|right; by left]|done|done|].
    left. simpl. lia.
  - exists (PForward ctx l sid sub out), bs, bo.
    split_and!;
      [eapply streaming_set_proc_i; [exact Hinv|right; right; by left]|done|done|].
    left. simpl. lia.
  - unfold recv_status. rewrite Hsub, Hctx. cbn [buf closed].
    destruct bs as [|x bs]; cbn.
    + exists (PForward ctx l sid sub out), [], bo.
      split_and!; [done..|]. right. split_and!; try done. by left.
    + exists (PForwardHold ctx l sid sub out x), bs, bo.
      split_and!; [|done|done|left; simpl; lia].
      eapply (streaming_set_proc_i (upd_chan sub dequeue w));
        [eapply streaming_upd_sub; [exact Hinv|done]|right; right; right; by exists x].
  - unfold forward_send. rewrite (send_status_Some _ _ _ Hout), Hctx.
    cbn [closed buf cap]. case_bool_decide as Hroom; cbn.
    + exists (PForward ctx l sid sub out), bs, (bo ++ [x]).
      split_and!; [| done | by rewrite <- app_assoc
                   | left; rewrite length_app; simpl; lia].
      eapply (streaming_set_proc_i (do_send out x w));
        [eapply streaming_upd_out; [exact Hinv|done]|right; right; by left].
    + exists (PForwardHold ctx l sid sub out x), bs, bo.
      split_and!; [done..|]. right. split_and!; try done. right. lia.
Qed.

(** A read takes the head of the output channel, if there is one. *)
Lemma streaming_read w pf pl bs bo chr :
  streaming taskID l sid sub out dc j i ctx w pf pl bs bo chr →
  ∃ bo',
    streaming taskID l sid sub out dc j i ctx (step (ARead out) w) pf pl bs bo' chr ∧
    delivered (step (ARead out) w) out ++ bo' = delivered w out ++ bo ∧
    ((length bo' < length bo)%nat ∨ (bo' = bo ∧ bo = [] ∧ step (ARead out) w = w)).
Proof.
  intros Hinv.
  pose proof Hinv as (Hl & (t & Ht & Hsubs & Hcd & Hdc) & Hsub & Hout & Hraw
                      & Hi & Hfw & Hj & Hli & Hctx & Hne1 & Hne2 & Hne3 & Hne4).
  cbn [step]. unfold read_output, recv_status. rewrite Hout. cbn [buf closed].
  destruct bo as [|v bo]; cbn.
  - exists []. split_and!; [done..|]. right. done.
  - exists bo. split_and!.
    + apply streaming_set_received. eapply streaming_upd_out; [exact Hinv|done].
    + unfold delivered. cbn. rewrite lookup_insert_eq. cbn.
      by rewrite <- app_assoc.
    + left. simpl. lia.
Qed.

Lemma delivered_received w' w c :
  received w' = received w → delivered w' c = delivered w c.
Proof. unfold delivered. by intros ->. Qed.

(** One action of the attachment: the caller's stream grows by values
    taken, in order, from what was before the listener followed by what
    the action sent. *)
Lemma streamed_step (a : Action payload) w pre rest :
  streams taskID j i out a →
  streamed taskID l sid sub out dc j i ctx w pre rest →
  ∃ L rest',
    streamed taskID l sid sub out dc j i ctx (step a w) (pre ++ L) rest' ∧
    L ++ rest' `sublist_of` rest ++ sent [a] ∧
    (length (delivered w out) ≤ length (delivered (step a w) out))%nat.
Proof.
  intros Ha (pf & pl & bs & bo & chr & Hinv & -> & ->).
  destruct a as [| now pick uctx id y | | | now pick k | | | c]; try done.
  - simpl in Ha. subst id.
    destruct (streaming_update now pick uctx y w pf pl bs bo chr Hinv)
      as (chr' & Hinv' & Hrecv & Hchr).
    rewrite (delivered_received _ w out Hrecv).
    destruct Hchr as [->| ->].
    + exists [], (held pl ++ buf chr). split_and!; [|by apply sublist_inserts_r|done].
      exists pf, pl, bs, bo, chr. split_and!; [done| |done].
      by rewrite app_nil_r, (delivered_received _ w out Hrecv).
    + exists [], (held pl ++ buf chr ++ [y]). split_and!; [| |done].
      * exists pf, pl, bs, bo, (enqueue y chr). split_and!; [done| |done].
        by rewrite app_nil_r, (delivered_received _ w out Hrecv).
      * simpl. by rewrite app_assoc.
  - simpl in Ha. destruct Ha as [-> | ->].
    + destruct (streaming_listen now pick w pf pl bs bo chr Hinv)
        as (pl' & bs' & chr' & Hinv' & Hrecv & Hmove).
      rewrite (delivered_received _ w out Hrecv).
      destruct Hmove as [[-> Hrest]|(x & Hrest & [->| ->])].
      * exists [], (held pl' ++ buf chr'). split_and!; [| |done].
        -- exists pf, pl', bs, bo, chr'. split_and!; [done| |done].
           by rewrite app_nil_r, (delivered_received _ w out Hrecv).
        -- simpl. by rewrite Hrest, app_nil_r.
      * exists [x], (held pl' ++ buf chr'). split_and!; [| |done].
        -- exists pf, pl', (bs ++ [x]), bo, chr'. split_and!; [done| |done].
           rewrite (delivered_received _ w out Hrecv).
           by rewrite <- !app_assoc.
        -- simpl. by rewrite Hrest, app_nil_r.
      * exists [], (held pl' ++ buf chr'). split_and!; [| |done].
        -- exists pf, pl', bs, bo, chr'. split_and!; [done| |done].
           by rewrite app_nil_r, (delivered_received _ w out Hrecv).
        -- simpl. rewrite Hrest, app_nil_r. by apply sublist_cons.
    + destruct (streaming_forward now pick w pf pl bs bo chr Hinv)
        as (pf' & bs' & bo' & Hinv' & Hrecv & Hsame & _).
      rewrite (delivered_received _ w out Hrecv).
      exists [], (held pl ++ buf chr). split_and!; [| |done].
      * exists pf', pl, bs', bo', chr. split_and!; [done| |done].
        by rewrite app_nil_r, (delivered_received _ w out Hrecv), Hsame.
      * simpl. by rewrite app_nil_r.
  - simpl in Ha. subst c.
    destruct (streaming_read w pf pl bs bo chr Hinv) as (bo' & Hinv' & Hd & Hlen).
    exists [], (held pl ++ buf chr). split_and!.
    + exists pf, pl, bs, bo', chr. split_and!; [done| |done].
      by rewrite app_nil_r, !app_assoc, Hd.
    + simpl. by rewrite app_nil_r.
    + apply (f_equal length) in Hd. rewrite !length_app in Hd.
      destruct Hlen as [?|(-> & _)]; lia.
Qed.

Lemma sent_cons (a : Action payload) acts : sent (a :: acts) = sent [a] ++ sent acts.
Proof. unfold sent. simpl. by rewrite app_nil_r. Qed.

(** Any interleaving of such actions. *)
Lemma streamed_run (acts : list (Action payload)) w pre rest :
  Forall (streams taskID j i out) acts →
  streamed taskID l sid sub out dc j i ctx w pre rest →
  ∃ L rest',
    streamed taskID l sid sub out dc j i ctx (run acts w) (pre ++ L) rest' ∧
    L ++ rest' `sublist_of` rest ++ sent acts ∧
    (length (delivered w out) ≤ length (delivered (run acts w) out))%nat.
Proof.
  intros Hacts. revert w pre rest.
  induction Hacts as [|a acts Ha _ IH]; intros w pre rest Hinv.
  - exists [], rest. rewrite !app_nil_r. by split_and!.
  - destruct (streamed_step a w pre rest Ha Hinv) as (L1 & rest1 & H1 & Hs1 & Hd1).
    destruct (IH _ _ _ H1) as (L2 & rest2 & H2 & Hs2 & Hd2).
    rewrite run_cons. exists (L1 ++ L2), rest2. split_and!.
    + by rewrite app_assoc.
    + rewrite sent_cons, <- (app_assoc L1), (app_assoc rest).
      etrans; [apply sublist_app; [reflexivity|exact Hs2]|].
      rewrite app_assoc. by apply sublist_app.
    + lia.
Qed.

Lemma streamed_prefix w pre rest :
  streamed taskID l sid sub out dc j i ctx w pre rest → delivered w out `prefix_of` pre.
Proof. intros (pf & pl & bs & bo & chr & _ & -> & _). by eexists. Qed.

(** The forwarder and the reader taking turns bring everything that is
    behind the listener to the caller. *)
Lemma drain_streaming now k w pf pl bs bo chr :
  streaming taskID l sid sub out dc j i ctx w pf pl bs bo chr →
  (3 * length bs + rank pf + length bo ≤ k)%nat →
  delivered (run (drain now i out k) w) out
  = delivered w out ++ bo ++ held pf ++ bs.
Proof.
  revert w pf bs bo. induction k as [|k IH]; intros w pf bs bo Hinv Hk.
  - destruct bs; [|simpl in Hk; lia]. destruct bo; [|simpl in Hk; lia].
    pose proof Hinv as (_ & _ & _ & _ & _ & _ & Hfw & _).
    destruct Hfw as [->|[->|[->|[x ->]]]]; simpl in Hk; try lia.
    by rewrite app_nil_r.
  - rewrite drain_S, run_app.
    destruct (streaming_forward now false w pf pl bs bo chr Hinv)
      as (pf1 & bs1 & bo1 & Hinv1 & Hr1 & Hs1 & Hp1).
    rewrite run_cons.
    destruct (streaming_forward now false _ pf1 pl bs1 bo1 chr Hinv1)
      as (pf2 & bs2 & bo2 & Hinv2 & Hr2 & Hs2 & Hp2).
    rewrite run_cons.
    destruct (streaming_read _ pf2 pl bs2 bo2 chr Hinv2)
      as (bo3 & Hinv3 & Hd3 & Hp3).
    rewrite run_cons. cbn [run foldl].
    rewrite (IH _ pf2 bs2 bo3 Hinv3).
    + rewrite app_assoc, Hd3, <- app_assoc, Hs2, Hs1.
      by rewrite (delivered_received _ _ out Hr2), (delivered_received _ _ out Hr1).
    + destruct Hp1 as [?|(-> & -> & -> & _ & Hb1)];
        destruct Hp2 as [?|(-> & -> & -> & _ & Hb2)];
        destruct Hp3 as [?|(-> & -> & _)]; try lia.
      destruct Hb1 as [[-> ->]|?]; simpl in *; lia.
Qed.

End Streaming.

Lemma before_snapshot_listening l sid sub (p : Proc payload) :
  before_snapshot l p → listening l sid sub p.
Proof. by destruct p. Qed.

(** C4 as amended. A running, unexpired record without subscribers
    is resumed under a live caller context, its listener [j] holding no
    snapshot of the subscribers: it is at the top of its loop, or has
    received a value and not yet taken the snapshot, or is over. The
    call succeeds, the first 100 buffered payloads (all of them when
    there are at most 100) are in the new subscriber queue in order,
    and the record's buffer is empty. For every interleaving [acts] of
    [UpdateProgress] calls for the task, steps of the listener, steps
    of the new forwarder and reads of the returned channel there is a
    list [L], taken in order from the value the listener held and the
    content of the raw queue at the resume followed by the payloads
    sent in [acts], such that what the caller has read from the
    returned channel is a prefix of the first 100 buffered payloads
    followed by [L], and is all of that after [k] further rounds of
    two forwarder steps and one read, for every [k] from three times
    the number of these payloads plus two. And when the listener is at
    the top of its loop, the raw queue is empty, open and of non-zero
    capacity, and the first 100 buffered payloads and [ys] together
    are at most 100, then after the live updates [ys], each passed on
    by the listener before the next is sent, and more rounds than
    there are payloads, the caller has read the first 100 buffered
    payloads followed by [ys]. *)
Theorem C4_resume_delivers_backlog_first now tnow pick ctx uctx key sid f d
    w taskID l t dc ch j pl actx ys :
  findTask w key = Some (taskID, l, t) →
  ¬ ExpiresAt t < now 0%nat →
  Status t = TaskStatusRunning →
  Subscribers t = ∅ →
  ctx_err w ctx = None →
  DataChannel t = Some dc →
  chans w !! dc = Some ch →
  procs w !! j = Some pl →
  before_snapshot l pl →
  let r := ExecuteWithSSE now pick ctx key sid f d w in
  let sub := length (chans w) in
  let out := S sub in
  let i := length (procs w) in
  r.2 = Returns (Some out, taskID, None) ∧
  (∃ t', store r.1 !! l = Some t' ∧ CachedData t' = [] ∧
         Subscribers t' = {[sid := sub]}) ∧
  chans r.1 !! sub = Some (mkChan (take 100 (CachedData t)) 100 false) ∧
  ((length (CachedData t) ≤ 100)%nat → take 100 (CachedData t) = CachedData t) ∧
  (∀ acts, Forall (streams taskID j i out) acts →
     ∃ L, L `sublist_of` held pl ++ buf ch ++ sent acts ∧
          delivered (run acts r.1) out
            `prefix_of` delivered w out ++ take 100 (CachedData t) ++ L ∧
          ∀ k, (3 * (length (take 100 (CachedData t)) + length L) + 2 ≤ k)%nat →
               delivered (run (acts ++ drain tnow i out k) r.1) out
               = delivered w out ++ take 100 (CachedData t) ++ L) ∧
  (pl = PListen l actx → buf ch = [] → closed ch = false → (0 < cap ch)%nat →
   (length (take 100 (CachedData t)) + length ys ≤ 100)%nat →
   ∀ k, (length (take 100 (CachedData t)) + length ys < k)%nat →
     delivered
       (run (live_rounds tnow uctx taskID j ys ++ drain tnow i out k) r.1) out
     = delivered w out ++ take 100 (CachedData t) ++ ys).
Proof.
  intros Hf Hexp Hrun Hsubs Hctx Hdc Hq Hj Hpl. cbv zeta.
  unfold ExecuteWithSSE. rewrite Hf.
  apply findTask_Some in Hf as (_ & Hl & Ht & _).
  rewrite (proj2 (Z.ltb_ge _ _)) by lia.
  rewrite bool_decide_eq_false_2 by (rewrite Hrun; naive_solver).
  destruct (attach_live now pick ctx l taskID sid f d w t Ht Hctx)
    as (Hr & Ht' & Hcd' & Hac' & Hrc' & Hst' & Hp' & Hch').
  set (r := attach now pick ctx false l taskID sid f d w) in *.
  assert (dc < length (chans w))%nat as Hdclt by by eapply lookup_lt_Some.
  assert (j < length (procs w))%nat as Hjlt by by eapply lookup_lt_Some.
  assert (chans r.1 !! length (chans w)
          = Some (mkChan (take 100 (CachedData t)) 100 false)) as Hsub.
  { rewrite Hch', lookup_app_r, Nat.sub_diag by lia. done. }
  assert (chans r.1 !! S (length (chans w)) = Some (mkChan [] 100 false)) as Hout.
  { rewrite Hch', lookup_app_r by lia.
    by replace (S (length (chans w)) - length (chans w))%nat with 1%nat by lia. }
  assert (∃ t', store r.1 !! l = Some t' ∧ CachedData t' = [] ∧
                Subscribers t' = {[sid := length (chans w)]} ∧
                Status t' = TaskStatusRunning ∧ DataChannel t' = Some dc)
    as (t' & Hst & Hcd & Hsb & Hrn & Hdc').
  { eexists. split; [by rewrite Hst', list_lookup_alter_eq, Ht|].
    simpl. by rewrite Hsubs, insert_empty. }
  assert (ctx_err r.1 ctx = None) as Hctx'.
  { destruct ctx; simpl in *; by rewrite ?Hcd', ?Hac'. }
  assert (streaming taskID l sid (length (chans w)) (S (length (chans w))) dc
            j (length (procs w)) ctx r.1
            (PForwardStart ctx l sid (length (chans w)) (S (length (chans w))))
            pl (take 100 (CachedData t)) [] ch) as Hinv.
  { split_and!; try lia; try done.
    - by rewrite Ht'.
    - by exists t'.
    - by rewrite Hch', lookup_app_l.
    - rewrite Hp'. apply lookup_snoc.
    - by left.
    - by rewrite Hp', lookup_app_l.
    - by apply before_snapshot_listening. }
  split_and!.
  - done.
  - by exists t'.
  - done.
  - intros Hall. by apply take_ge.
  - intros acts Hacts.
    destruct (streamed_run taskID l sid (length (chans w)) (S (length (chans w)))
                dc j (length (procs w)) ctx acts r.1
                (delivered w (S (length (chans w))) ++ take 100 (CachedData t))
                (held pl ++ buf ch) Hacts)
      as (L & rest' & (pf & pl' & bs & bo & chr & Hinv' & Hpre & Hrest) & Hsl & Hd).
    { eexists _, _, _, _, _. split_and!; [exact Hinv| |done].
      unfold delivered. by rewrite Hrc'. }
    exists L. split_and!.
    + rewrite (assoc _ (held pl)). etrans; [|exact Hsl].
      by apply sublist_inserts_r.
    + rewrite (assoc _ (delivered w _)), Hpre. by eexists.
    + intros k Hk. rewrite run_app.
      rewrite (drain_streaming taskID l sid _ _ dc j _ ctx tnow k _ _ _ _ _ _ Hinv').
      * by rewrite <- Hpre, <- app_assoc.
      * apply (f_equal length) in Hpre. rewrite !length_app in Hpre.
        unfold delivered in Hd at 1. rewrite Hrc' in Hd.
        fold (delivered w (S (length (chans w)))) in Hd.
        pose proof Hinv' as (_ & _ & _ & _ & _ & _ & Hfw & _).
        destruct Hfw as [->|[->|[->|[x ->]]]]; simpl in *; lia.
  - intros -> Hbuf Hopen Hcap Hlen k Hk. rewrite run_app.
    assert (attached r.1 taskID l sid (length (chans w)) (S (length (chans w))) dc
              j (length (procs w)) actx ctx (take 100 (CachedData t))) as Hat.
    { split_and!; try lia; try done.
      - by rewrite Ht'.
      - by exists t'.
      - exists (cap ch). split; [|done]. rewrite Hch', lookup_app_l, Hq by done.
        destruct ch; simpl in *; by subst.
      - by rewrite Hp', lookup_app_l.
      - rewrite Hp'. apply lookup_snoc. }
    destruct (live_rounds_attached tnow uctx taskID l sid (length (chans w))
                (S (length (chans w))) dc j (length (procs w)) actx ctx
                (take 100 (CachedData t)) ys r.1 Hat Hlen) as [Hat' Hrecv].
    destruct k as [|k]; [lia|]. rewrite drain_S, run_app.
    pose proof (drain_start tnow _ _ _ _ _ _ _ _ _ _ _ _ Hat') as Hdr.
    rewrite (drain_all tnow _ _ _ _ _ _ k _ _ _ Hdr) by (rewrite length_app; lia).
    unfold delivered. by rewrite Hrecv, Hrc'.
Qed.

End Resume.

(** * A panicking work function *)

(** The runner's step on a panicking work function, in any manager:
    the registry, the records and the channels are not touched. *)
Lemma runner_panic_step {payload} now pick i ctx actx taskID (w : World payload) :
  procs w !! i = Some (PRunner ctx actx taskID WPanic) →
  let w' := step (AProc now pick i) w in
  tasks w' = tasks w ∧ store w' = store w ∧ chans w' = chans w ∧
  procs w' = <[i := PDone]> (procs w).
Proof.
  intros Hp. simpl. unfold step_proc. rewrite Hp. simpl.
  unfold cancel_async. destruct (actxs w !! actx) as [[d [e|]]|]; done.
Qed.

(** The sibling path: when the work function returns an error, the
    same step does complete the task as failed. *)
Lemma runner_error_step {payload} now pick i ctx actx taskID e
    (w : World payload) l t :
  procs w !! i = Some (PRunner ctx actx taskID (WReturn (Some e))) →
  tasks w !! taskID = Some l →
  store w !! l = Some t →
  store (step (AProc now pick i) w) !! l
  = Some (completed now TaskStatusFailed t).
Proof.
  intros Hp Hl Ht. cbn [step]. unfold step_proc. rewrite Hp. simpl.
  unfold step_runner, runner_body. simpl.
  destruct (cancel_async_frame actx (CompleteTask now ctx taskID TaskStatusFailed w))
    as (-> & _).
  erewrite CompleteTask_store by done.
  apply list_lookup_insert_eq. by eapply lookup_lt_Some.
Qed.

(** C1. On a fresh manager, a task whose work function panics: the
    call succeeds, the runner ends, and after every goroutine has run
    as far as it can the task is still reported running, its subscriber
    queue and output channel are open, and no goroutine can move. *)
Theorem C1_panicking_work_leaves_task_running :
  panic_start.2 = Returns (Some 2%nat, "task_1000", None) ∧
  procs panic_run
    = [PDone; PDone; PForward (CallerCtx 0) 0 "client_001" 1 2] ∧
  (∃ info, GetTaskInfo "task_1000" panic_run = inl info ∧
           Status info = TaskStatusRunning) ∧
  closed <$> chans panic_run !! 1%nat = Some false ∧
  closed <$> chans panic_run !! 2%nat = Some false ∧
  (∀ now pick i, step_proc now pick i panic_run = None).
Proof.
  split_and!.
  - by vm_compute.
  - by vm_compute.
  - eexists. split; [by vm_compute|done].
  - by vm_compute.
  - by vm_compute.
  - intros now pick i. destruct i as [|[|[|i]]]; by vm_compute.
Qed.

(** * Counterexamples to the claims as stated *)

(** C2, counterexample. On a new manager a call with the resume key
    [resume_999], which no record carries, returns no error. *)
Lemma C2_counterexample :
  ¬ (∀ (w : World nat) now pick ctx key sid f d,
       key ≠ "" →
       (∀ id l t, tasks w !! id = Some l → store w !! l = Some t →
                  ResumeKey t ≠ key) →
       ∃ e, (ExecuteWithSSE now pick ctx key sid f d w).2
            = Returns (None, "", Some e) ∧
            (e = ErrTaskExpired ∨ e = ErrTaskNotRunning)).
Proof.
  intros H.
  destruct (H fresh_manager clock no_pick (CallerCtx 0) "resume_999"
              "client_001" idle_work 0) as (e & He & _).
  - done.
  - intros id l t Hl. simpl in Hl. by rewrite lookup_empty in Hl.
  - vm_compute in He. discriminate.
Qed.

(** C3, counterexample. [CompleteTask] for [completed] and then for
    [failed]: the record ends up [failed]. *)
Lemma C3_counterexample :
  ¬ (∀ (w : World nat) taskID now1 ctx1 s1 now2 ctx2 s2 info1,
       GetTaskInfo taskID (CompleteTask now1 ctx1 taskID s1 w) = inl info1 →
       Status info1 ≠ TaskStatusRunning →
       ∃ info2,
         GetTaskInfo taskID
           (CompleteTask now2 ctx2 taskID s2 (CompleteTask now1 ctx1 taskID s1 w))
         = inl info2 ∧
         Status info2 = Status info1).
Proof.
  intros H.
  eassert (GetTaskInfo "task_1000"
             (CompleteTask 2000 (CallerCtx 0) "task_1000" TaskStatusCompleted
                w_created) = inl _) as E1 by (vm_compute; reflexivity).
  destruct (H w_created "task_1000" 2000 (CallerCtx 0) TaskStatusCompleted
              3000 (CallerCtx 0) TaskStatusFailed _ E1) as (info2 & E2 & Hs).
  - simpl. discriminate.
  - vm_compute in E2. injection E2 as <-. simpl in Hs. discriminate.
Qed.

(** C4, counterexample. 101 payloads are buffered, a client resumes
    under a live context and reads until nothing is left: it has read
    the first 100. *)
Lemma C4_counterexample :
  ¬ (∀ (w : World nat) now pick ctx key sid f d taskID l t k,
       findTask w key = Some (taskID, l, t) →
       ¬ ExpiresAt t < now 0%nat →
       Status t = TaskStatusRunning →
       Subscribers t = ∅ →
       ctx_err w ctx = None →
       (length (CachedData t) < k)%nat →
       delivered
         (run (drain 2000 (length (procs w)) (S (length (chans w))) k)
            (ExecuteWithSSE now pick ctx key sid f d w).1)
         (S (length (chans w)))
       = delivered w (S (length (chans w))) ++ CachedData t).
Proof.
  intros H.
  eassert (findTask (w_backlog (seq 1 101)) "resume_1001" = Some (_, _, _))
    as Hf by (vm_compute; reflexivity).
  specialize (H (w_backlog (seq 1 101)) clock2 no_pick (CallerCtx 1)
                "resume_1001" "client_002" idle_work 0 _ _ _ 200%nat Hf).
  apply (f_equal length) in H.
  - vm_compute in H. discriminate H.
  - vm_compute. intros [=].
  - reflexivity.
  - reflexivity.
  - vm_compute. reflexivity.
  - simpl. lia.
Qed.

(** C7. A client detaches, one payload is buffered, and a second
    client resumes under a context that is already done: the call
    returns that context's error, starts no goroutine, and leaves the
    record with the buffered payload and with the subscriber queue it
    had registered. The record has both, and nothing is left that
    would remove the subscriber. *)
Theorem C7_failed_attach_leaves_both :
  (ExecuteWithSSE clock2 always_pick (CallerCtx 1) "resume_1001" "client_002"
     idle_work 0 (cancel_caller 1 (w_backlog [5%nat]))).2
  = Returns (None, "", Some (ErrContext Canceled)) ∧
  run failed_resume fresh_manager
  = (ExecuteWithSSE clock2 always_pick (CallerCtx 1) "resume_1001" "client_002"
       idle_work 0 (cancel_caller 1 (w_backlog [5%nat]))).1 ∧
  procs (run failed_resume fresh_manager)
  = procs (cancel_caller 1 (w_backlog [5%nat])) ∧
  ∃ t, store (run failed_resume fresh_manager) !! 0%nat = Some t ∧
       CachedData t = [5%nat] ∧
       Subscribers t = {["client_002" := 3%nat]} ∧
       ¬ (CachedData t = [] ∨ Subscribers t = ∅).
Proof.
  split_and!.
  - by vm_compute.
  - unfold failed_resume, w_backlog. rewrite !run_app. done.
  - unfold failed_resume, w_backlog. rewrite !run_app.
    by vm_compute.
  - eexists. split; [by vm_compute|]. split_and!.
    + done.
    + by vm_compute.
    + intros [Hc|Hs]; [discriminate Hc|].
      apply (f_equal (λ m : gmap string nat, m !! "client_002")) in Hs.
      vm_compute in Hs. discriminate.
Qed.

(** The same state is reached without any error when the second
    client attaches between the listener's snapshot and its append. *)
Lemma snapshot_race_leaves_both :
  ∃ t, store (run snapshot_race fresh_manager) !! 0%nat = Some t ∧
       CachedData t = [5%nat] ∧
       Subscribers t = {["client_002" := 3%nat]}.
Proof. eexists. split; [by vm_compute|]. split; [done|by vm_compute]. Qed.

(** A resume while the listener holds an empty snapshot: the flush
    puts the buffered [5] into the subscriber queue and clears the
    buffer, the listener then appends its [6] to the buffer, the new
    forwarder copies and replays that buffer first, and the caller
    reads [6] before [5]. *)
Lemma stale_snapshot_reorders :
  findTask w_stale_backlog "resume_1001"
  = Some ("task_1000", 0%nat,
          mkTaskInfo "task_1000" "resume_1001" TaskStatusRunning (Some 6%nat)
            [5%nat] 1002 2000 3600000001004 (Some 0%nat) ∅ true) ∧
  ctx_err w_stale_backlog (CallerCtx 1) = None ∧
  chans w_stale_backlog !! 0%nat = Some (mkChan [] 100 false) ∧
  procs w_stale_backlog !! 1%nat = Some (PListenGot 0 0 6%nat false ∅) ∧
  delivered
    (run ([AProc 3000 false 1] ++ drain 3000 3 4 3)
       (ExecuteWithSSE clock2 no_pick (CallerCtx 1) "resume_1001" "client_002"
          idle_work 0 w_stale_backlog).1) 4
  = [6%nat; 5%nat].
Proof. split_and!; vm_compute; reflexivity. Qed.

(** C8. The runner's [updateProgress] is bound to the context of the
    creating caller, so that caller's cancellation reaches the work
    function: the same two runner steps that leave the task running
    (and completed one step later) when the caller stays attached leave
    it failed, with its async context cancelled, when the caller has
    disconnected. And the teardown of a session goes by subscriber id:
    when a second client has attached under the id of the first, the
    first client's teardown removes the second client's registration,
    whose context is live and whose channels are open. *)
Theorem C8_caller_cancel_reaches_runner :
  (GetTaskInfo "task_1000" undisturbed_report
   = inl (mkTaskInfo "task_1000" "resume_1001" TaskStatusRunning (Some 5%nat)
            [] 1002 2000 3600000001004 None ∅ false) ∧
   ctx_err undisturbed_report (AsyncCtx 0) = None ∧
   (∃ info, GetTaskInfo "task_1000" (step (AProc 2000 true 0) undisturbed_report)
            = inl info ∧ Status info = TaskStatusCompleted)) ∧
  (ctx_err cancelled_report (CallerCtx 0) = Some Canceled ∧
   GetTaskInfo "task_1000" cancelled_report
   = inl (mkTaskInfo "task_1000" "resume_1001" TaskStatusFailed (Some 5%nat)
            [] 1002 2000 3600000001004 None ∅ false) ∧
   ctx_err cancelled_report (AsyncCtx 0) = Some Canceled ∧
   procs cancelled_report !! 0%nat = Some PDone) ∧
  ((∃ t, store shared_id_teardown !! 0%nat = Some t ∧ Subscribers t = ∅) ∧
   ctx_err shared_id_teardown (CallerCtx 1) = None ∧
   procs shared_id_teardown !! 3%nat
   = Some (PForwardStart (CallerCtx 1) 0 "client_001" 3 4) ∧
   chans shared_id_teardown !! 3%nat = Some (make_chan 100) ∧
   chans shared_id_teardown !! 4%nat = Some (make_chan 100)).
Proof.
  split_and!; try (vm_compute; reflexivity).
  - eexists. split; vm_compute; reflexivity.
  - eexists. split; vm_compute; reflexivity.
Qed.

(** * Instances of the theorems *)

Lemma w_created_task : tasks w_created = {["task_1000" := 0%nat]}.
Proof. by vm_compute. Qed.

Lemma w_created_store : store w_created = [created_record].
Proof. by vm_compute. Qed.



(** C6 at that manager, resumed after the record expired. *)
Lemma C6_witness :
  "resume_1001" ≠ "" ∧
  (∃ id l t, tasks w_created !! id = Some l ∧ store w_created !! l = Some t ∧
             ResumeKey t = "resume_1001") ∧
  ExecuteWithSSE clock_late no_pick (CallerCtx 1) "resume_1001" "client_002"
    idle_work 0 w_created
  = (w_created, Returns (None, "", Some ErrTaskExpired)).
Proof.
  assert ("resume_1001" ≠ "") as H1 by discriminate.
  assert (∃ id l t, tasks w_created !! id = Some l ∧
                    store w_created !! l = Some t ∧
                    ResumeKey t = "resume_1001") as H2.
  { exists "task_1000", 0%nat, created_record.
    rewrite w_created_task, w_created_store. done. }
  split_and!; [exact H1|exact H2|].
  apply (C6_expiry_hard_cutoff clock_late no_pick (CallerCtx 1) "resume_1001"
           "client_002" idle_work 0 w_created H1 H2).
  intros id l t Hl Ht _. rewrite w_created_task in Hl.
  apply lookup_singleton_Some in Hl as [_ <-].
  rewrite w_created_store in Ht. injection Ht as <-. reflexivity.
Defined.

(** The forwarder of the first client, its caller cancelled. *)
Lemma caller_cancel_forwarder_frame_instance :
  procs w_created !! 2%nat = Some (PForwardStart (CallerCtx 0) 0 "client_001" 1 2) ∧
  forwarder (payload:=nat) (CallerCtx 0) 0 "client_001" 1 2
    (PForwardStart (CallerCtx 0) 0 "client_001" 1 2) ∧
  is_Some (store w_created !! 0%nat) ∧
  is_Some (chans w_created !! 2%nat) ∧
  (∀ picks taskID,
     GetTaskInfo taskID (run (proc_steps 2000 2 picks) (cancel_caller 0 w_created))
     = GetTaskInfo taskID w_created) ∧
  procs (run (proc_steps 2000 2 [true; true; true]) (cancel_caller 0 w_created))
    !! 2%nat = Some PDone.
Proof.
  assert (procs w_created !! 2%nat
          = Some (PForwardStart (CallerCtx 0) 0 "client_001" 1 2)) as H1
    by (vm_compute; reflexivity).
  assert (is_Some (store w_created !! 0%nat)) as H3
    by (rewrite w_created_store; eexists; reflexivity).
  assert (is_Some (chans w_created !! 2%nat)) as H4
    by (eexists; vm_compute; reflexivity).
  destruct (caller_cancel_forwarder_frame 2000 2 0 0 "client_001" 1 2 _ w_created
              H1 (fw_start _ _ _ _ _) H3 H4) as (_ & Hany & Hexit & _).
  split_and!; [exact H1|constructor|exact H3|exact H4| |exact Hexit].
  intros picks taskID. apply Hany.
Defined.


(** C2 at the manager that holds [task_1000], for a key nobody carries
    and a call that reads the clock value of the first call again: no
    error, and the registry entry of [task_1000] now points to the new
    record. *)
Lemma C2_witness :
  "resume_999" ≠ "" ∧
  (∀ id l t, tasks w_created !! id = Some l → store w_created !! l = Some t →
             ResumeKey t ≠ "resume_999") ∧
  (ExecuteWithSSE clock no_pick (CallerCtx 1) "resume_999" "client_002"
     idle_work 0 w_created).2
  = Returns (Some (S (S (length (chans w_created)))),
             "task_" +:+ pretty (clock 0%nat), None) ∧
  tasks (ExecuteWithSSE clock no_pick (CallerCtx 1) "resume_999" "client_002"
           idle_work 0 w_created).1
  = <["task_" +:+ pretty (clock 0%nat) := length (store w_created)]>
      (tasks w_created).
Proof.
  assert ("resume_999" ≠ "") as H1 by discriminate.
  assert (∀ id l t, tasks w_created !! id = Some l →
                    store w_created !! l = Some t →
                    ResumeKey t ≠ "resume_999") as H2.
  { intros id l t Hl Ht. rewrite w_created_task in Hl.
    apply lookup_singleton_Some in Hl as [_ <-].
    rewrite w_created_store in Ht. injection Ht as <-. discriminate. }
  split_and!; [exact H1|exact H2| |].
  - destruct (C2_resume_key_outcomes clock no_pick (CallerCtx 1) "resume_999"
                "client_002" idle_work 0 w_created H1) as (_ & _ & H).
    destruct (H H2) as (Hr & _). rewrite Hr. reflexivity.
  - destruct (C2_resume_key_outcomes clock no_pick (CallerCtx 1) "resume_999"
                "client_002" idle_work 0 w_created H1) as (_ & _ & H).
    destruct (H H2) as (_ & Ht & _). exact Ht.
Defined.

(** C3 for [completed] followed by [failed]. *)
Lemma C3_witness :
  tasks w_created !! "task_1000" = Some 0%nat ∧
  store w_created !! 0%nat = Some created_record ∧
  ∃ info,
    GetTaskInfo "task_1000"
      (complete_all "task_1000"
         ([(2000, CallerCtx 0, TaskStatusCompleted)]
          ++ [(3000, CallerCtx 0, TaskStatusFailed)]) w_created)
    = inl info ∧
    Status info = TaskStatusFailed.
Proof.
  assert (tasks w_created !! "task_1000" = Some 0%nat) as H1
    by (vm_compute; reflexivity).
  assert (store w_created !! 0%nat = Some created_record) as H2
    by (vm_compute; reflexivity).
  split_and!; [exact H1|exact H2|].
  exact (proj2 (proj2 (C3_CompleteTask_last_call_wins "task_1000"
                         [(2000, CallerCtx 0, TaskStatusCompleted)]
                         3000 (CallerCtx 0) TaskStatusFailed
                         w_created 0%nat created_record H1 H2))).
Defined.

(** C4 for two buffered payloads and one live update. *)
Lemma C4_witness :
  findTask (w_backlog [5%nat; 6%nat]) "resume_1001"
  = Some ("task_1000", 0%nat, backlog_record [5%nat; 6%nat]) ∧
  ctx_err (w_backlog [5%nat; 6%nat]) (CallerCtx 1) = None ∧
  chans (w_backlog [5%nat; 6%nat]) !! 0%nat = Some (mkChan [] 100 false) ∧
  procs (w_backlog [5%nat; 6%nat]) !! 1%nat = Some (PListen 0 0) ∧
  Forall (streams "task_1000" 1 (length (procs (w_backlog [5%nat; 6%nat])))
            (S (length (chans (w_backlog [5%nat; 6%nat])))))
    interleaved_update ∧
  (∃ L, L `sublist_of` [] ++ [] ++ sent interleaved_update ∧
        delivered
          (run interleaved_update
             (ExecuteWithSSE clock2 no_pick (CallerCtx 1) "resume_1001"
                "client_002" idle_work 0 (w_backlog [5%nat; 6%nat])).1)
          (S (length (chans (w_backlog [5%nat; 6%nat]))))
        `prefix_of`
          delivered (w_backlog [5%nat; 6%nat])
            (S (length (chans (w_backlog [5%nat; 6%nat]))))
          ++ [5%nat; 6%nat] ++ L) ∧
  delivered
    (run (live_rounds 3000 (AsyncCtx 0) "task_1000" 1 [7%nat]
          ++ drain 3000 (length (procs (w_backlog [5%nat; 6%nat])))
               (S (length (chans (w_backlog [5%nat; 6%nat])))) 4)
       (ExecuteWithSSE clock2 no_pick (CallerCtx 1) "resume_1001" "client_002"
          idle_work 0 (w_backlog [5%nat; 6%nat])).1)
    (S (length (chans (w_backlog [5%nat; 6%nat]))))
  = delivered (w_backlog [5%nat; 6%nat])
      (S (length (chans (w_backlog [5%nat; 6%nat]))))
    ++ [5%nat; 6%nat] ++ [7%nat].
Proof.
  assert (findTask (w_backlog [5%nat; 6%nat]) "resume_1001"
          = Some ("task_1000", 0%nat, backlog_record [5%nat; 6%nat])) as H1
    by (vm_compute; reflexivity).
  assert (¬ ExpiresAt (backlog_record [5%nat; 6%nat]) < clock2 0) as H2
    by (vm_compute; intros [=]).
  assert (ctx_err (w_backlog [5%nat; 6%nat]) (CallerCtx 1) = None) as H6
    by (vm_compute; reflexivity).
  assert (chans (w_backlog [5%nat; 6%nat]) !! 0%nat = Some (mkChan [] 100 false))
    as H8 by (vm_compute; reflexivity).
  assert (procs (w_backlog [5%nat; 6%nat]) !! 1%nat = Some (PListen 0 0)) as H10
    by (vm_compute; reflexivity).
  assert (length (take 100 (CachedData (backlog_record [5%nat; 6%nat])))
          + length [7%nat] ≤ 100)%nat as H5 by (simpl; lia).
  assert (0 < 100)%nat as H9 by lia.
  assert (length (take 100 (CachedData (backlog_record [5%nat; 6%nat])))
          + length [7%nat] < 4)%nat as Hk by (simpl; lia).
  assert (Forall (streams "task_1000" 1 (length (procs (w_backlog [5%nat; 6%nat])))
                    (S (length (chans (w_backlog [5%nat; 6%nat])))))
            interleaved_update) as Ha.
  { unfold interleaved_update.
    repeat (constructor; [vm_compute; auto|]). constructor. }
  pose proof (C4_resume_delivers_backlog_first clock2 3000 no_pick (CallerCtx 1)
                (AsyncCtx 0) "resume_1001" "client_002" idle_work 0
                (w_backlog [5%nat; 6%nat]) "task_1000" 0%nat
                (backlog_record [5%nat; 6%nat]) 0%nat (mkChan [] 100 false) 1%nat
                (PListen 0 0) 0%nat [7%nat]
                H1 H2 eq_refl eq_refl H6 eq_refl H8 H10 eq_refl)
    as (_ & _ & _ & _ & Hall & Hlive).
  split_and!; [exact H1|exact H6|exact H8|exact H10|exact Ha| |].
  - destruct (Hall interleaved_update Ha) as (L & HL & Hpre & _).
    exists L. split; [exact HL|exact Hpre].
  - exact (Hlive eq_refl eq_refl eq_refl H9 H5 4%nat Hk).
Defined.

(** A run with a detach, a buffered update and a resume that keeps the
    invariant. *)
Lemma clean_resume_keeps_invariant :
  runs_cleanly clean_resume (NewSSEManager hour) ∧
  ∀ l t, store (run clean_resume (NewSSEManager hour)) !! l = Some t →
         CachedData t = [] ∨ Subscribers t = ∅.
Proof.
  assert (runs_cleanly clean_resume (NewSSEManager hour)) as Hok.
  { unfold clean_resume. cbn [runs_cleanly attaches_cleanly].
    split_and!; try exact I.
    - intros e. vm_compute. discriminate.
    - intros id l t i p Hf. vm_compute in Hf. discriminate.
    - intros e. vm_compute. discriminate.
    - intros id l t i p Hf Hp. vm_compute in Hf. injection Hf as <- <- <-.
      destruct i as [|[|[|i]]]; vm_compute in Hp; try discriminate;
        injection Hp as <-; intros (? & ? & ? & [=]). }
  split; [exact Hok|].
  exact (buffer_inv_clean_runs hour clean_resume Hok).
Qed.

(** * Further properties

    What the code does beyond the listed claims: the sweep, calls on
    one task in sequence, creation and resumption, invariants of every
    reachable manager, the listener and the runner, the package-level
    functions. *)

(** ** The sweep *)

Section Sweep.

Context {payload : Type}.
Implicit Types (w : World payload) (t : TaskInfo payload) (ch : Chan payload).

Lemma sweep_one_tasks now id l w :
  tasks (sweep_one now id l w)
  = if swept_at now (store w) l then delete id (tasks w) else tasks w.
Proof.
  unfold sweep_one, swept_at. destruct (store w !! l) as [t|]; [|done].
  destruct (_ || _); [|done].
  rewrite close_all_tasks. by destruct (DataChannel t).
Qed.

Lemma sweep_fold now w (m : gmap string loc) :
  store (map_fold (sweep_one now) w m) = store w ∧
  ∀ id, tasks (map_fold (sweep_one now) w m) !! id
        = match m !! id with
          | Some l => if swept_at now (store w) l then None else tasks w !! id
          | None => tasks w !! id
          end.
Proof.
  apply (map_fold_weak_ind
           (λ r m, store r = store w ∧
                   ∀ id, tasks r !! id
                         = match m !! id with
                           | Some l => if swept_at now (store w) l then None
                                       else tasks w !! id
                           | None => tasks w !! id
                           end)).
  - split; [done|]. intros k. by rewrite lookup_empty.
  - intros i x m' r Hi [Hst IH]. split.
    { rewrite <- Hst. apply sweep_one_frame. }
    intros k. rewrite sweep_one_tasks, Hst.
    destruct (decide (k = i)) as [->|Hne].
    + rewrite lookup_insert_eq.
      destruct (swept_at now (store w) x).
      * by rewrite lookup_delete_eq.
      * by rewrite IH, Hi.
    + rewrite lookup_insert_ne by done.
      destruct (swept_at now (store w) x); [rewrite lookup_delete_ne by done|];
        apply IH.
Qed.

Lemma cleanup_lookup now w id :
  tasks (cleanupExpiredTasks now w) !! id
  = l ← tasks w !! id; if swept_at now (store w) l then None else Some l.
Proof.
  unfold cleanupExpiredTasks.
  rewrite (proj2 (sweep_fold now w (tasks w))).
  by destruct (tasks w !! id).
Qed.

Lemma swept_at_false now w l t :
  store w !! l = Some t →
  swept_at now (store w) l = false ↔
  ¬ ExpiresAt t < now ∧ Status t = TaskStatusRunning.
Proof.
  intros Ht. unfold swept_at. rewrite Ht.
  rewrite orb_false_iff, Z.ltb_ge, bool_decide_eq_false.
  split; intros [H1 H2]; (split; [lia|]).
  - by destruct (decide (Status t = TaskStatusRunning)).
  - by intros ?.
Qed.

(** X1. One tick of the sweep keeps exactly the registry entries whose
    record has not expired and is still running; it removes every other
    entry and adds none. *)
Theorem cleanup_keeps_running_unexpired now w id l :
  registry_ok w →
  tasks (cleanupExpiredTasks now w) !! id = Some l ↔
  tasks w !! id = Some l ∧
  ∃ t, store w !! l = Some t ∧ ¬ ExpiresAt t < now ∧
       Status t = TaskStatusRunning.
Proof.
  intros Hok. rewrite cleanup_lookup.
  destruct (tasks w !! id) as [l'|] eqn:Hl; simpl.
  - destruct (lookup_lt_is_Some_2 (store w) l') as [t Ht].
    { by apply Hok in Hl. }
    pose proof (swept_at_false now w l' t Ht) as Hs.
    destruct (swept_at now (store w) l').
    + split; [done|]. intros [[= ->] (t' & Ht' & H1 & H2)].
      simplify_eq. by assert (true = false) by (apply Hs; done).
    + split.
      * intros [= ->]. split; [done|]. exists t. split; [done|]. by apply Hs.
      * by intros [[= ->] _].
  - split; [done|]. by intros [? _].
Qed.


Lemma swept_at_true now w l t :
  store w !! l = Some t →
  ExpiresAt t < now ∨ Status t ≠ TaskStatusRunning →
  swept_at now (store w) l = true.
Proof.
  intros Ht H. destruct (swept_at now (store w) l) eqn:Hs; [done|].
  apply (swept_at_false now w l t Ht) in Hs as [H1 H2]. by destruct H.
Qed.

(** X2. A record the sweep removes is unknown from then on: the status
    query and [UpdateProgress] return [ErrTaskNotFound], [CompleteTask]
    does nothing, and the record itself is left as it was, so an expired
    task that was running never gets a terminal status. *)
Theorem cleanup_forgets_swept_task now w id l t :
  tasks w !! id = Some l →
  store w !! l = Some t →
  ExpiresAt t < now ∨ Status t ≠ TaskStatusRunning →
  let w' := cleanupExpiredTasks now w in
  GetTaskInfo id w' = inr ErrTaskNotFound ∧
  (∀ n pick ctx data,
     UpdateProgress n pick ctx id data w' = (w', Returns (Some ErrTaskNotFound))) ∧
  (∀ n ctx status, CompleteTask n ctx id status w' = w') ∧
  store w' !! l = Some t.
Proof.
  intros Hl Ht Hsw w'.
  assert (tasks w' !! id = None) as Hnone.
  { subst w'. rewrite cleanup_lookup, Hl. simpl.
    by rewrite (swept_at_true now w l t). }
  assert (lookup_task w' id = None) as Hlk.
  { unfold lookup_task. by rewrite Hnone. }
  split_and!.
  - unfold GetTaskInfo. by rewrite Hlk.
  - intros. unfold UpdateProgress. by rewrite Hlk.
  - intros. by apply CompleteTask_unknown.
  - subst w'. by destruct (cleanupTick_frame now w) as [-> _].
Qed.

(** X3. Resuming after the sweep: once every record that carries the
    key has expired or left the running state, a tick removes them, and
    a later call with that key is not refused but creates a new task. *)
Theorem resume_after_cleanup_creates now nows pick ctx key sid f d w :
  (∀ id l t, tasks w !! id = Some l → store w !! l = Some t →
             ResumeKey t = key →
             ExpiresAt t < now ∨ Status t ≠ TaskStatusRunning) →
  let w' := cleanupExpiredTasks now w in
  ExecuteWithSSE nows pick ctx key sid f d w'
  = (created nows ctx sid f d w',
     Returns (Some (S (S (length (chans w')))),
              "task_" +:+ pretty (nows 0%nat), None)).
Proof.
  intros Hall w'. apply ExecuteWithSSE_new, findTask_unmatched.
  intros id l t Hl Ht Hk. subst w'.
  destruct (cleanupTick_frame now w) as [Hst _]. rewrite Hst in Ht.
  rewrite cleanup_lookup in Hl.
  destruct (tasks w !! id) as [l'|] eqn:Hl'; [|done]. simpl in Hl.
  destruct (swept_at now (store w) l') eqn:Hs; [done|]. simplify_eq.
  by rewrite (swept_at_true now w l t Ht (Hall _ _ _ Hl' Ht eq_refl)) in Hs.
Qed.

Lemma closes_refl ch : closes ch ch.
Proof. by repeat split. Qed.

Lemma closes_trans ch1 ch2 ch3 : closes ch1 ch2 → closes ch2 ch3 → closes ch1 ch3.
Proof.
  intros (?&?&?) (?&?&?). repeat split; [congruence..|auto].
Qed.

Lemma chans_closes_refl (cs : list (Chan payload)) : Forall2 closes cs cs.
Proof. apply Forall2_same_length_lookup_2; [done|]. intros ??? ? ?. simplify_eq. apply closes_refl. Qed.

Lemma chans_closes_trans (cs1 cs2 cs3 : list (Chan payload)) :
  Forall2 closes cs1 cs2 → Forall2 closes cs2 cs3 → Forall2 closes cs1 cs3.
Proof.
  intros H12 H23. apply Forall2_same_length_lookup_2.
  - by rewrite (Forall2_length _ _ _ H12), (Forall2_length _ _ _ H23).
  - intros i x z Hx Hz.
    destruct (Forall2_lookup_l _ _ _ _ _ H12 Hx) as (y & Hy & Hxy).
    pose proof (Forall2_lookup_lr _ _ _ _ _ _ H23 Hy Hz) as Hyz.
    by eapply closes_trans.
Qed.

Lemma safe_close_closes c w : Forall2 closes (chans w) (chans (safe_close c w)).
Proof.
  unfold safe_close, upd_chan. simpl.
  apply Forall2_same_length_lookup_2; [by rewrite length_alter|].
  intros k ch ch' H1 H2. destruct (decide (k = c)) as [->|Hne].
  - rewrite list_lookup_alter_eq, H1 in H2. simplify_eq/=. by repeat split.
  - rewrite list_lookup_alter_ne, H1 in H2 by done. simplify_eq. apply closes_refl.
Qed.

Lemma safe_close_closed c w :
  is_Some (chans w !! c) → closed <$> chans (safe_close c w) !! c = Some true.
Proof.
  intros [ch Hch]. unfold safe_close, upd_chan. simpl.
  by rewrite list_lookup_alter_eq, Hch.
Qed.

Lemma closes_is_Some (cs cs' : list (Chan payload)) c :
  Forall2 closes cs cs' → is_Some (cs !! c) → is_Some (cs' !! c).
Proof.
  intros H [ch Hch]. apply lookup_lt_is_Some.
  rewrite <- (Forall2_length _ _ _ H). by eapply lookup_lt_Some.
Qed.

Lemma closed_mono (cs cs' : list (Chan payload)) c :
  Forall2 closes cs cs' →
  closed <$> cs !! c = Some true → closed <$> cs' !! c = Some true.
Proof.
  intros H Hc. destruct (cs !! c) as [ch|] eqn:Hch; [|done].
  destruct (Forall2_lookup_l _ _ _ _ _ H Hch) as (ch' & -> & (_ & _ & Hcl)).
  simpl in *. f_equal. apply Hcl. by simplify_eq.
Qed.

Lemma close_all_closes subs w :
  Forall2 closes (chans w) (chans (close_all subs w)) ∧
  ∀ k c, subs !! k = Some c → is_Some (chans w !! c) →
         closed <$> chans (close_all subs w) !! c = Some true.
Proof.
  unfold close_all.
  apply (map_fold_weak_ind
           (λ r (m : gmap string chanid),
              Forall2 closes (chans w) (chans r) ∧
              ∀ k c, m !! k = Some c → is_Some (chans w !! c) →
                     closed <$> chans r !! c = Some true)).
  - split; [apply chans_closes_refl|]. intros k c. by rewrite lookup_empty.
  - intros i x m r Hi [Hcl IH]. split.
    + eapply chans_closes_trans; [exact Hcl|apply safe_close_closes].
    + intros k c Hk Hc. destruct (decide (k = i)) as [->|Hne].
      * rewrite lookup_insert_eq in Hk. simplify_eq.
        apply safe_close_closed. by eapply closes_is_Some.
      * rewrite lookup_insert_ne in Hk by done.
        eapply closed_mono; [apply safe_close_closes|]. by eapply IH.
Qed.

Lemma sweep_one_closes now id l w :
  Forall2 closes (chans w) (chans (sweep_one now id l w)).
Proof.
  unfold sweep_one. destruct (store w !! l) as [t|]; [|apply chans_closes_refl].
  destruct (_ || _); [|apply chans_closes_refl].
  eapply chans_closes_trans; [|apply close_all_closes].
  destruct (DataChannel t) as [c|];
    [apply (safe_close_closes c (set_tasks _ w))|apply chans_closes_refl].
Qed.

Lemma sweep_one_closed now id l w t c :
  store w !! l = Some t →
  swept_at now (store w) l = true →
  DataChannel t = Some c ∨ (∃ sid, Subscribers t !! sid = Some c) →
  is_Some (chans w !! c) →
  closed <$> chans (sweep_one now id l w) !! c = Some true.
Proof.
  intros Ht Hs Hc Hsome. unfold swept_at in Hs. unfold sweep_one.
  rewrite Ht in Hs |- *. rewrite Hs.
  destruct Hc as [Hdc|[sid Hsid]].
  - rewrite Hdc. eapply closed_mono; [apply close_all_closes|].
    by apply safe_close_closed.
  - eapply (proj2 (close_all_closes _ _)); [exact Hsid|].
    destruct (DataChannel t); [|done].
    eapply closes_is_Some; [apply (safe_close_closes _ (set_tasks _ w))|done].
Qed.

Lemma sweep_fold_closes now w (m : gmap string loc) :
  store (map_fold (sweep_one now) w m) = store w ∧
  Forall2 closes (chans w) (chans (map_fold (sweep_one now) w m)) ∧
  ∀ id l t c,
    m !! id = Some l → store w !! l = Some t →
    swept_at now (store w) l = true →
    DataChannel t = Some c ∨ (∃ sid, Subscribers t !! sid = Some c) →
    is_Some (chans w !! c) →
    closed <$> chans (map_fold (sweep_one now) w m) !! c = Some true.
Proof.
  apply (map_fold_weak_ind
           (λ r (m : gmap string loc),
              store r = store w ∧
              Forall2 closes (chans w) (chans r) ∧
              ∀ id l t c,
                m !! id = Some l → store w !! l = Some t →
                swept_at now (store w) l = true →
                DataChannel t = Some c ∨ (∃ sid, Subscribers t !! sid = Some c) →
                is_Some (chans w !! c) →
                closed <$> chans r !! c = Some true)).
  - split_and!; [done|apply chans_closes_refl|]. intros ????. by rewrite lookup_empty.
  - intros i x m' r Hi (Hst & Hcl & IH). split_and!.
    + rewrite <- Hst. apply sweep_one_frame.
    + eapply chans_closes_trans; [exact Hcl|apply sweep_one_closes].
    + intros id l t c Hl Ht Hs Hc Hsome.
      destruct (decide (id = i)) as [->|Hne].
      * rewrite lookup_insert_eq in Hl. simplify_eq.
        eapply sweep_one_closed; [by rewrite Hst|by rewrite Hst|done|].
        by eapply closes_is_Some.
      * rewrite lookup_insert_ne in Hl by done.
        eapply closed_mono; [apply sweep_one_closes|]. by eapply IH.
Qed.

Lemma cleanup_closes now w :
  Forall2 closes (chans w) (chans (cleanupExpiredTasks now w)).
Proof. apply sweep_fold_closes. Qed.


End Sweep.

(** ** Calls on one task *)

Section Calls.

Context {payload : Type}.
Implicit Types (w : World payload) (t : TaskInfo payload) (ch : Chan payload).

Lemma GetTaskInfo_at w id l t :
  tasks w !! id = Some l → store w !! l = Some t →
  GetTaskInfo id w = inl (info_of t).
Proof.
  intros Hl Ht. unfold GetTaskInfo.
  by rewrite (proj2 (lookup_task_Some w id l t)).
Qed.

Lemma UpdateProgress_running now pick ctx id data w l t :
  tasks w !! id = Some l → store w !! l = Some t →
  Status t = TaskStatusRunning →
  tasks (UpdateProgress now pick ctx id data w).1 = tasks w ∧
  store (UpdateProgress now pick ctx id data w).1
  = alter (λ t, set_UpdatedAt now (set_Progress (Some data) t)) l (store w).
Proof.
  intros Hl Ht Hs. unfold UpdateProgress.
  rewrite (proj2 (lookup_task_Some w id l t)) by done.
  rewrite bool_decide_eq_false_2 by (by intros ?).
  destruct (select_send _ _ _); [destruct (DataChannel t)|..]; done.
Qed.

(** X5. Progress is last-write-wins and independent of delivery: after
    [UpdateProgress] on a running task the status query reports the
    payload of that call and its time, whatever the call returned
    (success, a full raw queue, the context's error, or a panic on a
    closed raw queue); the other metadata fields are as before. *)
Theorem UpdateProgress_then_GetTaskInfo now pick ctx id data w l t :
  tasks w !! id = Some l →
  store w !! l = Some t →
  Status t = TaskStatusRunning →
  GetTaskInfo id (UpdateProgress now pick ctx id data w).1
  = inl (mkTaskInfo (TaskID t) (ResumeKey t) TaskStatusRunning (Some data) []
           (CreatedAt t) now (ExpiresAt t) None ∅ false).
Proof.
  intros Hl Ht Hs.
  destruct (UpdateProgress_running now pick ctx id data w l t Hl Ht Hs)
    as [Htk Hst].
  rewrite (GetTaskInfo_at _ id l (set_UpdatedAt now (set_Progress (Some data) t))).
  - unfold info_of. simpl. by rewrite Hs.
  - by rewrite Htk.
  - by rewrite Hst, list_lookup_alter_eq, Ht.
Qed.

Lemma CompleteTask_lookup now ctx id status w l t :
  tasks w !! id = Some l → store w !! l = Some t →
  lookup_task (CompleteTask now ctx id status w) id
  = Some (l, completed now status t).
Proof.
  intros Hl Ht. apply lookup_task_Some. split.
  - by rewrite CompleteTask_tasks.
  - rewrite (CompleteTask_store _ _ _ _ _ l t) by done.
    apply list_lookup_insert_eq. by eapply lookup_lt_Some.
Qed.

(** X6. A task completed with a terminal status takes no more updates
    and cannot be resumed: [UpdateProgress] returns [ErrTaskNotRunning]
    and changes nothing, and a call with its resume key is refused with
    [ErrTaskExpired] if the record has expired and [ErrTaskNotRunning]
    otherwise, again without changing anything. *)
Theorem completed_task_rejects_calls now ctx id status w l t :
  tasks w !! id = Some l →
  store w !! l = Some t →
  status ≠ TaskStatusRunning →
  let w' := CompleteTask now ctx id status w in
  (∀ n pick c data,
     UpdateProgress n pick c id data w' = (w', Returns (Some ErrTaskNotRunning))) ∧
  (∀ nows pick c sid f d,
     ResumeKey t ≠ "" →
     (∀ id' l' t', tasks w !! id' = Some l' → store w !! l' = Some t' →
                   ResumeKey t' = ResumeKey t → l' = l) →
     ExecuteWithSSE nows pick c (ResumeKey t) sid f d w'
     = (w', Returns (None, "",
                     Some (if ExpiresAt t <? nows 0%nat then ErrTaskExpired
                           else ErrTaskNotRunning)))).
Proof.
  intros Hl Ht Hs w'. split.
  - intros. unfold UpdateProgress. subst w'.
    rewrite (CompleteTask_lookup _ _ _ _ _ l t) by done.
    by rewrite bool_decide_eq_true_2.
  - intros nows pick c sid f d Hkey Huniq.
    assert (store w' = <[l := completed now status t]> (store w)) as Hst
      by by apply CompleteTask_store.
    assert (tasks w' = tasks w) as Htk by apply CompleteTask_tasks.
    destruct (findTask_matched w' (ResumeKey t) id l (completed now status t))
      as (id' & l' & t' & Hf); [done|by rewrite Htk| |done|].
    { rewrite Hst. apply list_lookup_insert_eq. by eapply lookup_lt_Some. }
    unfold ExecuteWithSSE. rewrite Hf.
    apply findTask_Some in Hf as (_ & Hl' & Ht' & Hk').
    rewrite Htk in Hl'. rewrite Hst in Ht'.
    destruct (decide (l' = l)) as [->|Hne].
    + rewrite list_lookup_insert_eq in Ht' by by eapply lookup_lt_Some.
      simplify_eq. simpl. destruct (ExpiresAt t <? nows 0%nat); [done|].
      by rewrite bool_decide_eq_true_2.
    + rewrite list_lookup_insert_ne in Ht' by done.
      destruct Hne. by eapply Huniq.
Qed.

(** X7. [CompleteTask] closes and detaches the channels of a task once:
    a second call on the same task rewrites the status and the update
    time and changes nothing else (no channel, no goroutine, no other
    record). *)
Theorem CompleteTask_again_only_restamps now1 ctx1 s1 now2 ctx2 s2 id w l t :
  tasks w !! id = Some l →
  store w !! l = Some t →
  let w1 := CompleteTask now1 ctx1 id s1 w in
  CompleteTask now2 ctx2 id s2 w1
  = set_store (<[l := completed now2 s2 t]> (store w)) w1.
Proof.
  intros Hl Ht w1.
  assert (store w1 = <[l := completed now1 s1 t]> (store w)) as Hst
    by by apply CompleteTask_store.
  unfold CompleteTask at 1. subst w1.
  rewrite (CompleteTask_lookup _ _ _ _ _ l t) by done.
  cbn [completed DataChannel Subscribers set_Subscribers set_DataChannel].
  unfold close_all. rewrite map_fold_empty.
  unfold upd_task, set_store. simpl. f_equal.
  rewrite Hst. apply list_eq. intros k.
  destruct (decide (k = l)) as [->|Hne].
  - rewrite !list_lookup_alter_eq.
    rewrite !list_lookup_insert_eq by (rewrite ?length_insert; by eapply lookup_lt_Some).
    done.
  - rewrite !list_lookup_alter_ne by done.
    by rewrite !list_lookup_insert_ne by done.
Qed.

Lemma closes_closed ch ch' :
  closes ch ch' → closed ch' = true → ch' = mkChan (buf ch) (cap ch) true.
Proof. intros (?&?&?) ?. destruct ch'; simpl in *; by subst. Qed.

Lemma CompleteTask_closes now ctx id status w l t :
  tasks w !! id = Some l → store w !! l = Some t →
  let w' := CompleteTask now ctx id status w in
  Forall2 closes (chans w) (chans w') ∧
  ∀ c, DataChannel t = Some c ∨ (∃ sid, Subscribers t !! sid = Some c) →
       is_Some (chans w !! c) →
       closed <$> chans w' !! c = Some true.
Proof.
  intros Hl Ht w'. subst w'. unfold CompleteTask.
  rewrite (proj2 (lookup_task_Some w id l t)) by done.
  set (w3 := upd_task l (set_Subscribers ∅) _).
  assert (Forall2 closes (chans w) (chans w3)) as H3.
  { subst w3. destruct (DataChannel t) as [c|]; simpl.
    - exact (safe_close_closes c w).
    - apply chans_closes_refl. }
  destruct (close_all_closes (Subscribers t) w3) as [Hcl Hall].
  split; [by eapply chans_closes_trans|].
  intros c [Hdc|[sid Hsid]] Hsome.
  - eapply closed_mono; [exact Hcl|]. subst w3. rewrite Hdc. simpl.
    destruct Hsome as [ch Hch]. by rewrite list_lookup_alter_eq, Hch.
  - eapply Hall; [done|]. by eapply closes_is_Some.
Qed.

(** X8. [CompleteTask] ends the stream of every attached client: each
    subscriber queue of the task is closed with its queued values still
    in it, and a forwarder that finds its queue closed and empty ends at
    its next step, whichever [select] case is taken, closing the output
    channel the client ranges over. *)
Theorem CompleteTask_ends_forwarders now ctx id status w l t sid sub out ch
    i fctx nowp pick :
  tasks w !! id = Some l →
  store w !! l = Some t →
  Subscribers t !! sid = Some sub →
  chans w !! sub = Some ch →
  is_Some (chans w !! out) →
  procs w !! i = Some (PForward fctx l sid sub out) →
  let w1 := CompleteTask now ctx id status w in
  let w2 := step (AProc nowp pick i) w1 in
  chans w1 !! sub = Some (mkChan (buf ch) (cap ch) true) ∧
  (buf ch = [] →
   procs w2 !! i = Some PDone ∧ closed <$> chans w2 !! out = Some true).
Proof.
  intros Hl Ht Hsid Hch Hout Hp w1 w2.
  destruct (CompleteTask_closes now ctx id status w l t Hl Ht) as [Hcl Hall].
  fold w1 in Hcl, Hall.
  assert (chans w1 !! sub = Some (mkChan (buf ch) (cap ch) true)) as Hsub.
  { destruct (Forall2_lookup_l _ _ _ _ _ Hcl Hch) as (ch' & Hch' & Hc).
    rewrite Hch'. f_equal. apply closes_closed; [done|].
    specialize (Hall sub (or_intror (ex_intro _ sid Hsid)) (mk_is_Some _ _ Hch)).
    rewrite Hch' in Hall. by simplify_eq/=. }
  split; [done|]. intros Hnil.
  assert (procs w1 = procs w) as Hpr by apply CompleteTask_frame.
  assert (step_proc nowp pick i w1 = Some (forward_exit i l sid sub out w1)) as Hstep.
  { unfold step_proc. rewrite Hpr, Hp. simpl. rewrite Hsub, Hnil. simpl.
    destruct (ctx_err w1 fctx); [destruct pick|]; done. }
  subst w2. simpl. rewrite Hstep. simpl.
  destruct (forward_exit_result i l sid sub out (PForward fctx l sid sub out) w1)
    as (H1 & H2 & _).
  - by rewrite Hpr.
  - by eapply closes_is_Some.
  - apply lookup_lt_is_Some. unfold w1.
    rewrite (proj2 (CompleteTask_registry now ctx id status w)).
    by eapply lookup_lt_Some.
  - done.
Qed.

End Calls.

(** ** Creating and resuming *)

Section Attach.

Context {payload : Type}.
Implicit Types (w : World payload) (t : TaskInfo payload) (ch : Chan payload).

(** X9. A call with an empty resume key never looks for a task and
    never fails: it creates a running record that expires one TTL after
    the call, starts exactly a runner, a listener and a forwarder, and
    leaves the status of every other task id as it was. *)
Theorem empty_key_creates_task now pick ctx sid f d w :
  registry_ok w →
  let r := ExecuteWithSSE now pick ctx "" sid f d w in
  let taskID := "task_" +:+ pretty (now 0%nat) in
  r.2 = Returns (Some (S (S (length (chans w)))), taskID, None) ∧
  GetTaskInfo taskID r.1
  = inl (mkTaskInfo taskID ("resume_" +:+ pretty (now 1%nat))
           TaskStatusRunning None [] (now 2%nat) (now 3%nat)
           (now 4%nat + defaultTTL w) None ∅ false) ∧
  procs r.1
  = procs w ++ [PRunner ctx (length (actxs w)) taskID (f taskID);
                PListen (length (store w)) (length (actxs w));
                PForwardStart ctx (length (store w)) sid
                  (S (length (chans w))) (S (S (length (chans w))))] ∧
  ∀ id, id ≠ taskID → GetTaskInfo id r.1 = GetTaskInfo id w.
Proof.
  intros Hok r taskID. subst r taskID.
  rewrite (ExecuteWithSSE_new now pick ctx "" sid f d w) by done.
  cbn [fst snd]. split_and!.
  - done.
  - erewrite GetTaskInfo_at; [|apply lookup_insert_eq|apply lookup_snoc]. done.
  - done.
  - intros id Hne. unfold GetTaskInfo, lookup_task, created. simpl.
    rewrite lookup_insert_ne by done.
    destruct (tasks w !! id) as [l|] eqn:Hl; [|done]. simpl.
    apply Hok in Hl. simpl in Hl. by rewrite lookup_app_l.
Qed.

Lemma attach_resume_frame now pick ctx task taskID sid f d w t :
  store w !! task = Some t →
  let r := attach now pick ctx false task taskID sid f d w in
  actxs r.1 = actxs w ∧
  (procs r.1 = procs w ∨
   procs r.1
   = procs w ++ [PForwardStart ctx task sid (length (chans w)) (S (length (chans w)))]).
Proof.
  intros Ht. unfold attach, new_chan, upd_task, Go. simpl.
  rewrite list_lookup_alter_eq, Ht. simpl.
  rewrite length_app. simpl. rewrite Nat.add_1_r.
  case_bool_decide as Hlen.
  - set (w3 := set_chans _ (set_store _ (set_chans _ w))).
    pose proof (flush_cached_chans_only pick ctx (length (chans w)) (CachedData t) 0 w3) as Hco.
    destruct (flush_cached pick ctx (length (chans w)) (CachedData t) 0 w3)
      as [w' [[e|]|]]; simpl in *; rewrite Hco; simpl; auto.
  - simpl. auto.
Qed.

Lemma attach_no_backlog now pick ctx task taskID sid f d w t :
  store w !! task = Some t →
  CachedData t = [] →
  let r := attach now pick ctx false task taskID sid f d w in
  let sub := length (chans w) in
  r.2 = Returns (Some (S sub), taskID, None) ∧
  store r.1
  = alter (λ t, set_Subscribers (<[sid := sub]> (Subscribers t)) t) task (store w) ∧
  procs r.1 = procs w ++ [PForwardStart ctx task sid sub (S sub)] ∧
  chans r.1 = chans w ++ [make_chan 100; make_chan 100].
Proof.
  intros Ht Hc. unfold attach, new_chan, upd_task, Go. simpl.
  rewrite list_lookup_alter_eq, Ht. simpl. rewrite Hc. simpl.
  rewrite length_app. simpl. rewrite Nat.add_1_r.
  split_and!; try done. by rewrite <- app_assoc.
Qed.

(** X10. Resuming never starts the work again: on a record that is
    found, the work function and the async timeout of the call are
    ignored, no async context is made, and at most one goroutine is
    added, the forwarder of the new subscriber; with an empty buffer
    the call succeeds whatever the state of the caller's context. *)
Theorem resume_starts_only_a_forwarder now pick ctx key sid f d w id l t :
  findTask w key = Some (id, l, t) →
  let r := ExecuteWithSSE now pick ctx key sid f d w in
  (∀ f' d', ExecuteWithSSE now pick ctx key sid f' d' w = r) ∧
  actxs r.1 = actxs w ∧
  (procs r.1 = procs w ∨
   procs r.1
   = procs w ++ [PForwardStart ctx l sid (length (chans w)) (S (length (chans w)))]) ∧
  (¬ ExpiresAt t < now 0%nat → Status t = TaskStatusRunning →
   CachedData t = [] →
   r.2 = Returns (Some (S (length (chans w))), id, None) ∧
   procs r.1
   = procs w ++ [PForwardStart ctx l sid (length (chans w)) (S (length (chans w)))]).
Proof.
  intros Hf r. subst r.
  pose proof (findTask_Some _ _ _ _ _ Hf) as (_ & Hl & Ht & _).
  unfold ExecuteWithSSE. rewrite Hf.
  split_and!.
  - intros f' d'. destruct (ExpiresAt t <? now 0%nat); [done|].
    case_bool_decide; done.
  - destruct (ExpiresAt t <? now 0%nat); [done|].
    case_bool_decide; [done|].
    by apply (attach_resume_frame now pick ctx l id sid f d w t).
  - destruct (ExpiresAt t <? now 0%nat); [by left|].
    case_bool_decide; [by left|].
    by apply (attach_resume_frame now pick ctx l id sid f d w t).
  - intros Hexp Hrun Hc.
    rewrite (proj2 (Z.ltb_ge _ _)) by lia.
    rewrite bool_decide_eq_false_2 by (by intros ?).
    destruct (attach_no_backlog now pick ctx l id sid f d w t Ht Hc)
      as (H1 & _ & H3 & _). done.
Qed.

(** X11. Round trip of the resume key: a call with the key of a task
    that was just created, made before the record expires, returns the
    id of that task and attaches a second subscriber to the same
    record; the task's goroutines are joined by one more forwarder. *)
Theorem create_then_resume now pick ctx sid f d now' pick' ctx' sid' f' d' w :
  registry_ok w →
  (∀ id l t, tasks w !! id = Some l → store w !! l = Some t →
             ResumeKey t ≠ "resume_" +:+ pretty (now 1%nat)) →
  ¬ now 4%nat + defaultTTL w < now' 0%nat →
  let w1 := (ExecuteWithSSE now pick ctx "" sid f d w).1 in
  let r := ExecuteWithSSE now' pick' ctx' ("resume_" +:+ pretty (now 1%nat))
             sid' f' d' w1 in
  let c := length (chans w) in
  let l := length (store w) in
  r.2 = Returns (Some (c + 4)%nat, "task_" +:+ pretty (now 0%nat), None) ∧
  procs r.1 = procs w1 ++ [PForwardStart ctx' l sid' (c + 3) (c + 4)] ∧
  tasks r.1 = tasks w1 ∧
  ∃ t', store r.1 !! l = Some t' ∧
        Status t' = TaskStatusRunning ∧
        Subscribers t' = <[sid' := (c + 3)%nat]> {[sid := S c]}.
Proof.
  intros Hok Hfresh Hexp w1 r c l.
  assert (w1 = created now ctx sid f d w) as Hw1.
  { unfold w1. by rewrite (ExecuteWithSSE_new now pick ctx "" sid f d w). }
  set (key := "resume_" +:+ pretty (now 1%nat)) in *.
  set (taskID := "task_" +:+ pretty (now 0%nat)) in *.
  set (rec := mkTaskInfo taskID key TaskStatusRunning None [] (now 2%nat)
                (now 3%nat) (now 4%nat + defaultTTL w) (Some c) {[sid := S c]}
                true : TaskInfo payload).
  assert (tasks w1 !! taskID = Some l) as Htk.
  { rewrite Hw1. apply lookup_insert_eq. }
  assert (store w1 !! l = Some rec) as Hst.
  { rewrite Hw1. apply lookup_snoc. }
  assert (length (chans w1) = (c + 3)%nat) as Hlen.
  { rewrite Hw1. simpl. rewrite length_app. simpl. lia. }
  destruct (findTask_matched w1 key taskID l rec) as (id' & l' & t' & Hf);
    [done..|].
  pose proof (findTask_Some _ _ _ _ _ Hf) as (_ & Hl' & Ht' & Hk').
  assert (id' = taskID ∧ l' = l ∧ t' = rec) as (-> & -> & ->).
  { destruct (decide (id' = taskID)) as [->|Hne].
    - assert (l' = l) as -> by congruence.
      assert (t' = rec) as -> by congruence. done.
    - exfalso. rewrite Hw1 in Hl', Ht'. simpl in Hl', Ht'.
      rewrite lookup_insert_ne in Hl' by done.
      pose proof (Hok _ _ Hl') as Hlt. simpl in Hlt.
      rewrite lookup_app_l in Ht' by done.
      by eapply Hfresh. }
  subst r. unfold ExecuteWithSSE. rewrite Hf.
  cbn [ExpiresAt Status rec].
  rewrite (proj2 (Z.ltb_ge _ _)) by lia.
  rewrite bool_decide_eq_false_2 by (by intros ?).
  destruct (attach_no_backlog now' pick' ctx' l taskID sid' f' d' w1 rec Hst eq_refl)
    as (H1 & H2 & H3 & _).
  pose proof (attach_registry now' pick' ctx' false l taskID sid' f' d' w1) as [H4 _].
  rewrite Hlen in H1, H2, H3.
  replace (c + 4)%nat with (S (c + 3)) by lia.
  split_and!.
  - exact H1.
  - exact H3.
  - exact H4.
  - eexists. rewrite H2, list_lookup_alter_eq, Hst. simpl.
    split_and!; done.
Qed.

End Attach.

(** ** Records keep their identity *)

Section Identity.

Context {payload : Type}.
Implicit Types (w : World payload) (t : TaskInfo payload) (ch : Chan payload).
Implicit Types (st : list (TaskInfo payload)).

Lemma ident_alter (f : TaskInfo payload → TaskInfo payload) l st :
  (∀ t, ident (f t) = ident t) → ident <$> alter f l st = ident <$> st.
Proof.
  intros Hf. apply list_eq. intros k. rewrite !list_lookup_fmap.
  destruct (decide (k = l)) as [->|Hne].
  - rewrite list_lookup_alter_eq. destruct (st !! l); simpl; [|done].
    by rewrite Hf.
  - by rewrite list_lookup_alter_ne.
Qed.

Lemma same_records_refl w : same_records w w.
Proof. done. Qed.

Lemma same_records_trans w1 w2 w3 :
  same_records w1 w2 → same_records w2 w3 → same_records w1 w3.
Proof. intros [? ?] [? ?]. split; congruence. Qed.

Lemma upd_task_same l (f : TaskInfo payload → TaskInfo payload) w :
  (∀ t, ident (f t) = ident t) → same_records w (upd_task l f w).
Proof. intros Hf. split; [done|]. by apply ident_alter. Qed.

Lemma UpdateProgress_same now pick ctx taskID data w :
  same_records w (UpdateProgress now pick ctx taskID data w).1.
Proof.
  unfold UpdateProgress. destruct (lookup_task w taskID) as [[l t]|]; [|done].
  case_bool_decide; [done|].
  destruct (select_send _ _ _); [destruct (DataChannel t)|..]; simpl;
    apply (upd_task_same l _ w); intros ?; reflexivity.
Qed.

Lemma CompleteTask_same now ctx taskID status w :
  same_records w (CompleteTask now ctx taskID status w).
Proof.
  split; [apply CompleteTask_tasks|].
  unfold CompleteTask. destruct (lookup_task w taskID) as [[l t]|]; [|done].
  rewrite close_all_store.
  destruct (DataChannel t); simpl; by rewrite !ident_alter.
Qed.

Lemma cancel_async_same n w : same_records w (cancel_async n w).
Proof.
  destruct (cancel_async_frame n w) as (Hs & _ & Ht & _).
  split; [done|by rewrite Hs].
Qed.

Lemma forward_exit_same i task sid sub out w :
  same_records w (forward_exit i task sid sub out w).
Proof.
  split; [apply forward_exit_frame|].
  rewrite forward_exit_store. by apply ident_alter.
Qed.

Lemma forward_send_same pick i ctx task sid sub out data next w w' :
  forward_send pick i ctx task sid sub out data next w = Some w' →
  same_records w w'.
Proof.
  unfold forward_send. destruct (select_send _ _ _); intros [= <-];
    first [apply forward_exit_same | done].
Qed.

Lemma step_proc_same now pick i w w' :
  step_proc now pick i w = Some w' → same_records w w'.
Proof.
  unfold step_proc. destruct (procs w !! i) as [p|] eqn:Hp; simpl; [|done].
  destruct p as [ctx actx taskID wk|task actx|task actx data
                |task actx data has subs|ctx task sid sub out
                |ctx task sid sub out cd|ctx task sid sub out
                |ctx task sid sub out data|]; try done.
  - intros [= <-]. unfold step_runner, runner_body.
    destruct wk as [data k|k|[e|]|].
    + pose proof (UpdateProgress_same now pick ctx taskID data w) as Hr.
      destruct (UpdateProgress now pick ctx taskID data w) as [w1 [e|]];
        simpl in Hr; [done|].
      eapply same_records_trans; [done|]. apply (cancel_async_same actx w1).
    + done.
    + eapply same_records_trans; [apply CompleteTask_same|].
      apply (cancel_async_same actx (CompleteTask _ _ _ _ w)).
    + eapply same_records_trans; [apply CompleteTask_same|].
      apply (cancel_async_same actx (CompleteTask _ _ _ _ w)).
    + apply (cancel_async_same actx w).
  - unfold step_listen.
    destruct (select_recv _ _ _); [destruct (_ ≫= _)|..]; intros [= <-]; done.
  - unfold step_listen_snapshot. destruct (store w !! task); simpl; [|done].
    intros [= <-]. done.
  - intros [= <-]. unfold step_listen_dispatch. destruct has.
    + pose proof (broadcast_chans_only data (map_to_list subs) w) as Hb.
      destruct (broadcast data (map_to_list subs) w) as [w1 [|]]; simpl in Hb;
        rewrite Hb; done.
    + split; [done|]. simpl. by apply ident_alter.
  - destruct (store w !! task); simpl; [|done]. intros [= <-]. done.
  - destruct cd; [by intros [= <-]|]. apply forward_send_same.
  - destruct (select_recv _ _ _); intros [= <-];
      first [apply forward_exit_same | done].
  - apply forward_send_same.
Qed.

Lemma start_task_same now ctx task taskID f d w :
  same_records w (start_task now ctx task taskID f d w).
Proof.
  unfold start_task, new_actx, Go. simpl.
  destruct (store w !! task) as [t|]; [destruct (listenerStarted t)|];
    simpl; try done.
  split; [done|]. simpl. by apply ident_alter.
Qed.

Lemma attach_same now pick ctx isNew task taskID sid f d w :
  same_records w (attach now pick ctx isNew task taskID sid f d w).1.
Proof.
  unfold attach, new_chan. cbv beta iota zeta.
  set (w3 := set_chans _ (upd_task _ _ _)).
  assert (same_records w w3) as H3.
  { subst w3. split; [done|]. simpl. by apply ident_alter. }
  assert (∀ w5, same_records w w5 →
            same_records w (if isNew
                            then start_task now ctx task taskID f d w5
                            else w5)) as Hstart.
  { intros w5 H5. destruct isNew; [|done].
    eapply same_records_trans; [done|apply start_task_same]. }
  cbn [fst snd].
  set (cached := default [] _).
  case_bool_decide.
  - pose proof (flush_cached_chans_only pick ctx (length (chans w)) cached 0 w3) as Hco.
    destruct (flush_cached pick ctx (length (chans w)) cached 0 w3)
      as [w4 [[e|]|]]; simpl in Hco; cbn [fst snd].
    + by rewrite Hco.
    + unfold Go. cbn [fst snd].
      set (w5 := upd_task task (set_CachedData []) w4).
      assert (same_records w w5) as H5.
      { subst w5. rewrite Hco. destruct H3 as [? Hl]. split; [done|].
        simpl in *. by rewrite ident_alter. }
      destruct (Hstart w5 H5). by split.
    + by rewrite Hco.
  - unfold Go. cbn [fst snd]. destruct (Hstart w3 H3). by split.
Qed.

(** What a step does to the registry and the records: it keeps both,
    or it is the sweep, or it creates one task. *)
Lemma step_records (a : Action payload) w :
  same_records w (step a w) ∨
  (store (step a w) = store w ∧
   ∀ id l, tasks (step a w) !! id = Some l → tasks w !! id = Some l) ∨
  (∃ t, tasks (step a w) = <[TaskID t := length (store w)]> (tasks w) ∧
        ident <$> store (step a w) = ident <$> (store w ++ [t])).
Proof.
  destruct a; simpl.
  - unfold ExecuteWithSSE. destruct (findTask w resumeKey) as [[[id l] t]|].
    + left. destruct (ExpiresAt t <? now 0%nat); [done|].
      case_bool_decide; [done|]. apply attach_same.
    + right. right. unfold new_task, new_chan. simpl.
      set (w1 := set_tasks _ _).
      destruct (attach_same now pick ctx true (length (store w))
                  ("task_" +:+ pretty (now 0%nat)) subscriberID asyncFunc
                  asyncTimeout w1) as [Ht Hs].
      eexists (mkTaskInfo _ _ _ _ _ _ _ _ _ _ _). rewrite Ht, Hs. done.
  - left. apply UpdateProgress_same.
  - left. apply CompleteTask_same.
  - right. left. split; [apply cleanupTick_frame|]. apply cleanupTick_tasks.
  - left. destruct (step_proc now pick i w) as [w'|] eqn:Hs; [|done].
    by eapply step_proc_same.
  - left. unfold cancel_caller. by destruct (caller_done w !! n).
  - left. unfold expire_async.
    destruct (actxs w !! n) as [[[dl|] [e|]]|]; try done.
    by destruct (dl <=? now).
  - left. unfold read_output. by destruct (recv_status w (Some c)).
Qed.

Lemma step_ident_prefix (a : Action payload) w :
  ident <$> store w `prefix_of` ident <$> store (step a w).
Proof.
  destruct (step_records a w) as [[_ ->]|[[-> _]|(t & _ & ->)]]; [done..|].
  rewrite fmap_app. by apply prefix_app_r.
Qed.

(** X12. The identity of a record is fixed when it is made: whatever
    calls, ticks and goroutine steps follow, the record stays in place
    and keeps its task id, resume key, creation time and expiry time;
    in particular nothing ever extends a deadline. *)
Theorem record_identity_is_immutable (acts : list (Action payload)) w l t :
  store w !! l = Some t →
  ∃ t', store (run acts w) !! l = Some t' ∧
        TaskID t' = TaskID t ∧ ResumeKey t' = ResumeKey t ∧
        CreatedAt t' = CreatedAt t ∧ ExpiresAt t' = ExpiresAt t.
Proof.
  intros Ht.
  assert (ident <$> store w `prefix_of` ident <$> store (run acts w)) as Hpre.
  { clear Ht. revert w. induction acts as [|a acts IH]; intros w; [done|].
    rewrite run_cons. etrans; [apply step_ident_prefix|apply IH]. }
  assert ((ident <$> store w) !! l = Some (ident t)) as Hi
    by by rewrite list_lookup_fmap, Ht.
  pose proof (prefix_lookup_Some _ _ _ _ Hi Hpre) as Hi'.
  rewrite list_lookup_fmap in Hi'.
  destruct (store (run acts w) !! l) as [t'|]; [|done].
  exists t'. split; [done|]. simpl in Hi'. unfold ident in Hi'.
  by simplify_eq.
Qed.

Lemma step_keyed (a : Action payload) w : keyed w → keyed (step a w).
Proof.
  intros Hk.
  assert (∀ w' l, ident <$> store w' = ident <$> store w →
                  TaskID <$> store w' !! l = TaskID <$> store w !! l) as Hid.
  { intros w' l H. apply (f_equal (λ x : list (string * string * Z * Z), (λ y, y.1.1.1) <$> (x !! l))) in H.
    rewrite !list_lookup_fmap, <- !option_fmap_compose in H. exact H. }
  destruct (step_records a w) as [[Ht Hs]|[[Hs Ht]|(t & Ht & Hs)]].
  - intros id l. rewrite Ht, (Hid _ _ Hs). apply Hk.
  - intros id l Hl. rewrite Hs. by apply Hk, Ht.
  - intros id l. rewrite Ht.
    assert (∀ k, TaskID <$> store (step a w) !! k
                 = TaskID <$> (store w ++ [t]) !! k) as Hid'.
    { intros k. apply (f_equal (λ x : list (string * string * Z * Z), (λ y, y.1.1.1) <$> (x !! k))) in Hs.
      rewrite !list_lookup_fmap, <- !option_fmap_compose in Hs. exact Hs. }
    rewrite Hid'.
    destruct (decide (id = TaskID t)) as [->|Hne].
    + rewrite lookup_insert_eq. intros [= <-]. by rewrite lookup_snoc.
    + rewrite lookup_insert_ne by done. intros Hl.
      specialize (Hk _ _ Hl).
      destruct (store w !! l) as [t0|] eqn:Ht0; [|done].
      by rewrite (lookup_app_l_Some _ _ _ _ Ht0).
Qed.

(** X13. In every manager that calls, ticks and goroutine steps can
    reach from a new one, a task id resolves to the record made under
    that id: the status query for [id], when it succeeds, returns a copy
    whose task id is [id]. *)
Theorem GetTaskInfo_returns_queried_id ttl (acts : list (Action payload)) id info :
  GetTaskInfo id (run acts (NewSSEManager ttl)) = inl info →
  TaskID info = id.
Proof.
  assert (keyed (run acts (NewSSEManager (payload:=payload) ttl))) as Hk.
  { assert (keyed (NewSSEManager (payload:=payload) ttl)) as H0 by done.
    revert H0. generalize (NewSSEManager (payload:=payload) ttl).
    induction acts as [|a acts IH]; intros w Hk; [done|].
    rewrite run_cons. apply IH. by apply step_keyed. }
  unfold GetTaskInfo.
  destruct (lookup_task _ id) as [[l t]|] eqn:Hlk; [|done].
  apply lookup_task_Some in Hlk as [Hl Ht].
  intros [= <-]. simpl. apply Hk in Hl. rewrite Ht in Hl. by simplify_eq/=.
Qed.

End Identity.

(** ** Bounded queues *)

Section Queues.

Context {payload : Type}.
Implicit Types (w : World payload) (t : TaskInfo payload) (ch : Chan payload).
Implicit Types (cs : list (Chan payload)).

Lemma alter_ok (f : Chan payload → Chan payload) c cs :
  (∀ ch, cs !! c = Some ch → chan_ok ch → chan_ok (f ch)) →
  Forall chan_ok cs → Forall chan_ok (alter f c cs).
Proof.
  intros Hf Hcs. apply Forall_lookup. intros k ch Hk.
  destruct (decide (k = c)) as [->|Hne].
  - rewrite list_lookup_alter_eq in Hk.
    destruct (cs !! c) as [ch0|] eqn:Hc; [|done]. simplify_eq/=.
    apply Hf; [done|]. by eapply Forall_lookup_1.
  - rewrite list_lookup_alter_ne in Hk by done. by eapply Forall_lookup_1.
Qed.

Lemma closes_ok cs cs' :
  Forall2 closes cs cs' → Forall chan_ok cs → Forall chan_ok cs'.
Proof.
  intros H Hcs. apply Forall_lookup. intros k ch' Hk.
  destruct (Forall2_lookup_r _ _ _ _ _ H Hk) as (ch & Hch & (Hb & Hc & _)).
  pose proof (Forall_lookup_1 _ _ _ _ Hcs Hch) as [? ?].
  unfold chan_ok. rewrite Hb, Hc. done.
Qed.

Lemma select_send_SelSend pick st d :
  select_send pick st d = SelSend → st = SendReady.
Proof. destruct st, d as [e|], pick; simpl; congruence. Qed.

Lemma do_send_ok c v w :
  chans_ok w → send_status w (Some c) = SendReady → chans_ok (do_send c v w).
Proof.
  intros Hok Hst. unfold chans_ok, do_send, upd_chan. simpl.
  apply alter_ok; [|done]. intros ch Hch [H1 H2].
  unfold send_status in Hst. rewrite Hch in Hst.
  destruct (closed ch); [done|]. case_bool_decide; [|done].
  unfold chan_ok, enqueue. simpl. rewrite length_app. simpl. split; lia.
Qed.

Lemma dequeue_ok c w : chans_ok w → chans_ok (upd_chan c dequeue w).
Proof.
  intros Hok. unfold chans_ok, upd_chan. simpl.
  apply alter_ok; [|done]. intros ch _ [H1 H2].
  unfold chan_ok, dequeue. simpl. split; [|done].
  destruct (buf ch); simpl in *; lia.
Qed.

Lemma new_chan_ok w : chans_ok w → chans_ok (new_chan 100 w).2.
Proof.
  intros Hok. unfold chans_ok, new_chan. simpl.
  apply Forall_app. split; [done|]. apply Forall_singleton.
  split; simpl; [lia|done].
Qed.

Lemma CompleteTask_chans_closes now ctx id status w :
  Forall2 closes (chans w) (chans (CompleteTask now ctx id status w)).
Proof.
  destruct (lookup_task w id) as [[l t]|] eqn:Hlk.
  - apply lookup_task_Some in Hlk as [Hl Ht].
    apply (CompleteTask_closes now ctx id status w l t Hl Ht).
  - unfold CompleteTask. rewrite Hlk. apply chans_closes_refl.
Qed.

Lemma UpdateProgress_ok now pick ctx id data w :
  chans_ok w → chans_ok (UpdateProgress now pick ctx id data w).1.
Proof.
  intros Hok. unfold UpdateProgress.
  destruct (lookup_task w id) as [[l t]|]; [|done].
  case_bool_decide; [done|].
  destruct (select_send _ _ _) eqn:Hsel; try done.
  destruct (DataChannel t) as [c|]; [|done]. simpl.
  apply select_send_SelSend in Hsel.
  by apply (do_send_ok c data (upd_task l _ w)).
Qed.

Lemma flush_cached_ok pick ctx c xs i w :
  chans_ok w → chans_ok (flush_cached pick ctx c xs i w).1.
Proof.
  revert i w. induction xs as [|x xs IH]; intros i w Hok; [done|].
  cbn [flush_cached].
  destruct (select_send _ _ _) eqn:Hsel; try done.
  - apply IH, do_send_ok; [done|]. by eapply select_send_SelSend.
  - by apply IH.
Qed.

Lemma broadcast_ok data (subs : list (string * chanid)) w :
  chans_ok w → chans_ok (broadcast data subs w).1.
Proof.
  revert w. induction subs as [|[k c] subs IH]; intros w Hok; [done|].
  cbn [broadcast].
  destruct (send_status w (Some c)) eqn:Hst; cbn [select_send]; try done.
  - apply IH. by apply do_send_ok.
  - by apply IH.
Qed.

Lemma safe_close_ok c w : chans_ok w → chans_ok (safe_close c w).
Proof. apply closes_ok, safe_close_closes. Qed.

Lemma close_at_closes c cs :
  Forall2 closes cs (alter (λ ch, mkChan (buf ch) (cap ch) true) c cs).
Proof.
  apply Forall2_same_length_lookup_2; [by rewrite length_alter|].
  intros k ch ch' H1 H2. destruct (decide (k = c)) as [->|Hne].
  - rewrite list_lookup_alter_eq, H1 in H2. simplify_eq/=. by repeat split.
  - rewrite list_lookup_alter_ne, H1 in H2 by done. simplify_eq. apply closes_refl.
Qed.

Lemma forward_exit_ok i task sid sub out w :
  chans_ok w → chans_ok (forward_exit i task sid sub out w).
Proof.
  intros Hok. unfold forward_exit, chans_ok.
  destruct (store w !! task) as [t|]; [destruct (Subscribers t !! sid)|];
    simpl.
  - eapply closes_ok; [apply close_at_closes|].
    eapply closes_ok; [apply close_at_closes|done].
  - eapply closes_ok; [apply close_at_closes|done].
  - eapply closes_ok; [apply close_at_closes|done].
Qed.

Lemma forward_send_ok pick i ctx task sid sub out data next w w' :
  chans_ok w →
  forward_send pick i ctx task sid sub out data next w = Some w' →
  chans_ok w'.
Proof.
  intros Hok. unfold forward_send.
  destruct (select_send _ _ _) eqn:Hsel; intros [= <-].
  - apply (do_send_ok out data w); [done|]. by eapply select_send_SelSend.
  - by apply forward_exit_ok.
  - by apply forward_exit_ok.
Qed.

Lemma cancel_async_ok n w : chans_ok w → chans_ok (cancel_async n w).
Proof.
  intros Hok. unfold chans_ok.
  by destruct (cancel_async_frame n w) as (_ & _ & _ & ->).
Qed.

Lemma step_proc_ok now pick i w w' :
  chans_ok w → step_proc now pick i w = Some w' → chans_ok w'.
Proof.
  intros Hok.
  unfold step_proc. destruct (procs w !! i) as [p|] eqn:Hp; simpl; [|done].
  destruct p as [ctx actx taskID wk|task actx|task actx data
                |task actx data has subs|ctx task sid sub out
                |ctx task sid sub out cd|ctx task sid sub out
                |ctx task sid sub out data|]; try done.
  - intros [= <-]. unfold step_runner, runner_body.
    destruct wk as [data k|k|[e|]|].
    + pose proof (UpdateProgress_ok now pick ctx taskID data w Hok) as Hr.
      destruct (UpdateProgress now pick ctx taskID data w) as [w1 [e|]];
        simpl in Hr; [done|].
      by apply (cancel_async_ok actx w1).
    + done.
    + apply (cancel_async_ok actx (CompleteTask _ _ _ _ w)).
      eapply closes_ok; [apply CompleteTask_chans_closes|done].
    + apply (cancel_async_ok actx (CompleteTask _ _ _ _ w)).
      eapply closes_ok; [apply CompleteTask_chans_closes|done].
    + by apply (cancel_async_ok actx w).
  - unfold step_listen.
    destruct (select_recv _ _ _); [destruct (_ ≫= _) as [c|]|..];
      intros [= <-]; try done.
    by apply (dequeue_ok c w).
  - unfold step_listen_snapshot. destruct (store w !! task); simpl; [|done].
    intros [= <-]. done.
  - intros [= <-]. unfold step_listen_dispatch. destruct has; [|done].
    pose proof (broadcast_ok data (map_to_list subs) w Hok) as Hb.
    by destruct (broadcast data (map_to_list subs) w) as [w1 [|]].
  - destruct (store w !! task); simpl; [|done]. intros [= <-]. done.
  - destruct cd; [by intros [= <-]|]. by apply forward_send_ok.
  - destruct (select_recv _ _ _); intros [= <-];
      first [by apply forward_exit_ok | by apply (dequeue_ok sub w)].
  - by apply forward_send_ok.
Qed.

Lemma start_task_chans now ctx task taskID f d w :
  chans (start_task now ctx task taskID f d w) = chans w.
Proof.
  unfold start_task, new_actx, Go. simpl.
  by destruct (store w !! task) as [t|]; [destruct (listenerStarted t)|].
Qed.

Lemma attach_ok now pick ctx isNew task taskID sid f d w :
  chans_ok w → chans_ok (attach now pick ctx isNew task taskID sid f d w).1.
Proof.
  intros Hok. unfold attach. cbv beta iota zeta.
  destruct (new_chan 100 w) as [sub w1] eqn:H1.
  assert (chans_ok w1) as Hok1.
  { pose proof (new_chan_ok w Hok) as H. by rewrite H1 in H. }
  set (w2 := upd_task task _ w1).
  destruct (new_chan 100 w2) as [out w3] eqn:H3.
  assert (chans_ok w3) as Hok3.
  { pose proof (new_chan_ok w2 Hok1) as H. by rewrite H3 in H. }
  set (cached := default [] _).
  assert (∀ w5, chans_ok w5 →
            chans_ok (if isNew
                      then start_task now ctx task taskID f d w5
                      else w5)) as Hstart.
  { intros w5 H5. destruct isNew; [|done].
    unfold chans_ok. by rewrite start_task_chans. }
  case_bool_decide.
  - pose proof (flush_cached_ok pick ctx sub cached 0 w3 Hok3) as Hfl.
    destruct (flush_cached pick ctx sub cached 0 w3)
      as [w4 [[e|]|]]; simpl in Hfl; cbn [fst snd]; try done.
    apply (Hstart (upd_task task (set_CachedData []) w4)). done.
  - cbn [fst snd]. by apply (Hstart w3).
Qed.

Lemma step_chans_ok (a : Action payload) w : chans_ok w → chans_ok (step a w).
Proof.
  intros Hok. destruct a; simpl.
  - unfold ExecuteWithSSE. destruct (findTask w resumeKey) as [[[id l] t]|].
    + destruct (ExpiresAt t <? now 0%nat); [done|].
      case_bool_decide; [done|]. by apply attach_ok.
    + unfold new_task. destruct (new_chan 100 w) as [dc w1] eqn:H1.
      apply attach_ok.
      pose proof (new_chan_ok w Hok) as H. by rewrite H1 in H.
  - by apply UpdateProgress_ok.
  - eapply closes_ok; [apply CompleteTask_chans_closes|done].
  - eapply closes_ok; [apply cleanup_closes|done].
  - destruct (step_proc now pick i w) as [w'|] eqn:Hs; [|done].
    by eapply step_proc_ok.
  - unfold cancel_caller. by destruct (caller_done w !! n).
  - unfold expire_async.
    destruct (actxs w !! n) as [[[dl|] [e|]]|]; try done.
    by destruct (dl <=? now).
  - unfold read_output. destruct (recv_status w (Some c)); try done.
    by apply (dequeue_ok c w).
Qed.

(** X14. The queues are bounded: in every manager that calls, ticks,
    goroutine steps and reads can reach from a new one, each channel has
    capacity 100 and holds at most 100 values. *)
Theorem queues_never_exceed_capacity ttl (acts : list (Action payload)) c ch :
  chans (run acts (NewSSEManager ttl)) !! c = Some ch →
  (length (buf ch) ≤ 100)%nat ∧ cap ch = 100%nat.
Proof.
  assert (chans_ok (run acts (NewSSEManager (payload:=payload) ttl))) as Hok.
  { assert (chans_ok (NewSSEManager (payload:=payload) ttl)) as H0
      by apply Forall_nil_2.
    revert H0. generalize (NewSSEManager (payload:=payload) ttl).
    induction acts as [|a acts IH]; intros w Hk; [done|].
    rewrite run_cons. apply IH. by apply step_chans_ok. }
  intros Hc. destruct (Forall_lookup_1 _ _ _ _ Hok Hc) as [H1 H2].
  split; [lia|done].
Qed.

End Queues.

(** ** The listener and the runner *)

Section Listener.

Context {payload : Type}.
Implicit Types (w : World payload) (t : TaskInfo payload) (ch : Chan payload).

Lemma send_status_open w c ch :
  chans w !! c = Some ch → closed ch = false →
  select_send false (send_status w (Some c)) None
  = if bool_decide (length (buf ch) < cap ch)%nat then SelSend else SelNone.
Proof.
  intros Hch Hcl. rewrite (send_status_Some w c ch Hch), Hcl.
  by case_bool_decide.
Qed.

Lemma broadcast_open data (subs : list (string * chanid)) w :
  NoDup subs.*2 →
  (∀ c, c ∈ subs.*2 → ∃ ch, chans w !! c = Some ch ∧ closed ch = false) →
  (broadcast data subs w).2 = true ∧
  (∀ c ch, c ∈ subs.*2 → chans w !! c = Some ch →
     chans (broadcast data subs w).1 !! c
     = Some (if bool_decide (length (buf ch) < cap ch)%nat
             then enqueue data ch else ch)) ∧
  (∀ c, c ∉ subs.*2 → chans (broadcast data subs w).1 !! c = chans w !! c).
Proof.
  revert w. induction subs as [|[k c] subs IH]; intros w Hnd Hopen.
  { split_and!; [done| |done]. intros c ch Hc. by apply elem_of_nil in Hc. }
  rewrite fmap_cons in Hnd, Hopen. cbn [snd] in Hnd, Hopen.
  apply NoDup_cons in Hnd as [Hc Hnd].
  destruct (Hopen c) as (ch & Hch & Hcl); [left|].
  cbn [broadcast]. rewrite (send_status_open w c ch Hch Hcl).
  set (w1 := if bool_decide (length (buf ch) < cap ch)%nat
             then do_send c data w else w).
  assert (match (if bool_decide (length (buf ch) < cap ch)%nat
                 then SelSend else SelNone) with
          | SelSend => broadcast data subs (do_send c data w)
          | SelPanic => (w, false)
          | _ => broadcast data subs w
          end = broadcast data subs w1) as ->.
  { subst w1. by case_bool_decide. }
  assert (chans w1 !! c
          = Some (if bool_decide (length (buf ch) < cap ch)%nat
                  then enqueue data ch else ch)) as Hc1.
  { subst w1. case_bool_decide; [|done].
    unfold do_send, upd_chan. simpl. by rewrite list_lookup_alter_eq, Hch. }
  assert (∀ c', c' ≠ c → chans w1 !! c' = chans w !! c') as Hne1.
  { intros c' Hne. subst w1. case_bool_decide; [|done].
    unfold do_send, upd_chan. simpl. by rewrite list_lookup_alter_ne. }
  destruct (IH w1 Hnd) as (H1 & H2 & H3).
  { intros c' Hc'. rewrite Hne1 by (intros ->; done). apply Hopen. by right. }
  split_and!; [done| |].
  - intros c' ch' Hin Hch'. rewrite fmap_cons in Hin. cbn [snd] in Hin.
    apply elem_of_cons in Hin as [->|Hin].
    + rewrite H3 by done. rewrite Hc1. by simplify_eq.
    + apply H2; [done|]. rewrite Hne1 by (intros ->; done). done.
  - intros c' Hnin. rewrite fmap_cons in Hnin. cbn [snd] in Hnin.
    apply not_elem_of_cons in Hnin as [Hne Hnin].
    rewrite H3 by done. by apply Hne1.
Qed.

Lemma snapshot_channels (subs : gmap string chanid) c :
  c ∈ (map_to_list subs).*2 ↔ ∃ k, subs !! k = Some c.
Proof.
  rewrite list_elem_of_fmap. split.
  - intros ([k c'] & -> & Hin). exists k. by apply elem_of_map_to_list.
  - intros [k Hk]. exists (k, c). split; [done|]. by apply elem_of_map_to_list.
Qed.

Lemma snapshot_NoDup (subs : gmap string chanid) :
  (∀ k1 k2 c, subs !! k1 = Some c → subs !! k2 = Some c → k1 = k2) →
  NoDup (map_to_list subs).*2.
Proof.
  intros Hinj. apply NoDup_fmap_2_strong; [|apply NoDup_map_to_list].
  intros [k1 c1] [k2 c2] H1 H2 Heq. simpl in Heq. subst c2.
  apply elem_of_map_to_list in H1, H2. f_equal. by eapply Hinj.
Qed.

(** X15. Fan-out of one payload: when the listener's snapshot has
    subscribers, all with an open queue, every subscriber queue with
    room gets the payload at its tail, a full queue is skipped without
    holding the others back, no other channel changes, nothing is put
    in the record's buffer, and the listener returns to its loop. *)
Theorem listener_fans_out now pick j l actx data (subs : gmap string chanid) w :
  procs w !! j = Some (PListenGot l actx data true subs) →
  (∀ k1 k2 c, subs !! k1 = Some c → subs !! k2 = Some c → k1 = k2) →
  (∀ k c, subs !! k = Some c → ∃ ch, chans w !! c = Some ch ∧ closed ch = false) →
  let w' := step (AProc now pick j) w in
  procs w' = <[j := PListen l actx]> (procs w) ∧
  store w' = store w ∧
  (∀ k c ch, subs !! k = Some c → chans w !! c = Some ch →
     chans w' !! c
     = Some (if bool_decide (length (buf ch) < cap ch)%nat
             then enqueue data ch else ch)) ∧
  (∀ c, (∀ k, subs !! k ≠ Some c) → chans w' !! c = chans w !! c).
Proof.
  intros Hp Hinj Hopen w'. subst w'. cbn [step]. unfold step_proc.
  rewrite Hp. cbn. unfold step_listen_dispatch.
  destruct (broadcast_open data (map_to_list subs) w) as (H1 & H2 & H3).
  { by apply snapshot_NoDup. }
  { intros c Hc. apply snapshot_channels in Hc as [k Hk]. by eapply Hopen. }
  pose proof (broadcast_chans_only data (map_to_list subs) w) as Hco.
  destruct (broadcast data (map_to_list subs) w) as [w1 b].
  simpl in H1, H2, H3, Hco. subst b. cbn. rewrite Hco. cbn.
  split_and!; [done..| |].
  - intros k c ch Hk Hch. apply H2; [|done]. apply snapshot_channels. eauto.
  - intros c Hc. apply H3. rewrite snapshot_channels. intros [k Hk].
    by eapply Hc.
Qed.

Lemma broadcast_closed data (subs : list (string * chanid)) w c ch :
  c ∈ subs.*2 → chans w !! c = Some ch → closed ch = true →
  (broadcast data subs w).2 = false.
Proof.
  revert w ch. induction subs as [|[k0 c0] subs IH]; intros w ch Hin Hch Hcl.
  { by apply elem_of_nil in Hin. }
  cbn [broadcast].
  destruct (send_status w (Some c0)) eqn:Hst; cbn [select_send]; [| done |].
  - rewrite fmap_cons in Hin. cbn [snd] in Hin.
    apply elem_of_cons in Hin as [->|Hin].
    { unfold send_status in Hst. by rewrite Hch, Hcl in Hst. }
    destruct (decide (c = c0)) as [->|Hne].
    { unfold send_status in Hst. by rewrite Hch, Hcl in Hst. }
    apply (IH _ ch); [done| |done].
    unfold do_send, upd_chan. simpl. by rewrite list_lookup_alter_ne.
  - rewrite fmap_cons in Hin. cbn [snd] in Hin.
    apply elem_of_cons in Hin as [->|Hin].
    { unfold send_status in Hst. by rewrite Hch, Hcl in Hst. }
    by apply (IH _ ch).
Qed.

(** X16. A send to a closed subscriber queue ends the listener: if a
    queue of the listener's snapshot has been closed since the snapshot
    was taken (its forwarder left), the dispatch panics, [Recovery]
    swallows the panic, and the listener is gone for good; the payload
    is not put in the record's buffer. *)
Theorem listener_ends_on_closed_subscriber now pick j l actx data
    (subs : gmap string chanid) w k c ch :
  procs w !! j = Some (PListenGot l actx data true subs) →
  subs !! k = Some c →
  chans w !! c = Some ch →
  closed ch = true →
  let w' := step (AProc now pick j) w in
  procs w' = <[j := PDone]> (procs w) ∧
  store w' = store w ∧
  ∀ now' pick', step (AProc now' pick' j) w' = w'.
Proof.
  intros Hp Hk Hch Hcl w'.
  assert (w' = set_proc j PDone
                 (set_chans (chans (broadcast data (map_to_list subs) w).1) w))
    as Hw'.
  { subst w'. cbn [step]. unfold step_proc. rewrite Hp. cbn.
    unfold step_listen_dispatch.
    pose proof (broadcast_closed data (map_to_list subs) w c ch) as Hb.
    pose proof (broadcast_chans_only data (map_to_list subs) w) as Hco.
    destruct (broadcast data (map_to_list subs) w) as [w1 b].
    simpl in Hb, Hco. rewrite Hb; [|apply snapshot_channels; eauto|done..].
    cbn. by rewrite Hco. }
  rewrite Hw'. split_and!; [done..|].
  intros now' pick'. apply step_done. cbn.
  apply list_lookup_insert_eq. by eapply lookup_lt_Some.
Qed.


End Listener.

(** ** The default manager *)

Section PackageProps.

Context {payload : Type}.
Implicit Types (p : sse.Package payload).

Lemma on_default_once {A} (f : World payload → World payload * A) p :
  sse.defaultManagerOnce (sse.on_default f p).1 = true.
Proof.
  unfold sse.on_default, sse.getDefaultManager, sse.once_Do.
  destruct p as [[m|] [|]]; simpl; by try destruct (f _).
Qed.

(** X18. [Init] configures the default manager only if it is the first
    package-level call: on the untouched package it makes a manager
    whose TTL is the given one, or one hour if that is not positive;
    after [Init] or after any package-level function, which make the
    manager with a TTL of one hour, a call of [Init] changes nothing. *)
Theorem Init_only_first_call_counts ttl ttl' p :
  defaultTTL <$> sse.defaultManager (sse.Init ttl (sse.initial (payload:=payload)))
  = Some (if ttl <=? 0 then hour else ttl) ∧
  sse.Init ttl' (sse.Init ttl p) = sse.Init ttl p ∧
  (∀ now pick ctx key sid f d,
     let p1 := (sse.ExecuteWithSSE now pick ctx key sid f d p).1 in
     sse.Init ttl' p1 = p1) ∧
  (∀ now pick ctx id data,
     let p1 := (sse.UpdateProgress now pick ctx id data p).1 in
     sse.Init ttl' p1 = p1) ∧
  (∀ now ctx id status,
     let p1 := (sse.CompleteTask now ctx id status p).1 in
     sse.Init ttl' p1 = p1) ∧
  (∀ id,
     let p1 := (sse.GetTaskInfo id (sse.initial (payload:=payload))).1 in
     sse.Init ttl' p1 = p1 ∧
     defaultTTL <$> sse.defaultManager p1 = Some hour).
Proof.
  assert (∀ q : sse.Package payload,
            sse.defaultManagerOnce q = true → sse.Init ttl' q = q) as Hdone.
  { intros q Hq. unfold sse.Init, sse.once_Do. by rewrite Hq. }
  split_and!.
  - unfold sse.Init, sse.once_Do, NewSSEManager. cbn [sse.initial sse.defaultManagerOnce sse.defaultManager fmap option_fmap option_map defaultTTL].
    rewrite Z.mul_1_l. destruct (ttl <=? 0); reflexivity.
  - apply Hdone. unfold sse.Init, sse.once_Do.
    by destruct (sse.defaultManagerOnce p) eqn:Hp.
  - intros. apply Hdone, on_default_once.
  - intros. apply Hdone, on_default_once.
  - intros. apply Hdone, on_default_once.
  - intros. split; [apply Hdone, (on_default_once (A:=_ + _))|].
    subst p1. unfold sse.GetTaskInfo, sse.on_default, sse.getDefaultManager,
      sse.once_Do, NewSSEManager.
    cbn [sse.initial sse.defaultManagerOnce sse.defaultManager fmap option_fmap
         option_map defaultTTL fst Z.leb Z.compare].
    rewrite Z.mul_1_l. reflexivity.
Qed.

(** X19. The package-level functions work on one manager: a task
    created through the package is found by the package-level status
    query, running and expiring one TTL of [Init] after its creation. *)
Theorem package_level_round_trip ttl now pick ctx sid f d :
  let p0 := sse.Init ttl (sse.initial (payload:=payload)) in
  let r := sse.ExecuteWithSSE now pick ctx "" sid f d p0 in
  let taskID := "task_" +:+ pretty (now 0%nat) in
  r.2 = Returns (Returns (Some 2%nat, taskID, None)) ∧
  (sse.GetTaskInfo taskID r.1).2
  = Returns (inl (mkTaskInfo taskID ("resume_" +:+ pretty (now 1%nat))
                    TaskStatusRunning None [] (now 2%nat) (now 3%nat)
                    (now 4%nat + (if ttl <=? 0 then hour else ttl))
                    None ∅ false)).
Proof.
  intros p0 r taskID.
  assert (p0 = sse.mkPackage (Some (NewSSEManager ttl)) true) as Hp0 by done.
  assert (r = (sse.mkPackage
                 (Some (created now ctx sid f d (NewSSEManager ttl))) true,
               Returns (Returns (Some 2%nat, taskID, None)))) as Hr.
  { subst r. rewrite Hp0.
    unfold sse.ExecuteWithSSE, sse.on_default, sse.getDefaultManager, sse.once_Do.
    cbn [sse.defaultManagerOnce sse.defaultManager].
    by rewrite (ExecuteWithSSE_new now pick ctx "" sid f d (NewSSEManager ttl)). }
  rewrite Hr. split; [done|].
  unfold sse.GetTaskInfo, sse.on_default, sse.getDefaultManager, sse.once_Do.
  cbn [fst snd sse.defaultManagerOnce sse.defaultManager].
  rewrite (GetTaskInfo_at _ taskID 0%nat
             (mkTaskInfo taskID ("resume_" +:+ pretty (now 1%nat))
                TaskStatusRunning None [] (now 2%nat) (now 3%nat)
                (now 4%nat + defaultTTL (NewSSEManager (payload:=payload) ttl))
                (Some 0%nat) {[sid := 1%nat]} true)).
  - unfold info_of, NewSSEManager.
    cbn [TaskID ResumeKey Status Progress CreatedAt UpdatedAt ExpiresAt defaultTTL].
    rewrite Z.mul_1_l. reflexivity.
  - apply lookup_insert_eq.
  - reflexivity.
Qed.

End PackageProps.

(** ** Instances of the further properties *)

Lemma w_created_registry_ok : registry_ok w_created.
Proof. unfold registry_ok. apply (bool_decide_unpack _). vm_compute. exact I. Qed.

Lemma created_record_expired : ExpiresAt created_record < 4000000000000.
Proof. vm_compute. reflexivity. Qed.

(** X1 at the manager with one running task, before its expiry. *)
Lemma cleanup_keeps_running_unexpired_witness :
  registry_ok w_created ∧
  (tasks (cleanupExpiredTasks 2000 w_created) !! "task_1000" = Some 0%nat ↔
   tasks w_created !! "task_1000" = Some 0%nat ∧
   ∃ t, store w_created !! 0%nat = Some t ∧ ¬ ExpiresAt t < 2000 ∧
        Status t = TaskStatusRunning).
Proof.
  split; [exact w_created_registry_ok|].
  exact (cleanup_keeps_running_unexpired 2000 w_created "task_1000" 0%nat
           w_created_registry_ok).
Defined.

(** X2 at that manager, swept after the record expired. *)
Lemma cleanup_forgets_swept_task_witness :
  tasks w_created !! "task_1000" = Some 0%nat ∧
  store w_created !! 0%nat = Some created_record ∧
  (ExpiresAt created_record < 4000000000000 ∨
   Status created_record ≠ TaskStatusRunning) ∧
  GetTaskInfo "task_1000" (cleanupExpiredTasks 4000000000000 w_created)
  = inr ErrTaskNotFound.
Proof.
  assert (tasks w_created !! "task_1000" = Some 0%nat) as H1
    by (vm_compute; reflexivity).
  assert (store w_created !! 0%nat = Some created_record) as H2
    by (vm_compute; reflexivity).
  assert (ExpiresAt created_record < 4000000000000 ∨
          Status created_record ≠ TaskStatusRunning) as H3
    by (left; exact created_record_expired).
  split_and!; [exact H1|exact H2|exact H3|].
  exact (proj1 (cleanup_forgets_swept_task 4000000000000 w_created "task_1000"
                  0%nat created_record H1 H2 H3)).
Defined.

(** X3 at that manager: the expired key, resumed after the sweep. *)
Lemma resume_after_cleanup_creates_witness :
  (∀ id l t, tasks w_created !! id = Some l → store w_created !! l = Some t →
             ResumeKey t = "resume_1001" →
             ExpiresAt t < 4000000000000 ∨ Status t ≠ TaskStatusRunning) ∧
  ExecuteWithSSE clock_late no_pick (CallerCtx 1) "resume_1001" "client_002"
    idle_work 0 (cleanupExpiredTasks 4000000000000 w_created)
  = (created clock_late (CallerCtx 1) "client_002" idle_work 0
       (cleanupExpiredTasks 4000000000000 w_created),
     Returns
       (Some (S (S (length (chans (cleanupExpiredTasks 4000000000000 w_created))))),
        "task_" +:+ pretty (clock_late 0%nat), None)).
Proof.
  assert (∀ id l t, tasks w_created !! id = Some l →
                    store w_created !! l = Some t →
                    ResumeKey t = "resume_1001" →
                    ExpiresAt t < 4000000000000 ∨ Status t ≠ TaskStatusRunning)
    as H1.
  { intros id l t Hl Ht _. rewrite w_created_task in Hl.
    apply lookup_singleton_Some in Hl as [_ <-].
    rewrite w_created_store in Ht. injection Ht as <-.
    left. exact created_record_expired. }
  split; [exact H1|].
  exact (resume_after_cleanup_creates 4000000000000 clock_late no_pick
           (CallerCtx 1) "resume_1001" "client_002" idle_work 0 w_created H1).
Defined.

(** X5 at that manager. *)
Lemma UpdateProgress_then_GetTaskInfo_witness :
  tasks w_created !! "task_1000" = Some 0%nat ∧
  store w_created !! 0%nat = Some created_record ∧
  Status created_record = TaskStatusRunning ∧
  GetTaskInfo "task_1000"
    (UpdateProgress 2000 false (CallerCtx 0) "task_1000" 7%nat w_created).1
  = inl (mkTaskInfo (TaskID created_record) (ResumeKey created_record)
           TaskStatusRunning (Some 7%nat) [] (CreatedAt created_record) 2000
           (ExpiresAt created_record) None ∅ false).
Proof.
  assert (tasks w_created !! "task_1000" = Some 0%nat) as H1
    by (vm_compute; reflexivity).
  assert (store w_created !! 0%nat = Some created_record) as H2
    by (vm_compute; reflexivity).
  split_and!; [exact H1|exact H2|reflexivity|].
  exact (UpdateProgress_then_GetTaskInfo 2000 false (CallerCtx 0) "task_1000"
           7%nat w_created 0%nat created_record H1 H2 eq_refl).
Defined.

(** X6 at that manager, the task completed. *)
Lemma completed_task_rejects_calls_witness :
  tasks w_created !! "task_1000" = Some 0%nat ∧
  store w_created !! 0%nat = Some created_record ∧
  TaskStatusCompleted ≠ TaskStatusRunning ∧
  UpdateProgress 3000 false (CallerCtx 0) "task_1000" 7%nat
    (CompleteTask 2000 (CallerCtx 0) "task_1000" TaskStatusCompleted w_created)
  = (CompleteTask 2000 (CallerCtx 0) "task_1000" TaskStatusCompleted w_created,
     Returns (Some ErrTaskNotRunning)).
Proof.
  assert (tasks w_created !! "task_1000" = Some 0%nat) as H1
    by (vm_compute; reflexivity).
  assert (store w_created !! 0%nat = Some created_record) as H2
    by (vm_compute; reflexivity).
  assert (TaskStatusCompleted ≠ TaskStatusRunning) as H3 by discriminate.
  split_and!; [exact H1|exact H2|exact H3|].
  exact (proj1 (completed_task_rejects_calls 2000 (CallerCtx 0) "task_1000"
                  TaskStatusCompleted w_created 0%nat created_record H1 H2 H3)
           3000 false (CallerCtx 0) 7%nat).
Defined.

(** X7 at that manager: completed, then marked failed. *)
Lemma CompleteTask_again_only_restamps_witness :
  tasks w_created !! "task_1000" = Some 0%nat ∧
  store w_created !! 0%nat = Some created_record ∧
  CompleteTask 3000 (CallerCtx 0) "task_1000" TaskStatusFailed
    (CompleteTask 2000 (CallerCtx 0) "task_1000" TaskStatusCompleted w_created)
  = set_store (<[0%nat := completed 3000 TaskStatusFailed created_record]>
                 (store w_created))
      (CompleteTask 2000 (CallerCtx 0) "task_1000" TaskStatusCompleted w_created).
Proof.
  assert (tasks w_created !! "task_1000" = Some 0%nat) as H1
    by (vm_compute; reflexivity).
  assert (store w_created !! 0%nat = Some created_record) as H2
    by (vm_compute; reflexivity).
  split_and!; [exact H1|exact H2|].
  exact (CompleteTask_again_only_restamps 2000 (CallerCtx 0) TaskStatusCompleted
           3000 (CallerCtx 0) TaskStatusFailed "task_1000" w_created 0%nat
           created_record H1 H2).
Defined.

(** X8 for the forwarder of the first client, in its live loop. *)
Lemma CompleteTask_ends_forwarders_witness :
  tasks w_forwarding !! "task_1000" = Some 0%nat ∧
  store w_forwarding !! 0%nat = Some created_record ∧
  Subscribers created_record !! "client_001" = Some 1%nat ∧
  chans w_forwarding !! 1%nat = Some (mkChan [] 100 false) ∧
  is_Some (chans w_forwarding !! 2%nat) ∧
  procs w_forwarding !! 2%nat
  = Some (PForward (CallerCtx 0) 0 "client_001" 1 2) ∧
  procs (step (AProc 3000 false 2)
           (CompleteTask 2000 (CallerCtx 0) "task_1000" TaskStatusCompleted
              w_forwarding)) !! 2%nat
  = Some PDone.
Proof.
  assert (tasks w_forwarding !! "task_1000" = Some 0%nat) as H1
    by (vm_compute; reflexivity).
  assert (store w_forwarding !! 0%nat = Some created_record) as H2
    by (vm_compute; reflexivity).
  assert (Subscribers created_record !! "client_001" = Some 1%nat) as H3
    by (vm_compute; reflexivity).
  assert (chans w_forwarding !! 1%nat = Some (mkChan [] 100 false)) as H4
    by (vm_compute; reflexivity).
  assert (is_Some (chans w_forwarding !! 2%nat)) as H5
    by (eexists; vm_compute; reflexivity).
  assert (procs w_forwarding !! 2%nat
          = Some (PForward (CallerCtx 0) 0 "client_001" 1 2)) as H6
    by (vm_compute; reflexivity).
  split_and!; [exact H1|exact H2|exact H3|exact H4|exact H5|exact H6|].
  exact (proj1 (proj2 (CompleteTask_ends_forwarders 2000 (CallerCtx 0)
                         "task_1000" TaskStatusCompleted w_forwarding 0%nat
                         created_record "client_001" 1%nat 2%nat
                         (mkChan [] 100 false) 2%nat (CallerCtx 0) 3000 false
                         H1 H2 H3 H4 H5 H6) eq_refl)).
Defined.

(** X9 at the manager with one running task. *)
Lemma empty_key_creates_task_witness :
  registry_ok w_created ∧
  (ExecuteWithSSE clock2 no_pick (CallerCtx 1) "" "client_002" idle_work 0
     w_created).2
  = Returns (Some (S (S (length (chans w_created)))),
             "task_" +:+ pretty (clock2 0%nat), None).
Proof.
  split; [exact w_created_registry_ok|].
  exact (proj1 (empty_key_creates_task clock2 no_pick (CallerCtx 1) "client_002"
                  idle_work 0 w_created w_created_registry_ok)).
Defined.

(** X10 for a second client resuming the running task. *)
Lemma resume_starts_only_a_forwarder_witness :
  findTask w_created "resume_1001" = Some ("task_1000", 0%nat, created_record) ∧
  actxs (ExecuteWithSSE clock2 no_pick (CallerCtx 1) "resume_1001" "client_002"
           idle_work 0 w_created).1
  = actxs w_created.
Proof.
  assert (findTask w_created "resume_1001"
          = Some ("task_1000", 0%nat, created_record)) as H1
    by (vm_compute; reflexivity).
  split; [exact H1|].
  exact (proj1 (proj2 (resume_starts_only_a_forwarder clock2 no_pick
                         (CallerCtx 1) "resume_1001" "client_002" idle_work 0
                         w_created "task_1000" 0%nat created_record H1))).
Defined.

(** X11 at a new manager. *)
Lemma create_then_resume_witness :
  registry_ok fresh_manager ∧
  ¬ clock 4%nat + defaultTTL fresh_manager < clock2 0%nat ∧
  (ExecuteWithSSE clock2 no_pick (CallerCtx 1)
     ("resume_" +:+ pretty (clock 1%nat)) "client_002" idle_work 0
     (ExecuteWithSSE clock no_pick (CallerCtx 0) "" "client_001" idle_work
        (10 * second) fresh_manager).1).2
  = Returns (Some (length (chans fresh_manager) + 4)%nat,
             "task_" +:+ pretty (clock 0%nat), None).
Proof.
  assert (registry_ok fresh_manager) as H1 by apply map_Forall_empty.
  assert (∀ id l (t : TaskInfo nat),
            tasks fresh_manager !! id = Some l →
            store fresh_manager !! l = Some t →
            ResumeKey t ≠ "resume_" +:+ pretty (clock 1%nat)) as H2.
  { intros id l t Hl. unfold fresh_manager, NewSSEManager in Hl.
    cbn [tasks] in Hl. by rewrite lookup_empty in Hl. }
  assert (¬ clock 4%nat + defaultTTL fresh_manager < clock2 0%nat) as H3
    by (vm_compute; intros [=]).
  split_and!; [exact H1|exact H3|].
  exact (proj1 (create_then_resume clock no_pick (CallerCtx 0) "client_001"
                  idle_work (10 * second) clock2 no_pick (CallerCtx 1)
                  "client_002" idle_work 0 fresh_manager H1 H2 H3)).
Defined.

(** X12 for the record of the running task, while its first client
    leaves. *)
Lemma record_identity_is_immutable_witness :
  store w_created !! 0%nat = Some created_record ∧
  ∃ t', store (run detach_first w_created) !! 0%nat = Some t' ∧
        TaskID t' = TaskID created_record ∧
        ResumeKey t' = ResumeKey created_record ∧
        CreatedAt t' = CreatedAt created_record ∧
        ExpiresAt t' = ExpiresAt created_record.
Proof.
  assert (store w_created !! 0%nat = Some created_record) as H1
    by (vm_compute; reflexivity).
  split; [exact H1|].
  exact (record_identity_is_immutable detach_first w_created 0%nat
           created_record H1).
Defined.

(** X13 for the task created first. *)
Lemma GetTaskInfo_returns_queried_id_witness :
  GetTaskInfo "task_1000" (run start_idle (NewSSEManager hour))
  = inl (info_of created_record) ∧
  TaskID (info_of created_record) = "task_1000".
Proof.
  assert (GetTaskInfo "task_1000" (run start_idle (NewSSEManager hour))
          = inl (info_of created_record)) as H1
    by (vm_compute; reflexivity).
  split; [exact H1|].
  exact (GetTaskInfo_returns_queried_id hour start_idle "task_1000"
           (info_of created_record) H1).
Defined.

(** X14 for the raw queue after 101 updates that nobody received: it
    holds the first 100. *)
Lemma queues_never_exceed_capacity_witness :
  chans (run flood (NewSSEManager hour)) !! 0%nat
  = Some (mkChan (seq 1 100) 100 false) ∧
  (length (buf (mkChan (seq 1 100) 100 false)) ≤ 100)%nat ∧
  cap (mkChan (seq 1 100) 100 false) = 100%nat.
Proof.
  assert (chans (run flood (NewSSEManager hour)) !! 0%nat
          = Some (mkChan (seq 1 100) 100 false)) as H1
    by (vm_compute; reflexivity).
  split; [exact H1|].
  exact (queues_never_exceed_capacity hour flood 0%nat
           (mkChan (seq 1 100) 100 false) H1).
Defined.

(** X15 for the first update, the first client attached. *)
Lemma listener_fans_out_witness :
  procs w_snapshot !! 1%nat
  = Some (PListenGot 0 0 5%nat true {["client_001" := 1%nat]}) ∧
  procs (step (AProc 2000 false 1) w_snapshot)
  = <[1%nat := PListen 0 0]> (procs w_snapshot).
Proof.
  assert (procs w_snapshot !! 1%nat
          = Some (PListenGot 0 0 5%nat true {["client_001" := 1%nat]})) as H1
    by (vm_compute; reflexivity).
  assert (∀ (k1 k2 : string) (c : nat),
            ({["client_001" := 1%nat]} : gmap string nat) !! k1 = Some c →
            ({["client_001" := 1%nat]} : gmap string nat) !! k2 = Some c →
            k1 = k2) as H2.
  { intros k1 k2 c Hk1 Hk2.
    apply lookup_singleton_Some in Hk1 as [<- _].
    by apply lookup_singleton_Some in Hk2 as [<- _]. }
  assert (∀ (k : string) (c : nat),
            ({["client_001" := 1%nat]} : gmap string nat) !! k = Some c →
            ∃ ch, chans w_snapshot !! c = Some ch ∧ closed ch = false) as H3.
  { intros k c Hk. apply lookup_singleton_Some in Hk as [_ <-].
    exists (mkChan [] 100 false). split; [vm_compute|]; reflexivity. }
  split; [exact H1|].
  exact (proj1 (listener_fans_out 2000 false 1 0 0 5%nat
                  {["client_001" := 1%nat]} w_snapshot H1 H2 H3)).
Defined.

(** X16 for the first update, the first client gone since the
    snapshot. *)
Lemma listener_ends_on_closed_subscriber_witness :
  procs w_snapshot_stale !! 1%nat
  = Some (PListenGot 0 0 5%nat true {["client_001" := 1%nat]}) ∧
  chans w_snapshot_stale !! 1%nat = Some (mkChan [] 100 true) ∧
  procs (step (AProc 2000 false 1) w_snapshot_stale)
  = <[1%nat := PDone]> (procs w_snapshot_stale).
Proof.
  assert (procs w_snapshot_stale !! 1%nat
          = Some (PListenGot 0 0 5%nat true {["client_001" := 1%nat]})) as H1
    by (vm_compute; reflexivity).
  assert (chans w_snapshot_stale !! 1%nat = Some (mkChan [] 100 true)) as H2
    by (vm_compute; reflexivity).
  split_and!; [exact H1|exact H2|].
  exact (proj1 (listener_ends_on_closed_subscriber 2000 false 1 0 0 5%nat
                  {["client_001" := 1%nat]} w_snapshot_stale "client_001"
                  1%nat (mkChan [] 100 true) H1 (lookup_singleton_eq _ _) H2
                  eq_refl)).
Defined.

